(** * Planetoids: the simulation core of [planetoids.py]

    A shallow embedding of the game's entity model, collision resolution and
    tick driver, and the properties of the specification that are checked
    against it.

    Numbers.  Python's [int] is [Z].  Python's [float] is kept abstract behind
    the class [Num], which lists the operations the source uses; the game is
    written once over that class and read at the instance [binary64], the
    kernel's IEEE 754 binary64 floats, the arithmetic the interpreter
    performs (every definition evaluates there).  A theorem stated over the
    class holds in particular there.
    An [int] stored where floats are stored (the 400 of a new ship's
    position, the 0 of a fresh timer) is converted by [of_Z]; the conversion
    is exact on every integer the game uses.  [x**2] is [x * x]: the two
    agree wherever the square is finite; where it overflows (an operand
    above about 1.3e154) the interpreter raises [OverflowError] and the
    product here is infinite, a case the embedding leaves out.  [sin],
    [cos] and [atan2] come from the platform's math library and are left as
    the class [Libm].

    Randomness.  The [random] module is an oracle, a stream of raw draws;
    every function that draws takes the oracle and returns it advanced.

    Objects.  A class of the source is a record; a subclass holds its
    [GameObject] part in a field and calls the parent's [update] on it.
    Lists of objects are lists of records: the source never stores one object
    twice in a list, so [list.remove(obj)], which removes by identity, is
    removal by index.

    Loops.  The only unbounded loop, the [while True:] of [start_level], takes
    fuel; everything that runs it returns an [option].

    The keyboard and the clock.  [pygame.key.get_pressed()] is a snapshot
    [Key -> bool], the event queue a list of events, and the clock the
    number of milliseconds it reports for the frame; [handle_input] and the
    body of the loop of [run] take them as arguments.

    Out of the embedding: drawing and sound (every sound call is wrapped in
    [try/except: pass] and touches no game state). *)

From Stdlib Require Import ZArith List Bool Lia.
From Stdlib Require Import Floats.
Import ListNotations.

Set Implicit Arguments.

(** ** Numbers *)

Declare Scope py_scope.
Delimit Scope py_scope with py.

Class Num (F : Type) : Type := {
  of_Z : Z -> F;                 (* an [int] used where a [float] is *)
  num_add : F -> F -> F;
  num_sub : F -> F -> F;
  num_mul : F -> F -> F;
  num_div : F -> F -> F;
  num_opp : F -> F;
  num_eqb : F -> F -> bool;
  num_ltb : F -> F -> bool;
  num_leb : F -> F -> bool;
  sqrt : F -> F;                 (* math.sqrt *)
  fmod : F -> F -> F;            (* C's fmod, which float.__mod__ calls *)
  copysign : F -> F -> F;
  pi : F                         (* math.pi *)
}.

Class Libm (F : Type) : Type := {
  sin : F -> F;
  cos : F -> F;
  atan2 : F -> F -> F
}.

Notation "x + y" := (num_add x y) : py_scope.
Notation "x - y" := (num_sub x y) : py_scope.
Notation "x * y" := (num_mul x y) : py_scope.
Notation "x / y" := (num_div x y) : py_scope.
Notation "x == y" := (num_eqb x y) (at level 70, no associativity) : py_scope.
Notation "x < y" := (num_ltb x y) : py_scope.
Notation "x <= y" := (num_leb x y) : py_scope.
Notation "x > y" := (num_ltb y x) (only parsing) : py_scope.
Notation "x >= y" := (num_leb y x) (only parsing) : py_scope.
Notation "- x" := (num_opp x) : py_scope.

(** A decimal literal [n/d] of the source, such as [0.98]: the quotient of
    two exactly converted integers is the correctly rounded literal. *)
Definition lit {F} {NF : Num F} (n d : Z) : F := (of_Z n / of_Z d)%py.

(** *** The interpreter's arithmetic: IEEE 754 binary64 *)

Module B64.

Definition of_Z (z : Z) : float :=
  SF2Prim (binary_normalize prec emax z 0 false).

(** [fmod x y]: the exact remainder of [x / y] truncated toward zero, with
    the sign of [x]; it is always representable.  Both mantissas are put
    on the smaller exponent and the remainder is taken in [Z]. *)
Definition fmod (x y : float) : float :=
  match Prim2SF x, Prim2SF y with
  | S754_finite sx mx ex, S754_finite _ my ey =>
      let e := Z.min ex ey in
      let r := Z.modulo (Zpos mx * 2 ^ (ex - e)) (Zpos my * 2 ^ (ey - e)) in
      SF2Prim (binary_normalize prec emax (if sx then Z.opp r else r) e sx)
  | S754_zero _, S754_finite _ _ _ => x
  | S754_zero _, S754_infinity _ => x
  | S754_finite _ _ _, S754_infinity _ => x
  | _, _ => nan
  end.

Definition copysign (x y : float) : float :=
  if get_sign y then PrimFloat.opp (PrimFloat.abs x) else PrimFloat.abs x.

(** [math.pi], the binary64 nearest to pi. *)
Definition pi : float := 0x1.921fb54442d18p+1%float.

End B64.

#[export] Instance binary64 : Num float := {|
  of_Z := B64.of_Z;
  num_add := PrimFloat.add;
  num_sub := PrimFloat.sub;
  num_mul := PrimFloat.mul;
  num_div := PrimFloat.div;
  num_opp := PrimFloat.opp;
  num_eqb := PrimFloat.eqb;
  num_ltb := PrimFloat.ltb;
  num_leb := PrimFloat.leb;
  sqrt := PrimFloat.sqrt;
  fmod := B64.fmod;
  copysign := B64.copysign;
  pi := B64.pi
|}.

(** ** The source's constants and enumerations *)

Definition SCREEN_WIDTH : Z := 800.
Definition SCREEN_HEIGHT : Z := 600.

Inductive GameState := MENU | PLAYING | GAME_OVER | PAUSED.

Inductive DamageType := ASTEROID | ALIEN_SHIP | ALIEN_BULLET | HYPERSPACE.

(** ** Python's [float.__mod__] *)

Section PyMod.
Context {F : Type} {NF : Num F}.

(** CPython's [float_rem]: [fmod], then the remainder is given the sign of
    the divisor by adding the divisor to it; a zero remainder takes the
    divisor's sign.  (A zero divisor raises; the source only divides by
    the constants 800, 600.) *)
Definition py_mod (x w : F) : F :=
  let m := fmod x w in
  if negb (m == of_Z 0)%py then
    if xorb (w < of_Z 0)%py (m < of_Z 0)%py then (m + w)%py else m
  else copysign (of_Z 0) w.

End PyMod.

(** [math.radians] and [math.degrees] multiply by a constant that is
    computed once in the number format. *)
Definition radians {F} {NF : Num F} (d : F) : F := (d * (pi / of_Z 180))%py.
Definition degrees {F} {NF : Num F} (r : F) : F := (r * (of_Z 180 / pi))%py.

(** ** The [random] module

    The generator is an oracle: two streams of raw draws and the number of
    draws made so far.  Each call reads the next raw draw and forces it into
    the range the library documents ([randint(a, b)]: an integer [N] with
    [a <= N <= b]; [uniform(a, b)]: a float [N] with [a <= N <= b];
    [random()]: a float in [[0, 1)]), so that every run of the program is the
    run under some oracle. *)

Module Random.

Record Rng (F : Type) : Type := mkRng {
  raw_int : nat -> Z;
  raw_float : nat -> F;
  drawn : nat
}.

(** A computation that draws random numbers. *)
Definition Rand (F A : Type) : Type := Rng F -> A * Rng F.

Section Defs.
Context {F : Type} {NF : Num F}.

Definition ret {A} (a : A) : Rand F A := fun g => (a, g).

Definition bind {A B} (m : Rand F A) (k : A -> Rand F B) : Rand F B :=
  fun g => let (a, g') := m g in k a g'.

Definition next (g : Rng F) : Rng F :=
  mkRng (raw_int g) (raw_float g) (S (drawn g)).

Definition randint (a b : Z) : Rand F Z :=
  fun g => ((a + raw_int g (drawn g) mod (b - a + 1))%Z, next g).

Definition clamp (a b r : F) : F :=
  if ((a <= r)%py && (r <= b)%py)%bool then r else a.

Definition uniform (a b : F) : Rand F F :=
  fun g => (clamp a b (raw_float g (drawn g)), next g).

Definition random : Rand F F :=
  fun g => let r := raw_float g (drawn g) in
           (if ((of_Z 0 <= r)%py && (r < of_Z 1)%py)%bool then r else of_Z 0,
            next g).

End Defs.
End Random.

Notation "x <- m ;; k" := (Random.bind m (fun x => k))
  (at level 61, m at next level, right associativity).
Notation "' pat <- m ;; k" := (Random.bind m (fun x => match x with pat => k end))
  (at level 61, pat pattern, m at next level, right associativity).

(** ** Vector2 *)

Module Vector2.

Record t (F : Type) : Type := mk { x : F; y : F }.

Section Defs.
Context {F : Type} {NF : Num F}.

Definition add (a b : t F) : t F := mk (x a + x b)%py (y a + y b)%py.
Definition mul (a : t F) (k : F) : t F := mk (x a * k)%py (y a * k)%py.

Definition magnitude (a : t F) : F := sqrt (x a * x a + y a * y a)%py.

Definition normalize (a : t F) : t F :=
  let mag := magnitude a in
  if (mag == of_Z 0)%py then mk (of_Z 0) (of_Z 0)
  else mk (x a / mag)%py (y a / mag)%py.

End Defs.
End Vector2.

(** ** GameObject *)

Module GameObject.

Record t (F : Type) : Type := mk {
  position : Vector2.t F;
  velocity : Vector2.t F;
  rotation : F;
  radius : Z;
  active : bool
}.

Section Defs.
Context {F : Type} {NF : Num F}.

Definition init (x y : F) : t F :=
  mk (Vector2.mk x y) (Vector2.mk (of_Z 0) (of_Z 0)) (of_Z 0) 10 true.

Definition set_position (o : t F) (p : Vector2.t F) : t F :=
  mk p (velocity o) (rotation o) (radius o) (active o).
Definition set_velocity (o : t F) (v : Vector2.t F) : t F :=
  mk (position o) v (rotation o) (radius o) (active o).
Definition set_rotation (o : t F) (r : F) : t F :=
  mk (position o) (velocity o) r (radius o) (active o).
Definition set_radius (o : t F) (r : Z) : t F :=
  mk (position o) (velocity o) (rotation o) r (active o).
Definition set_active (o : t F) (a : bool) : t F :=
  mk (position o) (velocity o) (rotation o) (radius o) a.

Definition update (o : t F) (dt : F) : t F :=
  (* Update position *)
  let p := Vector2.add (position o) (Vector2.mul (velocity o) dt) in
  (* Wrap around screen edges *)
  let px := py_mod (Vector2.x p) (of_Z SCREEN_WIDTH) in
  let py := py_mod (Vector2.y p) (of_Z SCREEN_HEIGHT) in
  set_position o (Vector2.mk px py).

Definition collides_with (a b : t F) : bool :=
  if negb (active a && active b) then false
  else
    let dx := (Vector2.x (position a) - Vector2.x (position b))%py in
    let dy := (Vector2.y (position a) - Vector2.y (position b))%py in
    let distance := sqrt (dx * dx + dy * dy)%py in
    (distance < of_Z (radius a + radius b))%py.

End Defs.
End GameObject.



(** Python's two-argument [max]: the first argument unless the second is
    greater. *)
Definition py_max {F} {NF : Num F} (a b : F) : F := if (b > a)%py then b else a.

(** ** Ship *)

Module Ship.

Record t (F : Type) : Type := mk {
  obj : GameObject.t F;
  thrust_power : Z;
  rotation_speed : Z;
  max_speed : Z;
  fuel : F;
  max_fuel : Z;
  invulnerable_time : F;
  hyperspace_cooldown : F;
  hit_flash_time : F;
  flash_intensity : F;
  damage_type : option DamageType;
  max_health : Z;
  health : Z;
  shape : list (Vector2.t F)
}.

Section Defs.
Context {F : Type} {NF : Num F}.

Definition set_obj (s : t F) (o : GameObject.t F) : t F :=
  mk o (thrust_power s) (rotation_speed s) (max_speed s) (fuel s) (max_fuel s)
     (invulnerable_time s) (hyperspace_cooldown s) (hit_flash_time s)
     (flash_intensity s) (damage_type s) (max_health s) (health s) (shape s).

Definition set_invulnerable_time (s : t F) (v : F) : t F :=
  mk (obj s) (thrust_power s) (rotation_speed s) (max_speed s) (fuel s) (max_fuel s)
     v (hyperspace_cooldown s) (hit_flash_time s)
     (flash_intensity s) (damage_type s) (max_health s) (health s) (shape s).

Definition set_hyperspace_cooldown (s : t F) (v : F) : t F :=
  mk (obj s) (thrust_power s) (rotation_speed s) (max_speed s) (fuel s) (max_fuel s)
     (invulnerable_time s) v (hit_flash_time s)
     (flash_intensity s) (damage_type s) (max_health s) (health s) (shape s).

Definition set_hit_flash_time (s : t F) (v : F) : t F :=
  mk (obj s) (thrust_power s) (rotation_speed s) (max_speed s) (fuel s) (max_fuel s)
     (invulnerable_time s) (hyperspace_cooldown s) v
     (flash_intensity s) (damage_type s) (max_health s) (health s) (shape s).

Definition set_flash_intensity (s : t F) (v : F) : t F :=
  mk (obj s) (thrust_power s) (rotation_speed s) (max_speed s) (fuel s) (max_fuel s)
     (invulnerable_time s) (hyperspace_cooldown s) (hit_flash_time s)
     v (damage_type s) (max_health s) (health s) (shape s).

Definition set_damage_type (s : t F) (v : option DamageType) : t F :=
  mk (obj s) (thrust_power s) (rotation_speed s) (max_speed s) (fuel s) (max_fuel s)
     (invulnerable_time s) (hyperspace_cooldown s) (hit_flash_time s)
     (flash_intensity s) v (max_health s) (health s) (shape s).

Definition set_health (s : t F) (v : Z) : t F :=
  mk (obj s) (thrust_power s) (rotation_speed s) (max_speed s) (fuel s) (max_fuel s)
     (invulnerable_time s) (hyperspace_cooldown s) (hit_flash_time s)
     (flash_intensity s) (damage_type s) (max_health s) v (shape s).

Definition set_active (s : t F) (a : bool) : t F :=
  set_obj s (GameObject.set_active (obj s) a).

Definition init (x y : F) : t F :=
  mk (GameObject.set_radius (GameObject.init x y) 8)
     200 300 300
     (of_Z 1000) 1000
     (of_Z 0) (of_Z 0) (of_Z 0) (of_Z 0)
     None
     3 3
     [ Vector2.mk (of_Z 0) (of_Z (-10));
       Vector2.mk (of_Z (-6)) (of_Z 8);
       Vector2.mk (of_Z 6) (of_Z 8) ].

Definition update (s : t F) (dt : F) : t F :=
  let s := set_obj s (GameObject.update (obj s) dt) in
  (* Update timers *)
  let s := if (invulnerable_time s > of_Z 0)%py
           then set_invulnerable_time s (invulnerable_time s - dt)%py else s in
  let s := if (hyperspace_cooldown s > of_Z 0)%py
           then set_hyperspace_cooldown s (hyperspace_cooldown s - dt)%py else s in
  let s := if (hit_flash_time s > of_Z 0)%py
           then
             let s := set_hit_flash_time s (hit_flash_time s - dt)%py in
             set_flash_intensity s (py_max (of_Z 0) (hit_flash_time s / of_Z 1)%py)
           else
             set_damage_type (set_flash_intensity s (of_Z 0)) None in
  (* Apply drag *)
  let drag := lit 98 100 in
  set_obj s (GameObject.set_velocity (obj s)
               (Vector2.mul (GameObject.velocity (obj s)) drag)).

(** [take_hit] returns [True] if the ship is destroyed. *)
Definition take_hit (s : t F) (damage_type : DamageType) (damage : Z)
  : t F * bool :=
  if (invulnerable_time s > of_Z 0)%py then
    (s, false)  (* No damage during invulnerability *)
  else
    let s := set_health s (health s - damage) in
    let s := set_hit_flash_time s (of_Z 1) in
    let s := set_flash_intensity s (of_Z 1) in
    let s := set_damage_type s (Some damage_type) in
    let s := set_invulnerable_time s (of_Z 2) in
    (s, (health s <=? 0)%Z).

Definition hyperspace (s : t F) : Random.Rand F (t F * bool) :=
  if (hyperspace_cooldown s <= of_Z 0)%py then
    (* Random teleport with risk *)
    x <- Random.randint 50 (SCREEN_WIDTH - 50) ;;
    y <- Random.randint 50 (SCREEN_HEIGHT - 50) ;;
    let s := set_obj s (GameObject.set_position (obj s)
                          (Vector2.mk (of_Z x) (of_Z y))) in
    let s := set_obj s (GameObject.set_velocity (obj s)
                          (Vector2.mk (of_Z 0) (of_Z 0))) in
    let s := set_hyperspace_cooldown s (of_Z 3) in
    (* Small chance of destruction (10%) *)
    r <- Random.random ;;
    if (r < lit 1 10)%py then
      let (s, destroyed) := take_hit s HYPERSPACE (health s) in
      let s := if destroyed then set_active s false else s in
      Random.ret (s, false)
    else Random.ret (s, true)
  else Random.ret (s, true).

Definition set_fuel (s : t F) (v : F) : t F :=
  mk (obj s) (thrust_power s) (rotation_speed s) (max_speed s) v (max_fuel s)
     (invulnerable_time s) (hyperspace_cooldown s) (hit_flash_time s)
     (flash_intensity s) (damage_type s) (max_health s) (health s) (shape s).

Definition thrust {LF : Libm F} (s : t F) (dt : F) : t F :=
  if (fuel s <= of_Z 0)%py then s
  else
    (* Calculate thrust direction *)
    let rotation := GameObject.rotation (obj s) in
    let thrust_x := (sin (radians rotation) * of_Z (thrust_power s) * dt)%py in
    let thrust_y := (- cos (radians rotation) * of_Z (thrust_power s) * dt)%py in
    let v := GameObject.velocity (obj s) in
    let v := Vector2.mk (Vector2.x v + thrust_x)%py (Vector2.y v + thrust_y)%py in
    (* Limit max speed *)
    let v := if (Vector2.magnitude v > of_Z (max_speed s))%py
             then Vector2.mul (Vector2.normalize v) (of_Z (max_speed s))
             else v in
    let s := set_obj s (GameObject.set_velocity (obj s) v) in
    (* Consume fuel *)
    let s := set_fuel s (fuel s - of_Z 50 * dt)%py in
    if (fuel s < of_Z 0)%py then set_fuel s (of_Z 0) else s.

Definition rotate (s : t F) (direction : Z) (dt : F) : t F :=
  let r := (GameObject.rotation (obj s)
            + of_Z (direction * rotation_speed s) * dt)%py in
  set_obj s (GameObject.set_rotation (obj s) (py_mod r (of_Z 360))).

End Defs.
End Ship.

(** The velocity of speed [speed] along the heading [angle] (degrees, 0 is
    up): the two assignments
    [velocity.x = math.sin(math.radians(angle)) * speed] and
    [velocity.y = -math.cos(math.radians(angle)) * speed]. *)
Definition heading {F} {NF : Num F} {LF : Libm F} (angle speed : F) : Vector2.t F :=
  Vector2.mk (sin (radians angle) * speed)%py
             (- cos (radians angle) * speed)%py.

(** ** Bullet *)

Module Bullet.

Record t (F : Type) : Type := mk {
  obj : GameObject.t F;
  lifetime : F
}.

Section Defs.
Context {F : Type} {NF : Num F} {LF : Libm F}.

Definition set_obj (b : t F) (o : GameObject.t F) : t F := mk o (lifetime b).
Definition set_lifetime (b : t F) (l : F) : t F := mk (obj b) l.
Definition set_active (b : t F) (a : bool) : t F :=
  set_obj b (GameObject.set_active (obj b) a).

Definition init (x y rotation : F) : t F :=
  let o := GameObject.set_radius (GameObject.init x y) 2 in
  (* Set velocity based on rotation *)
  let speed := of_Z 400 in
  mk (GameObject.set_velocity o (heading rotation speed))
     (of_Z 2) (* Bullets last 2 seconds *).

Definition update (b : t F) (dt : F) : t F :=
  let b := set_obj b (GameObject.update (obj b) dt) in
  let b := set_lifetime b (lifetime b - dt)%py in
  if (lifetime b <= of_Z 0)%py then set_active b false else b.

End Defs.
End Bullet.

(** [for x in xs: ...] where the body draws random numbers and yields one
    result per element. *)
Fixpoint for_each {F A B} (f : A -> Random.Rand F B) (xs : list A)
  : Random.Rand F (list B) :=
  match xs with
  | [] => Random.ret []
  | x :: xs' => b <- f x ;; bs <- for_each f xs' ;; Random.ret (b :: bs)
  end.

(** ** Asteroid *)

Module Asteroid.

Record t (F : Type) : Type := mk {
  obj : GameObject.t F;
  size : Z;  (* 1=small, 2=medium, 3=large *)
  rotation_speed : F;
  shape : list (Vector2.t F)
}.

Section Defs.
Context {F : Type} {NF : Num F} {LF : Libm F}.

Definition set_obj (a : t F) (o : GameObject.t F) : t F :=
  mk o (size a) (rotation_speed a) (shape a).
Definition set_active (a : t F) (v : bool) : t F :=
  set_obj a (GameObject.set_active (obj a) v).
Definition set_velocity (a : t F) (v : Vector2.t F) : t F :=
  set_obj a (GameObject.set_velocity (obj a) v).

(** One vertex of the outline: the body of the loop of [__init__]. *)
Definition shape_point (radius : Z) (num_points : Z) (i : nat)
  : Random.Rand F (Vector2.t F) :=
  let angle := ((of_Z 360 / of_Z num_points) * of_Z (Z.of_nat i))%py in
  radius_variation <- Random.uniform (lit 7 10) (lit 13 10) ;;
  let radius := (of_Z radius * radius_variation)%py in
  let x := (sin (radians angle) * radius)%py in
  let y := (- cos (radians angle) * radius)%py in
  Random.ret (Vector2.mk x y).

Definition init (x y : F) (size : Z) : Random.Rand F (t F) :=
  let radius := (10 + size * 8)%Z in
  let o := GameObject.set_radius (GameObject.init x y) radius in
  rotation_speed <- Random.uniform (of_Z (-180)) (of_Z 180) ;;
  (* Random velocity *)
  speed <- Random.uniform (of_Z 20) (of_Z 80) ;;
  angle <- Random.uniform (of_Z 0) (of_Z 360) ;;
  let o := GameObject.set_velocity o (heading angle speed) in
  (* Generate random asteroid shape *)
  let num_points := 8%nat in
  shape <- for_each (shape_point radius (Z.of_nat num_points))
                    (seq 0 num_points) ;;
  Random.ret (mk o size rotation_speed shape).

Definition update (a : t F) (dt : F) : t F :=
  let a := set_obj a (GameObject.update (obj a) dt) in
  set_obj a (GameObject.set_rotation (obj a)
               (GameObject.rotation (obj a) + rotation_speed a * dt)%py).

(** The body of the loop of [split]: one smaller asteroid at the parent's
    position. *)
Definition split_one (a : t F) : Random.Rand F (t F) :=
  let p := GameObject.position (obj a) in
  new_asteroid <- init (Vector2.x p) (Vector2.y p) (size a - 1) ;;
  (* Give them different velocities *)
  speed <- Random.uniform (of_Z 40) (of_Z 120) ;;
  angle <- Random.uniform (of_Z 0) (of_Z 360) ;;
  Random.ret (set_velocity new_asteroid (heading angle speed)).

Definition split (a : t F) : Random.Rand F (list (t F)) :=
  if (size a <=? 1)%Z then Random.ret []
  else
    (* Create 2-3 smaller asteroids *)
    num_splits <- Random.randint 2 3 ;;
    for_each (fun _ => split_one a) (seq 0 (Z.to_nat num_splits)).

End Defs.
End Asteroid.

(** ** AlienShip *)

Module AlienShip.

Record t (F : Type) : Type := mk {
  obj : GameObject.t F;
  shoot_timer : F;
  shoot_interval : F;
  direction_timer : F;
  direction_interval : F
}.

Section Defs.
Context {F : Type} {NF : Num F} {LF : Libm F}.

Definition set_obj (a : t F) (o : GameObject.t F) : t F :=
  mk o (shoot_timer a) (shoot_interval a) (direction_timer a) (direction_interval a).
Definition set_active (a : t F) (v : bool) : t F :=
  set_obj a (GameObject.set_active (obj a) v).

Definition init (x y : F) : Random.Rand F (t F) :=
  let o := GameObject.set_radius (GameObject.init x y) 12 in
  shoot_interval <- Random.uniform (lit 3 2) (of_Z 3) ;;
  direction_interval <- Random.uniform (of_Z 2) (of_Z 4) ;;
  (* Set initial random velocity *)
  speed <- Random.uniform (of_Z 50) (of_Z 100) ;;
  angle <- Random.uniform (of_Z 0) (of_Z 360) ;;
  Random.ret (mk (GameObject.set_velocity o (heading angle speed))
                 (of_Z 0) shoot_interval (of_Z 0) direction_interval).

Definition update (a : t F) (dt : F) : Random.Rand F (t F) :=
  let o := GameObject.update (obj a) dt in
  let shoot_timer := (shoot_timer a + dt)%py in
  let direction_timer := (direction_timer a + dt)%py in
  (* Change direction periodically *)
  if (direction_timer >= direction_interval a)%py then
    speed <- Random.uniform (of_Z 50) (of_Z 100) ;;
    angle <- Random.uniform (of_Z 0) (of_Z 360) ;;
    direction_interval <- Random.uniform (of_Z 2) (of_Z 4) ;;
    Random.ret (mk (GameObject.set_velocity o (heading angle speed))
                   shoot_timer (shoot_interval a) (of_Z 0) direction_interval)
  else
    Random.ret (mk o shoot_timer (shoot_interval a)
                   direction_timer (direction_interval a)).

Definition should_shoot (a : t F) : Random.Rand F (t F * bool) :=
  if (shoot_timer a >= shoot_interval a)%py then
    shoot_interval <- Random.uniform (lit 3 2) (of_Z 3) ;;
    Random.ret (mk (obj a) (of_Z 0) shoot_interval
                   (direction_timer a) (direction_interval a), true)
  else Random.ret (a, false).

Definition get_shoot_angle (a : t F) (target_pos : Vector2.t F)
  : Random.Rand F F :=
  (* Aim towards target with some inaccuracy *)
  let dx := (Vector2.x target_pos - Vector2.x (GameObject.position (obj a)))%py in
  let dy := (Vector2.y target_pos - Vector2.y (GameObject.position (obj a)))%py in
  let angle := degrees (atan2 dx (- dy)%py) in
  (* Add some inaccuracy *)
  noise <- Random.uniform (of_Z (-30)) (of_Z 30) ;;
  Random.ret (angle + noise)%py.

End Defs.
End AlienShip.

(** ** Lists of objects *)

(** [del l[i]]: what [l.remove(obj)] does when [obj] is the [i]-th object. *)
Fixpoint remove_at {A} (i : nat) (l : list A) : list A :=
  match l, i with
  | [], _ => []
  | _ :: l', O => l'
  | a :: l', S i' => a :: remove_at i' l'
  end.

(** [l[i] = v]. *)
Fixpoint replace_at {A} (i : nat) (v : A) (l : list A) : list A :=
  match l, i with
  | [], _ => []
  | _ :: l', O => v :: l'
  | a :: l', S i' => a :: replace_at i' v l'
  end.

(** [for x in xs: if o.collides_with(x): ...; break]: the index of the
    first object of [xs] that [o] collides with, and that object. *)
Fixpoint first_collision {F} {NF : Num F} {A} (part : A -> GameObject.t F)
         (o : GameObject.t F) (xs : list A) : option (nat * A) :=
  match xs with
  | [] => None
  | x :: xs' =>
      if GameObject.collides_with o (part x) then Some (O, x)
      else match first_collision part o xs' with
           | Some (j, y) => Some (S j, y)
           | None => None
           end
  end.

(** ** The keyboard

    The keys the program reads, and the events of [pygame.event.get()] it
    tells apart. *)

Inductive Key :=
| K_LEFT | K_a | K_RIGHT | K_d | K_UP | K_w | K_SPACE | K_h
| K_ESCAPE | K_RETURN | K_p | K_other.

Inductive Event := QUIT | KEYDOWN (key : Key) | OTHER_EVENT.

(** [self.keys_pressed], a set that only ever receives [K_SPACE] and
    [K_h]. *)
Record KeysPressed : Type := mkKeysPressed {
  has_SPACE : bool;
  has_h : bool
}.

(** ** Game *)

Module Game.

Record t (F : Type) : Type := mk {
  state : GameState;
  score : Z;
  lives : Z;
  level : Z;
  ship : option (Ship.t F);
  bullets : list (Bullet.t F);
  asteroids : list (Asteroid.t F);
  alien_ships : list (AlienShip.t F);
  alien_bullets : list (Bullet.t F);
  alien_spawn_timer : F;
  alien_spawn_interval : F
}.

Section Defs.
Context {F : Type} {NF : Num F} {LF : Libm F}.

Definition set_state (g : t F) (v : GameState) : t F :=
  mk v (score g) (lives g) (level g) (ship g) (bullets g) (asteroids g)
     (alien_ships g) (alien_bullets g) (alien_spawn_timer g) (alien_spawn_interval g).
Definition set_score (g : t F) (v : Z) : t F :=
  mk (state g) v (lives g) (level g) (ship g) (bullets g) (asteroids g)
     (alien_ships g) (alien_bullets g) (alien_spawn_timer g) (alien_spawn_interval g).
Definition set_lives (g : t F) (v : Z) : t F :=
  mk (state g) (score g) v (level g) (ship g) (bullets g) (asteroids g)
     (alien_ships g) (alien_bullets g) (alien_spawn_timer g) (alien_spawn_interval g).
Definition set_level (g : t F) (v : Z) : t F :=
  mk (state g) (score g) (lives g) v (ship g) (bullets g) (asteroids g)
     (alien_ships g) (alien_bullets g) (alien_spawn_timer g) (alien_spawn_interval g).
Definition set_ship (g : t F) (v : option (Ship.t F)) : t F :=
  mk (state g) (score g) (lives g) (level g) v (bullets g) (asteroids g)
     (alien_ships g) (alien_bullets g) (alien_spawn_timer g) (alien_spawn_interval g).
Definition set_bullets (g : t F) (v : list (Bullet.t F)) : t F :=
  mk (state g) (score g) (lives g) (level g) (ship g) v (asteroids g)
     (alien_ships g) (alien_bullets g) (alien_spawn_timer g) (alien_spawn_interval g).
Definition set_asteroids (g : t F) (v : list (Asteroid.t F)) : t F :=
  mk (state g) (score g) (lives g) (level g) (ship g) (bullets g) v
     (alien_ships g) (alien_bullets g) (alien_spawn_timer g) (alien_spawn_interval g).
Definition set_alien_ships (g : t F) (v : list (AlienShip.t F)) : t F :=
  mk (state g) (score g) (lives g) (level g) (ship g) (bullets g) (asteroids g)
     v (alien_bullets g) (alien_spawn_timer g) (alien_spawn_interval g).
Definition set_alien_bullets (g : t F) (v : list (Bullet.t F)) : t F :=
  mk (state g) (score g) (lives g) (level g) (ship g) (bullets g) (asteroids g)
     (alien_ships g) v (alien_spawn_timer g) (alien_spawn_interval g).
Definition set_alien_spawn_timer (g : t F) (v : F) : t F :=
  mk (state g) (score g) (lives g) (level g) (ship g) (bullets g) (asteroids g)
     (alien_ships g) (alien_bullets g) v (alien_spawn_interval g).

(** [__init__], without the window, the clock and the fonts. *)
Definition init : t F :=
  mk MENU 0 3 1 None [] [] [] [] (of_Z 0) (of_Z 20).

(** The ship every (re)spawn creates: at the centre of the screen, with
    [invulnerable_time = 2.0] and [health = max_health]. *)
Definition new_ship : Ship.t F :=
  let ship := Ship.init (of_Z (SCREEN_WIDTH / 2)) (of_Z (SCREEN_HEIGHT / 2)) in
  let ship := Ship.set_invulnerable_time ship (of_Z 2) in
  Ship.set_health ship (Ship.max_health ship).

(** The [while True:] loop of [start_level]: draw a point until it is more
    than 100 away from the ship.  [fuel] bounds the number of draws; the
    loop of the source has no bound. *)
Fixpoint place_asteroid (fuel : nat) (ship : Ship.t F) (g : Random.Rng F)
  : option (Asteroid.t F * Random.Rng F) :=
  match fuel with
  | O => None
  | S fuel' =>
      let (x, g) := Random.randint 50 (SCREEN_WIDTH - 50) g in
      let (y, g) := Random.randint 50 (SCREEN_HEIGHT - 50) g in
      (* Make sure asteroid is not too close to ship *)
      let p := GameObject.position (Ship.obj ship) in
      let dx := (of_Z x - Vector2.x p)%py in
      let dy := (of_Z y - Vector2.y p)%py in
      let distance := sqrt (dx * dx + dy * dy)%py in
      if (distance > of_Z 100)%py
      then Some (Asteroid.init (of_Z x) (of_Z y) 3 g)
      else place_asteroid fuel' ship g
  end.

(** [for _ in range(n):] around that loop. *)
Fixpoint place_asteroids (fuel : nat) (n : nat) (ship : Ship.t F)
         (g : Random.Rng F) : option (list (Asteroid.t F) * Random.Rng F) :=
  match n with
  | O => Some ([], g)
  | S n' =>
      match place_asteroid fuel ship g with
      | None => None
      | Some (a, g) =>
          match place_asteroids fuel n' ship g with
          | None => None
          | Some (l, g) => Some (a :: l, g)
          end
      end
  end.

Definition start_level (fuel : nat) (gm : t F) (g : Random.Rng F)
  : option (t F * Random.Rng F) :=
  (* Create ship *)
  let gm := set_ship gm (Some new_ship) in
  (* Clear all objects *)
  let gm := set_bullets gm [] in
  let gm := set_alien_ships gm [] in
  let gm := set_alien_bullets gm [] in
  (* Create asteroids for this level *)
  let gm := set_asteroids gm [] in
  let num_asteroids := (4 + level gm)%Z in
  match place_asteroids fuel (Z.to_nat num_asteroids) new_ship g with
  | None => None
  | Some (l, g) =>
      let gm := set_asteroids gm (asteroids gm ++ l) in
      Some (set_alien_spawn_timer gm (of_Z 0), g)
  end.

Definition reset_game (fuel : nat) (gm : t F) (g : Random.Rng F)
  : option (t F * Random.Rng F) :=
  let gm := set_score gm 0 in
  let gm := set_lives gm 3 in
  let gm := set_level gm 1 in
  start_level fuel gm g.

Definition spawn_alien (gm : t F) : Random.Rand F (t F) :=
  (* Spawn alien at edge of screen *)
  side <- Random.randint 0 3 ;;
  '(x, y) <-
    (if (side =? 0)%Z then (* Top *)
       x <- Random.randint 0 SCREEN_WIDTH ;; Random.ret (x, 0%Z)
     else if (side =? 1)%Z then (* Right *)
       y <- Random.randint 0 SCREEN_HEIGHT ;; Random.ret (SCREEN_WIDTH, y)
     else if (side =? 2)%Z then (* Bottom *)
       x <- Random.randint 0 SCREEN_WIDTH ;; Random.ret (x, SCREEN_HEIGHT)
     else (* Left *)
       y <- Random.randint 0 SCREEN_HEIGHT ;; Random.ret (0%Z, y)) ;;
  alien <- AlienShip.init (of_Z x) (of_Z y) ;;
  Random.ret (set_alien_ships gm (alien_ships gm ++ [alien])).

(** *** Collision resolution

    Each pass of [check_collisions] is a function of its own; the loops over
    [self.bullets[:]] walk a copy of the list while hits are removed from
    the list itself, so a loop carries the index [i] that the bullet at
    hand has in the list. *)

Definition score_values (size : Z) : Z :=
  if (size =? 1)%Z then 100
  else if (size =? 2)%Z then 50
  else if (size =? 3)%Z then 20
  else 20 (* the default of [score_values.get] *).

(** The body of [if bullet.collides_with(asteroid):], for the bullet at
    index [i] and the asteroid at index [j].  The two objects are returned
    as the body leaves them. *)
Definition asteroid_hit (i j : nat) (bullet : Bullet.t F)
           (asteroid : Asteroid.t F) (gm : t F)
  : Random.Rand F (t F * Bullet.t F * Asteroid.t F) :=
  let bullet := Bullet.set_active bullet false in
  let asteroid := Asteroid.set_active asteroid false in
  (* Score based on asteroid size *)
  let gm := set_score gm (score gm + score_values (Asteroid.size asteroid)) in
  (* Split asteroid *)
  new_asteroids <- Asteroid.split asteroid ;;
  let gm := set_asteroids gm (asteroids gm ++ new_asteroids) in
  let gm := set_bullets gm (remove_at i (bullets gm)) in
  let gm := set_asteroids gm (remove_at j (asteroids gm)) in
  Random.ret (gm, bullet, asteroid).

(** Player bullets vs asteroids, for one bullet: the inner loop
    [for asteroid in self.asteroids[:]], which stops at the first hit.
    Returns the index the next bullet has in [self.bullets]. *)
Definition bullet_vs_asteroids (bullet : Bullet.t F) (i : nat) (gm : t F)
  : Random.Rand F (t F * nat) :=
  match first_collision (@Asteroid.obj F) (Bullet.obj bullet) (asteroids gm) with
  | Some (j, asteroid) =>
      '(gm, _, _) <- asteroid_hit i j bullet asteroid gm ;;
      Random.ret (gm, i)
  | None => Random.ret (gm, S i)
  end.

(** The outer loop [for bullet in self.bullets[:]] over [todo], the bullets
    not yet looked at, of which the first is [bullets[i]]. *)
Fixpoint bullets_vs_asteroids (todo : list (Bullet.t F)) (i : nat) (gm : t F)
  : Random.Rand F (t F) :=
  match todo with
  | [] => Random.ret gm
  | bullet :: todo' =>
      '(gm, i) <- bullet_vs_asteroids bullet i gm ;;
      bullets_vs_asteroids todo' i gm
  end.

(** The body of [if bullet.collides_with(alien):]. *)
Definition alien_hit (i j : nat) (bullet : Bullet.t F)
           (alien : AlienShip.t F) (gm : t F)
  : t F * Bullet.t F * AlienShip.t F :=
  let bullet := Bullet.set_active bullet false in
  let alien := AlienShip.set_active alien false in
  let gm := set_score gm (score gm + 500) in  (* High score for aliens *)
  let gm := set_bullets gm (remove_at i (bullets gm)) in
  let gm := set_alien_ships gm (remove_at j (alien_ships gm)) in
  (gm, bullet, alien).

(** Player bullets vs aliens, for one bullet. *)
Definition bullet_vs_aliens (bullet : Bullet.t F) (i : nat) (gm : t F)
  : t F * nat :=
  match first_collision (@AlienShip.obj F) (Bullet.obj bullet) (alien_ships gm) with
  | Some (j, alien) =>
      let '(gm, _, _) := alien_hit i j bullet alien gm in (gm, i)
  | None => (gm, S i)
  end.

Fixpoint bullets_vs_aliens (todo : list (Bullet.t F)) (i : nat) (gm : t F)
  : t F :=
  match todo with
  | [] => gm
  | bullet :: todo' =>
      let (gm, i) := bullet_vs_aliens bullet i gm in
      bullets_vs_aliens todo' i gm
  end.

(** The guard of the three ship passes:
    [self.ship and self.ship.active and self.ship.invulnerable_time <= 0]. *)
Definition ship_exposed (gm : t F) : option (Ship.t F) :=
  match ship gm with
  | Some s =>
      if (GameObject.active (Ship.obj s)
          && (Ship.invulnerable_time s <= of_Z 0)%py)%bool
      then Some s else None
  | None => None
  end.

(** [destroyed = self.ship.take_hit(...); if destroyed: self.ship.active = False]. *)
Definition ship_hit (s : Ship.t F) (damage_type : DamageType) (damage : Z)
  : Ship.t F :=
  let (s, destroyed) := Ship.take_hit s damage_type damage in
  if destroyed then Ship.set_active s false else s.

(** Ship vs asteroids. *)
Definition ship_vs_asteroids (gm : t F) : t F :=
  match ship_exposed gm with
  | Some s =>
      match first_collision (@Asteroid.obj F) (Ship.obj s) (asteroids gm) with
      | Some _ => set_ship gm (Some (ship_hit s ASTEROID 1))
      | None => gm
      end
  | None => gm
  end.

(** Ship vs aliens: the alien is deactivated and stays in the list. *)
Definition ship_vs_aliens (gm : t F) : t F :=
  match ship_exposed gm with
  | Some s =>
      match first_collision (@AlienShip.obj F) (Ship.obj s) (alien_ships gm) with
      | Some (j, alien) =>
          (* Aliens do more damage *)
          let gm := set_ship gm (Some (ship_hit s ALIEN_SHIP 2)) in
          set_alien_ships gm
            (replace_at j (AlienShip.set_active alien false) (alien_ships gm))
      | None => gm
      end
  | None => gm
  end.

(** Ship vs alien bullets. *)
Definition ship_vs_alien_bullets (gm : t F) : t F :=
  match ship_exposed gm with
  | Some s =>
      match first_collision (@Bullet.obj F) (Ship.obj s) (alien_bullets gm) with
      | Some (j, _) =>
          let gm := set_ship gm (Some (ship_hit s ALIEN_BULLET 1)) in
          set_alien_bullets gm (remove_at j (alien_bullets gm))
      | None => gm
      end
  | None => gm
  end.

Definition check_collisions (gm : t F) : Random.Rand F (t F) :=
  gm <- bullets_vs_asteroids (bullets gm) 0 gm ;;
  let gm := bullets_vs_aliens (bullets gm) 0 gm in
  let gm := ship_vs_asteroids gm in
  let gm := ship_vs_aliens gm in
  let gm := ship_vs_alien_bullets gm in
  Random.ret gm.

(** *** The tick *)

Definition update_ship (gm : t F) (dt : F) : t F :=
  match ship gm with
  | Some s => set_ship gm (Some (Ship.update s dt))
  | None => gm
  end.

(** [for bullet in l[:]: bullet.update(dt); if not bullet.active: l.remove(bullet)]. *)
Definition update_bullets (l : list (Bullet.t F)) (dt : F) : list (Bullet.t F) :=
  filter (fun b => GameObject.active (Bullet.obj b))
         (map (fun b => Bullet.update b dt) l).

Definition update_asteroids (l : list (Asteroid.t F)) (dt : F)
  : list (Asteroid.t F) :=
  map (fun a => Asteroid.update a dt) l.

(** The loop over [self.alien_ships[:]]; the alien at hand is
    [alien_ships[i]] and is written back there, since the source updates the
    object in place. *)
Fixpoint update_aliens (todo : list (AlienShip.t F)) (i : nat) (dt : F)
         (gm : t F) : Random.Rand F (t F) :=
  match todo with
  | [] => Random.ret gm
  | alien :: todo' =>
      alien <- AlienShip.update alien dt ;;
      if negb (GameObject.active (AlienShip.obj alien)) then
        update_aliens todo' i dt
          (set_alien_ships gm (remove_at i (alien_ships gm)))
      else
        '(alien, shoot) <- AlienShip.should_shoot alien ;;
        let gm := set_alien_ships gm (replace_at i alien (alien_ships gm)) in
        match (if shoot then ship gm else None) with
        | Some s =>
            if GameObject.active (Ship.obj s) then
              (* Alien shoots at player *)
              angle <- AlienShip.get_shoot_angle alien
                         (GameObject.position (Ship.obj s)) ;;
              let p := GameObject.position (AlienShip.obj alien) in
              let alien_bullet := Bullet.init (Vector2.x p) (Vector2.y p) angle in
              update_aliens todo' (S i) dt
                (set_alien_bullets gm (alien_bullets gm ++ [alien_bullet]))
            else update_aliens todo' (S i) dt gm
        | None => update_aliens todo' (S i) dt gm
        end
  end.

Definition spawn_aliens (gm : t F) (dt : F) : Random.Rand F (t F) :=
  let gm := set_alien_spawn_timer gm (alien_spawn_timer gm + dt)%py in
  if (alien_spawn_timer gm >= alien_spawn_interval gm)%py then
    gm <- spawn_alien gm ;;
    Random.ret (set_alien_spawn_timer gm (of_Z 0))
  else Random.ret gm.

(** The tick up to and including [self.check_collisions()]. *)
Definition update_and_collide (dt : F) (gm : t F) : Random.Rand F (t F) :=
  (* Update ship *)
  let gm := update_ship gm dt in
  (* Update bullets *)
  let gm := set_bullets gm (update_bullets (bullets gm) dt) in
  (* Update asteroids *)
  let gm := set_asteroids gm (update_asteroids (asteroids gm) dt) in
  (* Update alien ships *)
  gm <- update_aliens (alien_ships gm) 0 dt gm ;;
  (* Update alien bullets *)
  let gm := set_alien_bullets gm (update_bullets (alien_bullets gm) dt) in
  (* Spawn aliens *)
  gm <- spawn_aliens gm dt ;;
  (* Check collisions *)
  check_collisions gm.

(** [if not self.asteroids and not self.alien_ships:]. *)
Definition level_complete (gm : t F) : bool :=
  match asteroids gm, alien_ships gm with
  | [], [] => true
  | _, _ => false
  end.

(** Check level completion. *)
Definition check_level_completion (fuel : nat) (gm : t F) (g : Random.Rng F)
  : option (t F * Random.Rng F) :=
  if level_complete gm then
    let gm := set_level gm (level gm + 1) in
    start_level fuel gm g
  else Some (gm, g).

(** Check game over: [if self.ship and not self.ship.active:]. *)
Definition check_game_over (gm : t F) : t F :=
  match ship gm with
  | Some s =>
      if negb (GameObject.active (Ship.obj s)) then
        let gm := set_lives gm (lives gm - 1) in
        if (lives gm <=? 0)%Z then set_state gm GAME_OVER
        else
          (* Respawn ship with full health *)
          set_ship gm (Some new_ship)
      else gm
  | None => gm
  end.

Definition is_playing (st : GameState) : bool :=
  match st with PLAYING => true | _ => false end.

(** [Game.update(dt)].  [None]: the placement loop of [start_level] used up
    [fuel]. *)
Definition update (fuel : nat) (dt : F) (gm : t F) (g : Random.Rng F)
  : option (t F * Random.Rng F) :=
  if negb (is_playing (state gm)) then Some (gm, g)
  else
    let (gm, g) := update_and_collide dt gm g in
    match check_level_completion fuel gm g with
    | None => None
    | Some (gm, g) => Some (check_game_over gm, g)
    end.

End Defs.

(** *** Input and the main loop

    The [Game] object as [handle_input] and [run] see it: the simulation
    state and [keys_pressed]. *)

Record session (F : Type) : Type := mkSession {
  game : t F;
  keys_pressed : KeysPressed
}.

Section Input.
Context {F : Type} {NF : Num F} {LF : Libm F}.

Definition shoot_bullet (gm : t F) : t F :=
  match ship gm with
  | Some s =>
      if GameObject.active (Ship.obj s) then
        (* Create bullet at ship position with ship rotation *)
        let p := GameObject.position (Ship.obj s) in
        let bullet := Bullet.init (Vector2.x p) (Vector2.y p)
                                  (GameObject.rotation (Ship.obj s)) in
        set_bullets gm (bullets gm ++ [bullet])
      else gm
  | None => gm
  end.

(** The branch [if keys[pygame.K_h]: if pygame.K_h not in self.keys_pressed:]. *)
Definition press_hyperspace (s : Ship.t F) (gm : t F) : Random.Rand F (t F) :=
  '(s, arrived) <- Ship.hyperspace s ;;
  let gm := set_ship gm (Some s) in
  if negb arrived then
    (* Ship was destroyed in hyperspace *)
    let gm := set_lives gm (lives gm - 1) in
    if (lives gm <=? 0)%Z then Random.ret (set_state gm GAME_OVER)
    else Random.ret (set_ship gm (Some new_ship))
  else Random.ret gm.

(** [handle_input]; [time] is [self.clock.get_time()], in milliseconds. *)
Definition handle_input (keys : Key -> bool) (time : Z) (a : session F)
  : Random.Rand F (session F) :=
  let gm := game a in
  let kp := keys_pressed a in
  match (if is_playing (state gm) then ship gm else None) with
  | Some s =>
      if GameObject.active (Ship.obj s) then
        let dt := (of_Z time / of_Z 1000)%py in
        (* Rotation *)
        let s := if (keys K_LEFT || keys K_a)%bool then Ship.rotate s (-1) dt else s in
        let s := if (keys K_RIGHT || keys K_d)%bool then Ship.rotate s 1 dt else s in
        (* Thrust *)
        let s := if (keys K_UP || keys K_w)%bool then Ship.thrust s dt else s in
        let gm := set_ship gm (Some s) in
        (* Shooting *)
        let gm := if (keys K_SPACE && negb (has_SPACE kp))%bool
                  then shoot_bullet gm else gm in
        let kp := mkKeysPressed (keys K_SPACE) (has_h kp) in
        (* Hyperspace (panic button) *)
        gm <- (if (keys K_h && negb (has_h kp))%bool
               then press_hyperspace s gm else Random.ret gm) ;;
        let kp := mkKeysPressed (has_SPACE kp) (keys K_h) in
        Random.ret (mkSession gm kp)
      else Random.ret a
  | None => Random.ret a
  end.

(** One event of the loop [for event in pygame.event.get():]; the boolean
    is [running]. *)
Definition handle_event (fuel : nat) (e : Event) (gm : t F) (running : bool)
           (g : Random.Rng F) : option (t F * bool * Random.Rng F) :=
  match e with
  | QUIT => Some (gm, false, g)
  | KEYDOWN K_ESCAPE => Some (gm, false, g)
  | KEYDOWN K_RETURN =>
      match state gm with
      | MENU | GAME_OVER =>
          match reset_game fuel gm g with
          | Some (gm, g) => Some (set_state gm PLAYING, running, g)
          | None => None
          end
      | _ => Some (gm, running, g)
      end
  | KEYDOWN K_p =>
      match state gm with
      | PLAYING => Some (set_state gm PAUSED, running, g)
      | PAUSED => Some (set_state gm PLAYING, running, g)
      | _ => Some (gm, running, g)
      end
  | _ => Some (gm, running, g)
  end.

Fixpoint handle_events (fuel : nat) (events : list Event) (gm : t F)
         (running : bool) (g : Random.Rng F)
  : option (t F * bool * Random.Rng F) :=
  match events with
  | [] => Some (gm, running, g)
  | e :: events' =>
      match handle_event fuel e gm running g with
      | Some (gm, running, g) => handle_events fuel events' gm running g
      | None => None
      end
  end.

(** The body of [while running:], without [self.draw()]: [ms] is what
    [self.clock.tick(FPS)] returns, [events] the event queue and [keys] the
    keys held down. *)
Definition frame (fuel : nat) (ms : Z) (events : list Event)
           (keys : Key -> bool) (a : session F) (g : Random.Rng F)
  : option (session F * bool * Random.Rng F) :=
  let dt := (of_Z ms / of_Z 1000)%py in
  (* Handle events *)
  match handle_events fuel events (game a) true g with
  | None => None
  | Some (gm, running, g) =>
      (* Handle continuous input *)
      let (a, g) := handle_input keys ms (mkSession gm (keys_pressed a)) g in
      (* Update game *)
      match update fuel dt (game a) g with
      | None => None
      | Some (gm, g) => Some (mkSession gm (keys_pressed a), running, g)
      end
  end.

(** [run] on a finite script of frames: the loop ends after the frame in
    which [running] was cleared. *)
Fixpoint run (fuel : nat) (script : list (Z * list Event * (Key -> bool)))
         (a : session F) (g : Random.Rng F)
  : option (session F * Random.Rng F) :=
  match script with
  | [] => Some (a, g)
  | (ms, events, keys) :: script' =>
      match frame fuel ms events keys a g with
      | None => None
      | Some (a, running, g) =>
          if running then run fuel script' a g else Some (a, g)
      end
  end.

End Input.
End Game.

(** ** A math library to run the definitions with

    Truncated series in binary64, within a few units in the last place of
    the platform's [sin], [cos] and [atan2] on the angles the game uses.
    Nothing proved below depends on it: the theorems hold for every
    instance of [Libm]; it serves to evaluate the definitions. *)

Module Series.

Local Open Scope float_scope.

(** [sum_{k < n} t_k] where [t_0 = t] and [t_{k+1} = t_k * step k]. *)
Fixpoint series (n : nat) (k : float) (t acc : float)
         (step : float -> float) : float :=
  match n with
  | O => acc
  | S n' => series n' (k + 1) (t * step k) (acc + t) step
  end.

Definition sin (x : float) : float :=
  series 30 0 x 0 (fun k => - (x * x) / ((2 * k + 2) * (2 * k + 3))).

Definition cos (x : float) : float :=
  series 30 0 1 0 (fun k => - (x * x) / ((2 * k + 1) * (2 * k + 2))).

(** [atan z] for [|z| <= 1]: the argument is halved twice by
    [atan z = 2 atan (z / (1 + sqrt (1 + z^2)))], then summed. *)
Definition atan_small (z : float) : float :=
  let half z := z / (1 + PrimFloat.sqrt (1 + z * z)) in
  let w := half (half z) in
  4 * series 30 0 w 0 (fun k => - (w * w) * (2 * k + 1) / (2 * k + 3)).

Definition atan (z : float) : float :=
  if PrimFloat.abs z <=? 1 then atan_small z
  else if 0 <? z then B64.pi / 2 - atan_small (1 / z)
  else - (B64.pi / 2) - atan_small (1 / z).

Definition atan2 (y x : float) : float :=
  if 0 <? x then atan (y / x)
  else if x <? 0 then
    if 0 <=? y then atan (y / x) + B64.pi else atan (y / x) - B64.pi
  else if 0 <? y then B64.pi / 2
  else if y <? 0 then - (B64.pi / 2)
  else 0.

End Series.

#[export] Instance series_libm : Libm float := {|
  sin := Series.sin;
  cos := Series.cos;
  atan2 := Series.atan2
|}.
(** * The vocabulary of the properties

    Predicates and data the statements below are written with: frames (what
    an operation leaves alone), the oracle seen as a stream, the
    post-conditions of the loops, and a few concrete scenes on which the
    definitions are evaluated. *)

Unset Implicit Arguments.

(** ** Ships *)

(** The fields [take_hit] never writes. *)
Definition same_hull {F} (s s' : Ship.t F) : Prop :=
  Ship.obj s' = Ship.obj s /\
  Ship.fuel s' = Ship.fuel s /\
  Ship.hyperspace_cooldown s' = Ship.hyperspace_cooldown s /\
  Ship.max_health s' = Ship.max_health s /\
  Ship.shape s' = Ship.shape s.

(** What a hit may change of a ship: its health, its invulnerability and
    flash timers with the flash intensity, its damage type and its [active]
    flag.  Every other field is as before. *)
Definition hit_only {F} (s s' : Ship.t F) : Prop :=
  GameObject.position (Ship.obj s') = GameObject.position (Ship.obj s) /\
  GameObject.velocity (Ship.obj s') = GameObject.velocity (Ship.obj s) /\
  GameObject.rotation (Ship.obj s') = GameObject.rotation (Ship.obj s) /\
  GameObject.radius (Ship.obj s') = GameObject.radius (Ship.obj s) /\
  Ship.thrust_power s' = Ship.thrust_power s /\
  Ship.rotation_speed s' = Ship.rotation_speed s /\
  Ship.max_speed s' = Ship.max_speed s /\
  Ship.fuel s' = Ship.fuel s /\
  Ship.max_fuel s' = Ship.max_fuel s /\
  Ship.hyperspace_cooldown s' = Ship.hyperspace_cooldown s /\
  Ship.max_health s' = Ship.max_health s /\
  Ship.shape s' = Ship.shape s.

(** The fields a hit that lands writes, for damage [damage] of type [dty]
    to a ship that was active: one by one what [take_hit] and its caller
    assign. *)
Definition hit_landed {F} {NF : Num F} (s s' : Ship.t F) (dty : DamageType)
           (damage : Z) : Prop :=
  Ship.health s' = (Ship.health s - damage)%Z /\
  Ship.invulnerable_time s' = of_Z 2 /\
  Ship.hit_flash_time s' = of_Z 1 /\
  Ship.flash_intensity s' = of_Z 1 /\
  Ship.damage_type s' = Some dty /\
  GameObject.active (Ship.obj s')
  = (GameObject.active (Ship.obj s) && negb (Ship.health s - damage <=? 0)%Z)%bool.

(** A timer that has not gone below zero: [t >= 0]. *)
Definition not_negative {F} {NF : Num F} (t : F) : Prop :=
  (t >= of_Z 0)%py = true.

(** [n] ticks of [Ship.update] with the same [dt]. *)
Fixpoint ship_ticks {F} {NF : Num F} (n : nat) (dt : F) (s : Ship.t F)
  : Ship.t F :=
  match n with
  | O => s
  | S n' => ship_ticks n' dt (Ship.update s dt)
  end.

(** ** The oracle as a stream *)

(** [skip n g]: the oracle [g] after [n] more draws. *)
Definition skip {F} (n : nat) (g : Random.Rng F) : Random.Rng F :=
  Random.mkRng (Random.raw_int g) (Random.raw_float g) (n + Random.drawn g).

(** The [n]-th raw float after the draws made so far. *)
Definition coming {F} (g : Random.Rng F) (n : nat) : F :=
  Random.raw_float g (n + Random.drawn g).

(** A computation that only moves the oracle forward. *)
Definition advances {F A} (m : Random.Rand F A) : Prop :=
  forall g, exists n, snd (m g) = skip n g.

(** The draw of [random.random()] that decides the self-destruct of
    [hyperspace]: the third draw of the call, after the two of the
    teleport. *)
Definition malfunction_draw {F} {NF : Num F} (g : Random.Rng F) : F :=
  fst (Random.random (skip 2 g)).

(** ** Asteroids *)

(** What [split] promises of a child [c] of [a] whose velocity was drawn as
    [speed] and [angle]: the velocity is written out by its components,
    [sin(radians(angle)) * speed] and [-cos(radians(angle)) * speed]. *)
Definition child_of {F} {NF : Num F} {LF : Libm F} (a : Asteroid.t F)
           (speed angle : F) (c : Asteroid.t F) : Prop :=
  Asteroid.size c = (Asteroid.size a - 1)%Z /\
  GameObject.position (Asteroid.obj c) = GameObject.position (Asteroid.obj a) /\
  Vector2.x (GameObject.velocity (Asteroid.obj c))
  = (sin (radians angle) * speed)%py /\
  Vector2.y (GameObject.velocity (Asteroid.obj c))
  = (- cos (radians angle) * speed)%py /\
  GameObject.radius (Asteroid.obj c) = (10 + (Asteroid.size a - 1) * 8)%Z /\
  GameObject.active (Asteroid.obj c) = true.

(** A split whose first child is slower than 40: a medium asteroid, and an
    oracle under which [split] makes two children and draws speed 40.0
    ([random()] = 0.0) and angle 123.75 ([random()] = 0.34375) for the
    first. *)
Module Slow.

Definition oracle : Random.Rng float :=
  Random.mkRng (fun _ => 0%Z)
    (fun n => if (n =? 12)%nat then 40%float
              else if (n =? 13)%nat then 123.75%float else 0%float)
    0.

Definition rock : Asteroid.t float :=
  fst (Asteroid.init (LF := series_libm) 400%float 300%float 2 oracle).

End Slow.

(** ** Collisions *)

(** [first_collision] finds the first object that collides: the loop
    breaks there and tests nothing behind it. *)
Definition first_hit {F} {NF : Num F} {A} (part : A -> GameObject.t F)
           (o : GameObject.t F) (xs : list A) (j : nat) (x : A) : Prop :=
  nth_error xs j = Some x /\
  GameObject.collides_with o (part x) = true /\
  forall k y, (k < j)%nat -> nth_error xs k = Some y ->
              GameObject.collides_with o (part y) = false.

Section BulletPasses.
Context {F : Type} {NF : Num F} {LF : Libm F}.

(** What a bullet hit leaves alone, apart from the list of its victim. *)
Definition hit_frame (gm gm' : Game.t F) : Prop :=
  Game.state gm' = Game.state gm /\
  Game.lives gm' = Game.lives gm /\
  Game.level gm' = Game.level gm /\
  Game.ship gm' = Game.ship gm /\
  Game.alien_bullets gm' = Game.alien_bullets gm /\
  Game.alien_spawn_timer gm' = Game.alien_spawn_timer gm.

(** The bullet [bullets[i]] against the asteroids. *)
Definition asteroid_pass_post (gm : Game.t F) (g : Random.Rng F) (i : nat)
           (bullet : Bullet.t F) : Prop :=
  match first_collision (@Asteroid.obj F) (Bullet.obj bullet)
          (Game.asteroids gm) with
  | None =>
      (* no asteroid is hit: nothing changes, the next bullet has the
         next index *)
      Game.bullet_vs_asteroids bullet i gm g = (gm, S i, g)
  | Some (j, asteroid) =>
      (* first match wins *)
      first_hit (@Asteroid.obj F) (Bullet.obj bullet) (Game.asteroids gm)
                j asteroid /\
      let '(gm', bullet', asteroid', g') :=
        Game.asteroid_hit i j bullet asteroid gm g in
      Game.bullet_vs_asteroids bullet i gm g = (gm', i, g') /\
      (* both are deactivated *)
      GameObject.active (Bullet.obj bullet') = false /\
      GameObject.active (Asteroid.obj asteroid') = false /\
      (* the score *)
      Game.score gm'
      = (Game.score gm + Game.score_values (Asteroid.size asteroid))%Z /\
      (* one bullet is removed *)
      Game.bullets gm' = remove_at i (Game.bullets gm) /\
      S (length (Game.bullets gm')) = length (Game.bullets gm) /\
      (* one asteroid is removed and the results of its split are appended *)
      Game.asteroids gm'
      = remove_at j (Game.asteroids gm) ++ fst (Asteroid.split asteroid' g) /\
      g' = snd (Asteroid.split asteroid' g) /\
      Game.alien_ships gm' = Game.alien_ships gm /\
      hit_frame gm gm'
  end.

(** The bullet [bullets[i]] against the alien ships. *)
Definition alien_pass_post (gm : Game.t F) (i : nat) (bullet : Bullet.t F)
  : Prop :=
  match first_collision (@AlienShip.obj F) (Bullet.obj bullet)
          (Game.alien_ships gm) with
  | None => Game.bullet_vs_aliens bullet i gm = (gm, S i)
  | Some (j, alien) =>
      first_hit (@AlienShip.obj F) (Bullet.obj bullet) (Game.alien_ships gm)
                j alien /\
      let '(gm', bullet', alien') := Game.alien_hit i j bullet alien gm in
      Game.bullet_vs_aliens bullet i gm = (gm', i) /\
      GameObject.active (Bullet.obj bullet') = false /\
      GameObject.active (AlienShip.obj alien') = false /\
      Game.score gm' = (Game.score gm + 500)%Z /\
      Game.bullets gm' = remove_at i (Game.bullets gm) /\
      S (length (Game.bullets gm')) = length (Game.bullets gm) /\
      Game.alien_ships gm' = remove_at j (Game.alien_ships gm) /\
      S (length (Game.alien_ships gm')) = length (Game.alien_ships gm) /\
      Game.asteroids gm' = Game.asteroids gm /\
      hit_frame gm gm'
  end.

End BulletPasses.

(** *** The two bullet loops as a whole

    What the specification says of a loop over the player's bullets, written
    without the functions of the program: the bullets are taken in the order
    of the list, each against the objects as the bullets before it have left
    them. *)

(** [o] collides with none of [xs]. *)
Definition misses {F} {NF : Num F} {A} (part : A -> GameObject.t F)
           (o : GameObject.t F) (xs : list A) : Prop :=
  forall x, In x xs -> GameObject.collides_with o (part x) = false.

(** First match wins: [x] is the first object of [xs] that [o] collides
    with; [before] and [after] are the objects in front of it and behind
    it. *)
Definition first_match {F} {NF : Num F} {A} (part : A -> GameObject.t F)
           (o : GameObject.t F) (xs before : list A) (x : A) (after : list A)
  : Prop :=
  xs = before ++ x :: after /\
  misses part o before /\
  GameObject.collides_with o (part x) = true.

(** The score of an asteroid of size [size]: 100, 50 or 20 for size 1, 2
    or 3 (and 20 for any other size). *)
Definition points_for (size points : Z) : Prop :=
  (size = 1 /\ points = 100)%Z \/ (size = 2 /\ points = 50)%Z \/
  (size = 3 /\ points = 20)%Z \/
  (size <> 1 /\ size <> 2 /\ size <> 3 /\ points = 20)%Z.

Section Passes.
Context {F : Type} {NF : Num F} {LF : Libm F}.

(** [asteroid_pass bullets rocks score g kept rocks' score' g']: the loop
    over [bullets] turns the asteroids [rocks], the score and the oracle
    into [rocks'], [score'] and [g'], and [kept] are the bullets left.  A
    bullet that collides with no asteroid is kept and changes nothing.  A
    bullet that collides is removed together with the first asteroid it
    collides with, and with no other: the asteroid is deactivated, its
    points are added to the score, and its [split()] is appended to the
    asteroids. *)
Inductive asteroid_pass
  : list (Bullet.t F) -> list (Asteroid.t F) -> Z -> Random.Rng F ->
    list (Bullet.t F) -> list (Asteroid.t F) -> Z -> Random.Rng F -> Prop :=
| asteroid_pass_done rocks score g :
    asteroid_pass [] rocks score g [] rocks score g
| asteroid_pass_miss bullet bullets rocks score g kept rocks' score' g' :
    misses (@Asteroid.obj F) (Bullet.obj bullet) rocks ->
    asteroid_pass bullets rocks score g kept rocks' score' g' ->
    asteroid_pass (bullet :: bullets) rocks score g
                  (bullet :: kept) rocks' score' g'
| asteroid_pass_hit bullet bullets rocks score g before rock after points
                    kept rocks' score' g' :
    first_match (@Asteroid.obj F) (Bullet.obj bullet) rocks before rock after ->
    points_for (Asteroid.size rock) points ->
    asteroid_pass bullets
      (before ++ after
       ++ fst (Asteroid.split (Asteroid.set_active rock false) g))
      (score + points)
      (snd (Asteroid.split (Asteroid.set_active rock false) g))
      kept rocks' score' g' ->
    asteroid_pass (bullet :: bullets) rocks score g kept rocks' score' g'.

(** The same for the alien ships: a bullet that collides is removed
    together with the first alien ship it collides with, and 500 is added to
    the score. *)
Inductive alien_pass
  : list (Bullet.t F) -> list (AlienShip.t F) -> Z ->
    list (Bullet.t F) -> list (AlienShip.t F) -> Z -> Prop :=
| alien_pass_done aliens score :
    alien_pass [] aliens score [] aliens score
| alien_pass_miss bullet bullets aliens score kept aliens' score' :
    misses (@AlienShip.obj F) (Bullet.obj bullet) aliens ->
    alien_pass bullets aliens score kept aliens' score' ->
    alien_pass (bullet :: bullets) aliens score (bullet :: kept) aliens' score'
| alien_pass_hit bullet bullets aliens score before alien after
                 kept aliens' score' :
    first_match (@AlienShip.obj F) (Bullet.obj bullet) aliens
                before alien after ->
    alien_pass bullets (before ++ after) (score + 500) kept aliens' score' ->
    alien_pass (bullet :: bullets) aliens score kept aliens' score'.

(** What the ship passes, which come after the bullet loops, may do to an
    alien ship: deactivate it in place. *)
Definition rammed (a a' : AlienShip.t F) : Prop :=
  a' = a \/ a' = AlienShip.set_active a false.

(** [check_collisions] as far as the player's bullets go: the loop over
    the asteroids, then the loop over the alien ships on the bullets the
    first loop has left. *)
Definition bullet_loops (gm : Game.t F) (g : Random.Rng F)
           (gm' : Game.t F) (g' : Random.Rng F) : Prop :=
  exists kept rocks score aliens,
    asteroid_pass (Game.bullets gm) (Game.asteroids gm) (Game.score gm) g
                  kept rocks score g' /\
    alien_pass kept (Game.alien_ships gm) score
               (Game.bullets gm') aliens (Game.score gm') /\
    Game.asteroids gm' = rocks /\
    Forall2 rammed aliens (Game.alien_ships gm').

End Passes.

(** ** The game *)

(** What no entity update and no collision writes: the state of the state
    machine, the lives and the level. *)
Definition counters {F} (gm : Game.t F) : GameState * Z * Z :=
  (Game.state gm, Game.lives gm, Game.level gm).

(** Asteroids or alien ships are left. *)
Definition enemies_remain {F} (gm : Game.t F) : Prop :=
  Game.asteroids gm <> [] \/ Game.alien_ships gm <> [].

(** What life-loss handling leaves alone. *)
Definition life_loss_frame {F} (gm gm' : Game.t F) : Prop :=
  Game.asteroids gm' = Game.asteroids gm /\
  Game.bullets gm' = Game.bullets gm /\
  Game.alien_bullets gm' = Game.alien_bullets gm /\
  Game.alien_ships gm' = Game.alien_ships gm /\
  Game.score gm' = Game.score gm /\
  Game.level gm' = Game.level gm.

(** ** The placement loop of [start_level] *)

(** The test of the placement loop on the point [(x, y)], against the
    spawn point [(400, 300)]: [distance > 100]. *)
Definition far_test {F} {NF : Num F} (x y : Z) : bool :=
  let dx := (of_Z x - of_Z 400)%py in
  let dy := (of_Z y - of_Z 300)%py in
  (sqrt (dx * dx + dy * dy) > of_Z 100)%py.

(** The same on the integers: more than 100 units from [(400, 300)]. *)
Definition far (x y : Z) : Prop :=
  (100 * 100 < (x - 400) * (x - 400) + (y - 300) * (y - 300))%Z.

Definition farb (x y : Z) : bool :=
  (100 * 100 <? (x - 400) * (x - 400) + (y - 300) * (y - 300))%Z.

(** [range a n]: the integers [a, a + 1, ..., a + n - 1]. *)
Definition range (a : Z) (n : nat) : list Z :=
  map (fun i => (a + Z.of_nat i)%Z) (seq 0 n).

(** On every point the loop can draw, binary64 decides the test exactly.
    The table of all points is checked by evaluation. *)
Definition far_test_at (hundred dx dy : float) : bool :=
  (sqrt (dx * dx + dy * dy) > hundred)%py.

Definition far_test_table (hundred : float) (dxs dys : list (Z * float))
  : bool :=
  forallb (fun p : Z * float =>
    forallb (fun q : Z * float =>
      Bool.eqb (far_test_at hundred (snd p) (snd q)) (farb (fst p) (fst q)))
            dys) dxs.

Definition offsets (centre : Z) (a : Z) (n : nat) : list (Z * float) :=
  map (fun x => (x, (of_Z x - of_Z centre)%py)) (range a n).

(** The [k]-th point the placement loop draws from the oracle [g]. *)
Definition candidate (g : Random.Rng float) (k : nat) : Z * Z :=
  ((50 + Random.raw_int g (2 * k + Random.drawn g) mod 701)%Z,
   (50 + Random.raw_int g (2 * k + 1 + Random.drawn g) mod 501)%Z).

Definition far_point (p : Z * Z) : Prop := far (fst p) (snd p).

(** An oracle under which the loop ends: from every point of the stream
    on, some later draw is far enough from the spawn point. *)
Definition fair (g : Random.Rng float) : Prop :=
  forall n, exists k, far_point (candidate (skip n g) k).

(** The asteroid [Asteroid(x, y, 3)] made from the oracle [g]. *)
Definition large_asteroid {LF : Libm float} (p : Z * Z)
           (g : Random.Rng float) : Asteroid.t float * Random.Rng float :=
  Asteroid.init (of_Z (fst p)) (of_Z (snd p)) 3 g.

(** What [start_level] promises of each asteroid: large, and at a drawn
    point of [[50, 750] x [50, 550]] more than 100 units from the spawn
    point [(400, 300)]. *)
Definition placed_far (a : Asteroid.t float) : Prop :=
  Asteroid.size a = 3%Z /\
  GameObject.radius (Asteroid.obj a) = 34%Z /\
  GameObject.active (Asteroid.obj a) = true /\
  exists x y : Z,
    (50 <= x <= SCREEN_WIDTH - 50)%Z /\ (50 <= y <= SCREEN_HEIGHT - 50)%Z /\
    far x y /\
    GameObject.position (Asteroid.obj a) = Vector2.mk (of_Z x) (of_Z y).

(** The state [start_level] leaves, for the state [gm] it is called in. *)
Definition level_started (gm gm' : Game.t float) : Prop :=
  Game.ship gm' = Some Game.new_ship /\
  Game.bullets gm' = [] /\
  Game.alien_bullets gm' = [] /\
  Game.alien_ships gm' = [] /\
  Z.of_nat (length (Game.asteroids gm')) = (4 + Game.level gm)%Z /\
  Forall placed_far (Game.asteroids gm') /\
  Game.alien_spawn_timer gm' = 0%float /\
  Game.level gm' = Game.level gm /\
  Game.score gm' = Game.score gm /\
  Game.lives gm' = Game.lives gm /\
  Game.state gm' = Game.state gm.

(** The rejection sampling of [start_level], read off the oracle: from the
    oracle [g], the asteroids [l] are placed one after the other and the
    oracle is left at [g'].  Each asteroid is at the first point drawn that
    is far from the spawn point (the points drawn before it are not), and
    is the [Asteroid(x, y, 3)] made from the draws that follow; the next
    asteroid is sampled from the draws after those. *)
Inductive sampled {LF : Libm float}
  : Random.Rng float -> list (Asteroid.t float) -> Random.Rng float -> Prop :=
| sampled_done g : sampled g [] g
| sampled_next g j a l g' :
    far_point (candidate g j) ->
    (forall i, (i < j)%nat -> ~ far_point (candidate g i)) ->
    GameObject.position (Asteroid.obj a)
    = Vector2.mk (of_Z (fst (candidate g j))) (of_Z (snd (candidate g j))) ->
    a = fst (Asteroid.init (of_Z (fst (candidate g j)))
                           (of_Z (snd (candidate g j))) 3
                           (skip (2 * j + 2) g)) ->
    sampled (skip (2 * j + 13) g) l g' ->
    sampled g (a :: l) g'.

(** ** Scenes to run the definitions on *)

Module Demo.

Definition oracle : Random.Rng float :=
  Random.mkRng (fun n => Z.of_nat n) (fun n => B64.of_Z (Z.of_nat (37 * n))) 0.

Definition rock (x y : float) (size : Z) : Asteroid.t float :=
  fst (Asteroid.init (LF := series_libm) x y size oracle).

Definition saucer (x y : float) : AlienShip.t float :=
  fst (AlienShip.init (LF := series_libm) x y oracle).

Definition shot (x y : float) : Bullet.t float :=
  Bullet.init (LF := series_libm) x y 0%float.

(** Three bullets, each on an asteroid of its own, and an alien ship under
    the first bullet. *)
Definition scene : Game.t float :=
  Game.mk PLAYING 0 3 1 (Some Game.new_ship)
    [shot 100 100; shot 300 100; shot 500 100]%float
    [rock 700 500 2; rock 100 100 3; rock 300 100 2; rock 500 100 1]%float
    [saucer 700 300; saucer 105 100]%float
    []
    0%float 20%float.

End Demo.

Module DemoLevel.

(** An oracle whose every integer draw is 0: each point drawn is
    [(50, 50)]. *)
Definition steady : Random.Rng float :=
  Random.mkRng (fun _ => 0%Z) (fun _ => 0%float) 0.

(** An oracle whose first draws fall near the centre of the screen. *)
Definition central : Random.Rng float :=
  Random.mkRng (fun n => (340 + Z.of_nat n)%Z) (fun _ => 0%float) 0.

(** The start of level 2. *)
Definition level2 : Game.t float :=
  Game.mk PLAYING 0 3 2 None [] [] [] [] 0%float 20%float.

End DemoLevel.

Module Wreck.

(** A ship lost on the tick that clears the level: a ship with one point
    of health and no invulnerability ... *)
Definition ship : Ship.t float :=
  Ship.set_health
    (Ship.set_invulnerable_time Game.new_ship 0%float) 1.

(** ... an alien bullet on it, and the last asteroid, a small one, under a
    player bullet. *)
Definition scene : Game.t float :=
  Game.mk PLAYING 0 3 1 (Some ship)
    [Demo.shot 100 100]%float
    [Demo.rock 100 100 1]%float
    []
    [Demo.shot 400 300]%float
    0%float 20%float.

End Wreck.

(** * The vocabulary of the further properties

    Predicates and scenes for the properties of the bullets, the alien
    ships, the books of the collision passes, the counters of a tick, the
    input and the main loop. *)


(** ** Bullets *)

(** A bullet that is in flight: active, with time left. *)
Definition in_flight {F} {NF : Num F} (b : Bullet.t F) : Prop :=
  GameObject.active (Bullet.obj b) = true /\
  (Bullet.lifetime b <= of_Z 0)%py = false.


(** ** The books of a collision pass *)

(** What the two bullet passes of [check_collisions] do to the lists and
    the score when [k1] bullets hit an asteroid and [k2] an alien ship:
    each hit removes its bullet; an asteroid hit scores between 20 and 100,
    removes the asteroid and adds at most three children; an alien hit
    scores 500 and removes the alien. *)
Definition hits_account {F} (gm gm' : Game.t F) (k1 k2 : nat) : Prop :=
  (length (Game.bullets gm') + k1 + k2 = length (Game.bullets gm))%nat /\
  (Game.score gm + 20 * Z.of_nat k1 + 500 * Z.of_nat k2 <= Game.score gm'
   <= Game.score gm + 100 * Z.of_nat k1 + 500 * Z.of_nat k2)%Z /\
  (length (Game.asteroids gm) <= length (Game.asteroids gm') + k1
   <= length (Game.asteroids gm) + 3 * k1)%nat /\
  (length (Game.alien_ships gm') + k2 = length (Game.alien_ships gm))%nat.

(** The damage the three ship passes deal, in the order of the passes. *)
Definition ship_damage : list (DamageType * Z) :=
  [(ASTEROID, 1%Z); (ALIEN_SHIP, 2%Z); (ALIEN_BULLET, 1%Z)].


(** ** Alien ships *)

(** A point on the border of the screen, corners and the right and bottom
    edges included. *)
Definition on_edge (x y : Z) : Prop :=
  (0 <= x <= SCREEN_WIDTH)%Z /\ (0 <= y <= SCREEN_HEIGHT)%Z /\
  (x = 0 \/ x = SCREEN_WIDTH \/ y = 0 \/ y = SCREEN_HEIGHT)%Z.

(** What [spawn_alien] and the alien loop leave alone. *)
Definition alien_frame {F} (gm gm' : Game.t F) : Prop :=
  Game.state gm' = Game.state gm /\
  Game.score gm' = Game.score gm /\
  Game.lives gm' = Game.lives gm /\
  Game.level gm' = Game.level gm /\
  Game.ship gm' = Game.ship gm /\
  Game.bullets gm' = Game.bullets gm /\
  Game.asteroids gm' = Game.asteroids gm /\
  Game.alien_spawn_interval gm' = Game.alien_spawn_interval gm.

(** An alien ship as [AlienShip.__init__] leaves it at [(x, y)]. *)
Definition fresh_alien {F} {NF : Num F} (x y : Z) (a : AlienShip.t F)
  : Prop :=
  GameObject.position (AlienShip.obj a) = Vector2.mk (of_Z x) (of_Z y) /\
  GameObject.active (AlienShip.obj a) = true /\
  GameObject.radius (AlienShip.obj a) = 12%Z /\
  AlienShip.shoot_timer a = of_Z 0 /\
  AlienShip.direction_timer a = of_Z 0.

(** The player's ship is there and active: the condition
    [self.ship and self.ship.active]. *)
Definition ship_active {F} (gm : Game.t F) : bool :=
  match Game.ship gm with
  | Some s => GameObject.active (Ship.obj s)
  | None => false
  end.

(** A bullet as [Bullet.__init__] leaves it. *)
Definition fresh_bullet {F} {NF : Num F} (b : Bullet.t F) : Prop :=
  GameObject.active (Bullet.obj b) = true /\
  GameObject.radius (Bullet.obj b) = 2%Z /\
  Bullet.lifetime b = of_Z 2.


(** ** The counters over a tick *)

(** What a tick may do to the score, the level, the lives and the state:
    the score does not go down; the level is kept or goes up by one; the
    lives and the state are kept, or one life is lost on a tick played in
    [PLAYING] and the game is over exactly when none is left. *)
Definition tick_counters {F} (gm gm' : Game.t F) : Prop :=
  (Game.score gm <= Game.score gm')%Z /\
  (Game.level gm' = Game.level gm \/ Game.level gm' = (Game.level gm + 1)%Z) /\
  ((Game.state gm' = Game.state gm /\ Game.lives gm' = Game.lives gm) \/
   (Game.state gm = PLAYING /\ Game.lives gm' = (Game.lives gm - 1)%Z /\
    Game.state gm'
    = if (Game.lives gm - 1 <=? 0)%Z then GAME_OVER else PLAYING)).

(** The lives agree with the state: at least one while the game is played
    or paused, none left when it is over. *)
Definition lives_ok {F} (gm : Game.t F) : Prop :=
  match Game.state gm with
  | PLAYING | PAUSED => (1 <= Game.lives gm)%Z
  | GAME_OVER => (Game.lives gm <= 0)%Z
  | MENU => True
  end.

(** An asteroid of one of the three sizes, with the radius of its size. *)
Definition well_sized {F} (a : Asteroid.t F) : Prop :=
  (1 <= Asteroid.size a <= 3)%Z /\
  GameObject.radius (Asteroid.obj a) = (10 + Asteroid.size a * 8)%Z.


(** ** Input and the main loop *)

(** The keyboard with the key [k] held down and no other. *)
Definition only_key (k : Key) : Key -> bool :=
  fun k' =>
    match k, k' with
    | K_LEFT, K_LEFT | K_a, K_a | K_RIGHT, K_RIGHT | K_d, K_d
    | K_UP, K_UP | K_w, K_w | K_SPACE, K_SPACE | K_h, K_h
    | K_ESCAPE, K_ESCAPE | K_RETURN, K_RETURN | K_p, K_p
    | K_other, K_other => true
    | _, _ => false
    end.

(** The guard of [handle_input]:
    [self.state == GameState.PLAYING and self.ship and self.ship.active]. *)
Definition input_live {F} (a : Game.session F) : bool :=
  (Game.is_playing (Game.state (Game.game a)) && ship_active (Game.game a))%bool.

(** A frame without events: what the clock reports and the keys held. *)
Definition quiet_frame (q : Z * (Key -> bool)) : Z * list Event * (Key -> bool) :=
  (fst q, [], snd q).

Module DemoInput.

(** The scene of [Demo], no key recorded as pressed. *)
Definition session : Game.session float :=
  Game.mkSession Demo.scene (mkKeysPressed false false).

(** A fresh ship alone on the screen, no key recorded as pressed. *)
Definition alone : Game.session float :=
  Game.mkSession
    (Game.mk PLAYING 0 3 1 (Some Game.new_ship) [] [] [] [] 0%float 20%float)
    (mkKeysPressed false false).

End DemoInput.


(** A ship lost while an asteroid is left: the wounded ship of [Wreck], an
    alien bullet on it, and a small asteroid far away. *)
Module Crash.

Definition scene : Game.t float :=
  Game.mk PLAYING 0 3 1 (Some Wreck.ship)
    []
    [Demo.rock 100 100 1]%float
    []
    [Demo.shot 400 300]%float
    0%float 20%float.

(** The scene after the updates and the collisions of one tick. *)
Definition collided : Game.t float :=
  fst (Game.update_and_collide (LF := series_libm) (lit 16 1000) scene
         Demo.oracle).

(** The ship at that point. *)
Definition wreck : Ship.t float :=
  match Game.ship collided with
  | Some s => s
  | None => Wreck.ship
  end.

End Crash.

(** * Properties *)

(** ** The wrap of [GameObject.update] *)

(** Every entity moves by its [GameObject] part: the subclasses' [update]
    call [super().update(dt)] and leave the position alone afterwards. *)
Lemma ship_update_position {F} {NF : Num F} (s : Ship.t F) (dt : F) :
  GameObject.position (Ship.obj (Ship.update s dt))
  = GameObject.position (GameObject.update (Ship.obj s) dt).
Proof.
  unfold Ship.update; cbn.
  repeat match goal with |- context [if ?b then _ else _] => destruct b end;
    reflexivity.
Qed.

Lemma bullet_update_position {F} {NF : Num F} {LF : Libm F}
      (b : Bullet.t F) (dt : F) :
  GameObject.position (Bullet.obj (Bullet.update b dt))
  = GameObject.position (GameObject.update (Bullet.obj b) dt).
Proof.
  unfold Bullet.update; cbn.
  match goal with |- context [if ?b then _ else _] => destruct b end;
    reflexivity.
Qed.

Lemma asteroid_update_position {F} {NF : Num F} {LF : Libm F}
      (a : Asteroid.t F) (dt : F) :
  GameObject.position (Asteroid.obj (Asteroid.update a dt))
  = GameObject.position (GameObject.update (Asteroid.obj a) dt).
Proof. reflexivity. Qed.

Lemma alien_update_position {F} {NF : Num F} {LF : Libm F}
      (a : AlienShip.t F) (dt : F) (g : Random.Rng F) :
  GameObject.position (AlienShip.obj (fst (AlienShip.update a dt g)))
  = GameObject.position (GameObject.update (AlienShip.obj a) dt).
Proof.
  unfold AlienShip.update.
  match goal with |- context [if ?b then _ else _] => destruct b end;
    reflexivity.
Qed.

(** A wrap in the negative direction: from 10 with velocity -20 the object
    reappears at 790, not at -10 and not at 10; no rounding is involved. *)
Example update_wraps_negative_binary64 :
  let o := GameObject.set_velocity (GameObject.init 10 300)%float
             (Vector2.mk (-20) 0)%float in
  Vector2.x (GameObject.position (GameObject.update o 1%float)) = 790%float.
Proof. vm_compute. reflexivity. Qed.

(** C1, where the code departs from it.  In binary64 the wrap of a negative
    coordinate adds the width to a negative remainder, and that sum is
    rounded: a ship at x = 0 with velocity -2^-70 is, after
    [update(0.016)], at x = 800.0 exactly, which is not below the width.
    (Every negative coordinate of magnitude below 2^-44 wraps to 800.0; the
    other entities move by the same [GameObject.update].) *)
Theorem ship_update_reaches_screen_width :
  let ship := Ship.init 0%float 300%float in
  let ship := Ship.set_obj ship
                (GameObject.set_velocity (Ship.obj ship)
                   (Vector2.mk (-0x1p-70) 0)%float) in
  let dt : float := lit 16 1000 in
  let p := GameObject.position (Ship.obj (Ship.update ship dt)) in
  Vector2.x p = 800%float /\
  (Vector2.x p < of_Z SCREEN_WIDTH)%py = false /\
  Vector2.x (GameObject.position (GameObject.update (Ship.obj ship) dt))
  = 800%float.
Proof. vm_compute. repeat split. Qed.

(** ** [Ship.take_hit] *)

(** C2.  [take_hit] is a no-op exactly when [invulnerable_time > 0]: then it
    returns the ship as it is and [False].  Otherwise it subtracts [damage]
    from [health], sets [invulnerable_time] to 2.0, [hit_flash_time] and
    [flash_intensity] to 1.0, records the damage type, and returns whether
    the new health is [<= 0]. *)
Theorem take_hit_spec (s : Ship.t float) (dty : DamageType) (damage : Z) :
  let r := Ship.take_hit s dty damage in
  (r = (s, false) <-> (Ship.invulnerable_time s > of_Z 0)%py = true) /\
  (fst r = s <-> (Ship.invulnerable_time s > of_Z 0)%py = true) /\
  if (Ship.invulnerable_time s > of_Z 0)%py then r = (s, false)
  else
    Ship.health (fst r) = (Ship.health s - damage)%Z /\
    Ship.invulnerable_time (fst r) = 2%float /\
    Ship.hit_flash_time (fst r) = 1%float /\
    Ship.flash_intensity (fst r) = 1%float /\
    Ship.damage_type (fst r) = Some dty /\
    snd r = (Ship.health s - damage <=? 0)%Z /\
    same_hull s (fst r).
Proof.
  unfold Ship.take_hit.
  destruct (Ship.invulnerable_time s > of_Z 0)%py eqn:E; cbn zeta.
  - repeat split; trivial.
  - assert (N : forall s' : Ship.t float,
               Ship.invulnerable_time s' = 2%float -> s' <> s).
    { intros s' H2 ->. rewrite H2 in E. vm_compute in E. discriminate. }
    repeat split; try reflexivity; try discriminate.
    + intros Heq. exfalso. injection Heq as Heq _. revert Heq. now apply N.
    + intros Heq. exfalso. revert Heq. now apply N.
Qed.

(** The scenario of the specification: at health 3 a hit leaves health 2 and
    two seconds of invulnerability; a hit one second later is ignored; a hit
    after the invulnerability has run out leaves health 1. *)
Example take_hit_scenario :
  let s0 : Ship.t float := Ship.init 400%float 300%float in
  let (s1, d1) := Ship.take_hit s0 ASTEROID 1 in
  let (s2, d2) := Ship.take_hit (Ship.update s1 1%float) ASTEROID 1 in
  let (s3, d3) := Ship.take_hit (Ship.update s2 1.5%float) ASTEROID 1 in
  (Ship.health s1, Ship.invulnerable_time s1, d1) = (2%Z, 2%float, false) /\
  (Ship.health s2, Ship.invulnerable_time s2, d2) = (2%Z, 1%float, false) /\
  (Ship.health s3, Ship.invulnerable_time s3, d3) = (1%Z, 2%float, false).
Proof. vm_compute. repeat split. Qed.

(** ** The random oracle *)

Lemma skip_skip {F} (n m : nat) (g : Random.Rng F) :
  skip n (skip m g) = skip (n + m) g.
Proof. unfold skip; cbn. f_equal. lia. Qed.

Lemma skip_0 {F} (g : Random.Rng F) : skip 0 g = g.
Proof. now destruct g. Qed.

Lemma randint_range {F} {NF : Num F} (a b : Z) (g : Random.Rng F) :
  (a <= b)%Z ->
  (a <= fst (Random.randint a b g) <= b)%Z /\
  snd (Random.randint a b g) = skip 1 g.
Proof.
  intros Hab; cbn. split; [|reflexivity].
  pose proof (Z.mod_pos_bound (Random.raw_int g (Random.drawn g)) (b - a + 1)).
  lia.
Qed.



(** ** [Asteroid.split] *)

Lemma split_one_spec {F} {NF : Num F} {LF : Libm F} (a : Asteroid.t F)
      (g : Random.Rng F) :
  snd (Asteroid.split_one a g) = skip 13 g /\
  child_of a (Random.clamp (of_Z 40) (of_Z 120) (coming g 11))
             (Random.clamp (of_Z 0) (of_Z 360) (coming g 12))
           (fst (Asteroid.split_one a g)).
Proof.
  unfold child_of, coming. cbn. destruct (GameObject.position (Asteroid.obj a)).
  repeat split.
Qed.





(** ** Lists of objects *)

Lemma remove_at_length {A} (i : nat) (l : list A) :
  (i < length l)%nat -> S (length (remove_at i l)) = length l.
Proof.
  revert i; induction l as [|a l IH]; intros [|i] Hi; cbn in *; try lia.
  rewrite IH; lia.
Qed.

Lemma remove_at_app {A} (i : nat) (l l' : list A) :
  (i < length l)%nat -> remove_at i (l ++ l') = remove_at i l ++ l'.
Proof.
  revert i; induction l as [|a l IH]; intros [|i] Hi; cbn in *; try lia; trivial.
  rewrite IH; trivial; lia.
Qed.

Lemma replace_at_length {A} (i : nat) (v : A) (l : list A) :
  length (replace_at i v l) = length l.
Proof.
  revert i; induction l as [|a l IH]; intros [|i]; cbn; auto.
Qed.

Lemma first_collision_some {F} {NF : Num F} {A} (part : A -> GameObject.t F)
      (o : GameObject.t F) (xs : list A) (j : nat) (x : A) :
  first_collision part o xs = Some (j, x) -> first_hit part o xs j x.
Proof.
  revert j; induction xs as [|a xs IH]; intros j E; cbn in E; [discriminate|].
  destruct (GameObject.collides_with o (part a)) eqn:Ea.
  - injection E as <- <-. repeat split; trivial. intros k y Hk; lia.
  - destruct (first_collision part o xs) as [[j' y]|]; [|discriminate].
    injection E as <- <-. destruct (IH j' eq_refl) as (Hn & Hc & Hf).
    repeat split; trivial.
    intros [|k] z Hk Hz; cbn in Hz.
    + now injection Hz as <-.
    + apply (Hf k); trivial; lia.
Qed.

Lemma first_collision_none {F} {NF : Num F} {A} (part : A -> GameObject.t F)
      (o : GameObject.t F) (xs : list A) :
  first_collision part o xs = None ->
  forall x, In x xs -> GameObject.collides_with o (part x) = false.
Proof.
  induction xs as [|a xs IH]; intros E x Hx; cbn in *; [tauto|].
  destruct (GameObject.collides_with o (part a)) eqn:Ea; [discriminate|].
  destruct (first_collision part o xs) as [[j' y]|]; [discriminate|].
  destruct Hx as [<-|Hx]; auto.
Qed.

Lemma first_hit_lt {F} {NF : Num F} {A} (part : A -> GameObject.t F)
      (o : GameObject.t F) (xs : list A) (j : nat) (x : A) :
  first_hit part o xs j x -> (j < length xs)%nat.
Proof. intros (Hn & _). apply nth_error_Some. congruence. Qed.

(** ** Player bullets vs asteroids and aliens *)

Section BulletHits.
Context {F : Type} {NF : Num F} {LF : Libm F}.

Lemma asteroid_pass_holds (gm : Game.t F) (g : Random.Rng F) (i : nat)
      (bullet : Bullet.t F) :
  nth_error (Game.bullets gm) i = Some bullet ->
  asteroid_pass_post gm g i bullet.
Proof.
  intros Hi. unfold asteroid_pass_post, Game.bullet_vs_asteroids.
  destruct (first_collision _ _ _) as [[j asteroid]|] eqn:E; [|reflexivity].
  apply first_collision_some in E. split; [exact E|].
  unfold Game.asteroid_hit, Random.bind.
  destruct (Asteroid.split (Asteroid.set_active asteroid false) g)
    as [children g'] eqn:Es.
  cbn. rewrite Es. cbn. repeat split.
  - apply remove_at_length, nth_error_Some. congruence.
  - apply remove_at_app. eapply first_hit_lt; eauto.
Qed.

Lemma alien_pass_holds (gm : Game.t F) (i : nat) (bullet : Bullet.t F) :
  nth_error (Game.bullets gm) i = Some bullet ->
  alien_pass_post gm i bullet.
Proof.
  intros Hi. unfold alien_pass_post, Game.bullet_vs_aliens.
  destruct (first_collision _ _ _) as [[j alien]|] eqn:E; [|reflexivity].
  apply first_collision_some in E. split; [exact E|].
  cbn. repeat split.
  - apply remove_at_length, nth_error_Some. congruence.
  - apply remove_at_length. eapply first_hit_lt; eauto.
Qed.

End BulletHits.

(** The index the loop carries is the index of the bullet at hand: if the
    bullets from [i] on are [bullet :: todo] before a turn of the loop, the
    bullets from the returned index on are [todo] after it. *)
Lemma skipn_remove_at {A} (i : nat) (l : list A) (a : A) (todo : list A) :
  skipn i l = a :: todo ->
  skipn i (remove_at i l) = todo /\ skipn (S i) l = todo /\
  nth_error l i = Some a.
Proof.
  revert i; induction l as [|b l IH]; intros [|i] E; cbn in *;
    try discriminate.
  - injection E as <- <-. auto.
  - now apply IH.
Qed.

Lemma bullet_vs_asteroids_index {F} {NF : Num F} {LF : Libm F} (gm : Game.t F)
      (g : Random.Rng F) (i : nat) (bullet : Bullet.t F)
      (todo : list (Bullet.t F)) :
  skipn i (Game.bullets gm) = bullet :: todo ->
  let '(gm', i', _) := Game.bullet_vs_asteroids bullet i gm g in
  skipn i' (Game.bullets gm') = todo.
Proof.
  intros E. apply skipn_remove_at in E. destruct E as (E1 & E2 & _).
  unfold Game.bullet_vs_asteroids.
  destruct (first_collision _ _ _) as [[j asteroid]|]; [|exact E2].
  unfold Game.asteroid_hit, Random.bind.
  destruct (Asteroid.split _ g) as [children g']. exact E1.
Qed.

Lemma bullet_vs_aliens_index {F} {NF : Num F} {LF : Libm F} (gm : Game.t F)
      (i : nat) (bullet : Bullet.t F) (todo : list (Bullet.t F)) :
  skipn i (Game.bullets gm) = bullet :: todo ->
  let '(gm', i') := Game.bullet_vs_aliens bullet i gm in
  skipn i' (Game.bullets gm') = todo.
Proof.
  intros E. apply skipn_remove_at in E. destruct E as (E1 & E2 & _).
  unfold Game.bullet_vs_aliens.
  destruct (first_collision _ _ _) as [[j alien]|]; [exact E1|exact E2].
Qed.

(** ** The bullet loops of [check_collisions] as a whole *)

Lemma firstn_remove_at {A} (i : nat) (l : list A) :
  firstn i (remove_at i l) = firstn i l.
Proof.
  revert i; induction l as [|a l IH]; intros [|i]; cbn; trivial.
  now rewrite IH.
Qed.

Lemma firstn_next {A} (i : nat) (l : list A) (a : A) (todo : list A) :
  skipn i l = a :: todo -> firstn (S i) l = firstn i l ++ [a].
Proof.
  revert i; induction l as [|b l IH]; intros [|i] E; cbn in *;
    try discriminate.
  - now injection E as <- <-.
  - now rewrite (IH i E).
Qed.

(** [first_collision] against the vocabulary of the specification. *)
Lemma first_collision_match {F} {NF : Num F} {A} (part : A -> GameObject.t F)
      (o : GameObject.t F) (xs : list A) :
  match first_collision part o xs with
  | Some (j, x) =>
      exists before after,
        first_match part o xs before x after /\
        length before = j /\ remove_at j xs = before ++ after
  | None => misses part o xs
  end.
Proof.
  induction xs as [|a xs IH]; cbn; [intros x []|].
  destruct (GameObject.collides_with o (part a)) eqn:Ea.
  - exists [], xs. repeat split; trivial. intros x [].
  - destruct (first_collision part o xs) as [[j y]|].
    + destruct IH as (before & after & (E & Hm & Hc) & Hl & Hr).
      exists (a :: before), after. cbn. rewrite Hl, Hr.
      repeat split; trivial.
      * now rewrite E.
      * intros x [<-|Hx]; auto.
    + intros x [<-|Hx]; auto.
Qed.

Lemma score_values_points (size : Z) :
  points_for size (Game.score_values size).
Proof.
  unfold points_for, Game.score_values.
  destruct (Z.eqb_spec size 1); [now left|].
  destruct (Z.eqb_spec size 2); [now right; left|].
  destruct (Z.eqb_spec size 3); [now right; right; left|].
  now right; right; right.
Qed.

Lemma rammed_refl {F} (l : list (AlienShip.t F)) : Forall2 rammed l l.
Proof. induction l; constructor; trivial. now left. Qed.

Lemma rammed_replace_at {F} (l : list (AlienShip.t F)) (j : nat)
      (a : AlienShip.t F) :
  nth_error l j = Some a ->
  Forall2 rammed l (replace_at j (AlienShip.set_active a false) l).
Proof.
  revert j; induction l as [|b l IH]; intros [|j] E; cbn in *;
    try discriminate.
  - injection E as ->. constructor; [now right|apply rammed_refl].
  - constructor; [now left|now apply IH].
Qed.

Section BulletLoops.
Context {F : Type} {NF : Num F} {LF : Libm F}.

Lemma bullets_vs_asteroids_pass (todo : list (Bullet.t F)) :
  forall (i : nat) (gm : Game.t F) (g : Random.Rng F),
    skipn i (Game.bullets gm) = todo ->
    let gm' := fst (Game.bullets_vs_asteroids todo i gm g) in
    let g' := snd (Game.bullets_vs_asteroids todo i gm g) in
    exists kept,
      asteroid_pass todo (Game.asteroids gm) (Game.score gm) g
                    kept (Game.asteroids gm') (Game.score gm') g' /\
      Game.bullets gm' = firstn i (Game.bullets gm) ++ kept /\
      Game.alien_ships gm' = Game.alien_ships gm.
Proof.
  induction todo as [|b todo IH]; intros i gm g E; cbn.
  - exists []. split; [constructor|]. split; [|reflexivity].
    rewrite <- (firstn_skipn i (Game.bullets gm)) at 1. now rewrite E.
  - unfold Random.bind.
    pose proof (bullet_vs_asteroids_index gm g i b todo E) as Hi.
    pose proof (firstn_next _ _ _ _ E) as Hn.
    unfold Game.bullet_vs_asteroids in *.
    pose proof (first_collision_match (@Asteroid.obj F) (Bullet.obj b)
                  (Game.asteroids gm)) as Hm.
    destruct (first_collision _ _ _) as [[j a]|].
    + destruct Hm as (before & after & Hfm & Hl & Hr).
      unfold Game.asteroid_hit, Random.bind in *.
      destruct (Asteroid.split (Asteroid.set_active a false) g)
        as [children g1] eqn:Es.
      unfold Random.ret in *. cbn in Hi. cbn.
      match goal with |- context [Game.bullets_vs_asteroids todo i ?gm1 g1] =>
        destruct (IH i gm1 g1 Hi) as (kept & Hp & Hb & Ha)
      end.
      cbn [Game.asteroids Game.score Game.bullets Game.alien_ships
           Game.set_score Game.set_asteroids Game.set_bullets] in Hp, Hb, Ha.
      exists kept. split; [|split].
      * eapply asteroid_pass_hit; [exact Hfm|apply score_values_points|].
        rewrite Es. cbn [fst snd].
        assert (Er : remove_at j (Game.asteroids gm ++ children)
                     = before ++ after ++ children).
        { rewrite remove_at_app, Hr, app_assoc; [reflexivity|].
          destruct Hfm as (-> & _). rewrite length_app. cbn. lia. }
        rewrite <- Er. exact Hp.
      * rewrite Hb, firstn_remove_at. reflexivity.
      * exact Ha.
    + unfold Random.ret in *. cbn in Hi. cbn.
      destruct (IH (S i) gm g Hi) as (kept & Hp & Hb & Ha).
      exists (b :: kept). split; [|split].
      * apply asteroid_pass_miss; assumption.
      * rewrite Hb, Hn, <- app_assoc. reflexivity.
      * exact Ha.
Qed.

Lemma bullets_vs_aliens_pass (todo : list (Bullet.t F)) :
  forall (i : nat) (gm : Game.t F),
    skipn i (Game.bullets gm) = todo ->
    let gm' := Game.bullets_vs_aliens todo i gm in
    exists kept,
      alien_pass todo (Game.alien_ships gm) (Game.score gm)
                 kept (Game.alien_ships gm') (Game.score gm') /\
      Game.bullets gm' = firstn i (Game.bullets gm) ++ kept /\
      Game.asteroids gm' = Game.asteroids gm.
Proof.
  induction todo as [|b todo IH]; intros i gm E; cbn.
  - exists []. split; [constructor|]. split; [|reflexivity].
    rewrite <- (firstn_skipn i (Game.bullets gm)) at 1. now rewrite E.
  - pose proof (bullet_vs_aliens_index gm i b todo E) as Hi.
    pose proof (firstn_next _ _ _ _ E) as Hn.
    unfold Game.bullet_vs_aliens in *.
    pose proof (first_collision_match (@AlienShip.obj F) (Bullet.obj b)
                  (Game.alien_ships gm)) as Hm.
    destruct (first_collision _ _ _) as [[j a]|].
    + destruct Hm as (before & after & Hfm & Hl & Hr).
      cbn in Hi. cbn.
      match goal with |- context [Game.bullets_vs_aliens todo i ?gm1] =>
        destruct (IH i gm1 Hi) as (kept & Hp & Hb & Ha)
      end.
      cbn [Game.asteroids Game.score Game.bullets Game.alien_ships
           Game.set_score Game.set_alien_ships Game.set_bullets] in Hp, Hb, Ha.
      exists kept. split; [|split].
      * eapply alien_pass_hit; [exact Hfm|]. rewrite <- Hr. exact Hp.
      * rewrite Hb, firstn_remove_at. reflexivity.
      * exact Ha.
    + cbn in Hi. cbn.
      destruct (IH (S i) gm Hi) as (kept & Hp & Hb & Ha).
      exists (b :: kept). split; [|split].
      * apply alien_pass_miss; assumption.
      * rewrite Hb, Hn, <- app_assoc. reflexivity.
      * exact Ha.
Qed.

(** The ship passes leave the bullets, the asteroids and the score alone,
    and of the alien ships they can only deactivate one in place. *)
Lemma ship_passes_frame (gm : Game.t F) :
  let gm' := Game.ship_vs_alien_bullets
               (Game.ship_vs_aliens (Game.ship_vs_asteroids gm)) in
  Game.bullets gm' = Game.bullets gm /\
  Game.asteroids gm' = Game.asteroids gm /\
  Game.score gm' = Game.score gm /\
  Forall2 rammed (Game.alien_ships gm) (Game.alien_ships gm').
Proof.
  cbv zeta.
  assert (H1 : forall gm : Game.t F,
    Game.bullets (Game.ship_vs_asteroids gm) = Game.bullets gm /\
    Game.asteroids (Game.ship_vs_asteroids gm) = Game.asteroids gm /\
    Game.score (Game.ship_vs_asteroids gm) = Game.score gm /\
    Game.alien_ships (Game.ship_vs_asteroids gm) = Game.alien_ships gm).
  { intros gm0. unfold Game.ship_vs_asteroids.
    destruct (Game.ship_exposed gm0); auto.
    destruct (first_collision _ _ _); auto. }
  assert (H2 : forall gm : Game.t F,
    Game.bullets (Game.ship_vs_aliens gm) = Game.bullets gm /\
    Game.asteroids (Game.ship_vs_aliens gm) = Game.asteroids gm /\
    Game.score (Game.ship_vs_aliens gm) = Game.score gm /\
    Forall2 rammed (Game.alien_ships gm)
            (Game.alien_ships (Game.ship_vs_aliens gm))).
  { intros gm0. unfold Game.ship_vs_aliens.
    destruct (Game.ship_exposed gm0);
      [|repeat split; apply rammed_refl].
    destruct (first_collision _ _ _) as [[j alien]|] eqn:Ec;
      [|repeat split; apply rammed_refl].
    apply first_collision_some in Ec. destruct Ec as (Hn & _).
    cbn. repeat split. now apply rammed_replace_at. }
  assert (H3 : forall gm : Game.t F,
    Game.bullets (Game.ship_vs_alien_bullets gm) = Game.bullets gm /\
    Game.asteroids (Game.ship_vs_alien_bullets gm) = Game.asteroids gm /\
    Game.score (Game.ship_vs_alien_bullets gm) = Game.score gm /\
    Game.alien_ships (Game.ship_vs_alien_bullets gm) = Game.alien_ships gm).
  { intros gm0. unfold Game.ship_vs_alien_bullets.
    destruct (Game.ship_exposed gm0); auto.
    destruct (first_collision _ _ _) as [[j b]|]; auto. }
  destruct (H1 gm) as (A1 & B1 & C1 & D1).
  destruct (H2 (Game.ship_vs_asteroids gm)) as (A2 & B2 & C2 & D2).
  destruct (H3 (Game.ship_vs_aliens (Game.ship_vs_asteroids gm)))
    as (A3 & B3 & C3 & D3).
  rewrite A3, A2, A1, B3, B2, B1, C3, C2, C1, D3.
  rewrite D1 in D2. auto.
Qed.

Lemma check_collisions_loops (gm : Game.t F) (g : Random.Rng F) :
  bullet_loops gm g (fst (Game.check_collisions gm g))
               (snd (Game.check_collisions gm g)).
Proof.
  unfold bullet_loops, Game.check_collisions, Random.bind.
  destruct (bullets_vs_asteroids_pass (Game.bullets gm) 0 gm g eq_refl)
    as (kept1 & Hp1 & Hb1 & Ha1).
  destruct (Game.bullets_vs_asteroids (Game.bullets gm) 0 gm g) as [gm1 g1].
  cbn [fst snd firstn app] in *.
  destruct (bullets_vs_aliens_pass (Game.bullets gm1) 0 gm1 eq_refl)
    as (kept2 & Hp2 & Hb2 & Ha2).
  cbn [firstn app] in Hb2.
  destruct (ship_passes_frame
              (Game.bullets_vs_aliens (Game.bullets gm1) 0 gm1))
    as (A & B & C & D).
  cbv zeta in A, B, C, D.
  exists kept1, (Game.asteroids gm1), (Game.score gm1),
    (Game.alien_ships (Game.bullets_vs_aliens (Game.bullets gm1) 0 gm1)).
  unfold Random.ret. cbn [fst snd].
  rewrite A, B, C, Ha2. subst kept1. rewrite <- Ha1.
  split; [exact Hp1|]. split; [|split; [reflexivity|exact D]].
  rewrite Hb2. exact Hp2.
Qed.

(** C4.  The player's bullets in [check_collisions].  The bullets are taken
    in the order of the list, first against the asteroids, then, those that
    are left, against the alien ships.  A bullet that collides with no
    asteroid is kept and changes nothing; a bullet that collides is removed
    together with the first asteroid it collides with and with no other
    (first match wins, at most one asteroid per bullet): that asteroid is
    deactivated, 100, 50 or 20 is added to the score for size 1, 2 or 3, and
    its [split()] is appended to the asteroids.  A bullet that collides
    with an alien ship is removed together with the first such ship, and 500
    is added to the score.  Nothing else in [check_collisions] touches the
    bullets, the asteroids or the score; the later passes may only
    deactivate an alien ship.  For the bullet at index [i], one turn of
    each loop deactivates the two objects it removes. *)
Theorem bullet_hit_spec (gm : Game.t F) (g : Random.Rng F) :
  bullet_loops gm g (fst (Game.check_collisions gm g))
               (snd (Game.check_collisions gm g)) /\
  forall (i : nat) (bullet : Bullet.t F),
    nth_error (Game.bullets gm) i = Some bullet ->
    asteroid_pass_post gm g i bullet /\ alien_pass_post gm i bullet.
Proof.
  split; [apply check_collisions_loops|].
  intros i bullet Hi. split.
  - now apply asteroid_pass_holds.
  - now apply alien_pass_holds.
Qed.

End BulletLoops.

(** ** A scene to run the definitions on *)

Lemma bullet_hit_witness :
  bullet_loops (LF := series_libm) Demo.scene Demo.oracle
    (fst (Game.check_collisions Demo.scene Demo.oracle))
    (snd (Game.check_collisions Demo.scene Demo.oracle)) /\
  asteroid_pass_post (LF := series_libm) Demo.scene Demo.oracle 0
    (Demo.shot 100 100)%float /\
  alien_pass_post Demo.scene 0 (Demo.shot 100 100)%float.
Proof.
  destruct (@bullet_hit_spec float binary64 series_libm Demo.scene Demo.oracle)
    as [H1 H2].
  split; [exact H1|]. apply (H2 0%nat). reflexivity.
Defined.

(** In the demo scene the first bullet does find a victim in each list: the
    large asteroid at index 1 and the alien ship at index 1. *)
Example first_bullet_hits :
  first_collision (@Asteroid.obj float) (Bullet.obj (Demo.shot 100 100)%float)
    (Game.asteroids Demo.scene)
  = Some (1%nat, Demo.rock 100 100 3)%float /\
  first_collision (@AlienShip.obj float) (Bullet.obj (Demo.shot 100 100)%float)
    (Game.alien_ships Demo.scene)
  = Some (1%nat, Demo.saucer 105 100)%float.
Proof. vm_compute. split; reflexivity. Qed.

(** Destroying a large, a medium and a small asteroid scores 20 + 50 + 100,
    and the alien ship under the first bullet survives the tick: its bullet
    is spent on the asteroid in the first pass. *)
Example score_of_three_asteroids :
  let gm := fst (Game.check_collisions (LF := series_libm)
                   Demo.scene Demo.oracle) in
  Game.score gm = 170%Z /\ Game.bullets gm = [] /\
  length (Game.alien_ships gm) = 2%nat /\
  map (@Asteroid.size float) (Game.asteroids gm) = [2; 2; 2; 1; 1; 1]%Z.
Proof. vm_compute. repeat split. Qed.
(** ** [Game.start_level] *)

Lemma in_range (a : Z) (n : nat) (z : Z) :
  (a <= z < a + Z.of_nat n)%Z -> In z (range a n).
Proof.
  intros Hz. unfold range. apply in_map_iff.
  exists (Z.to_nat (z - a)). split; [lia|]. apply in_seq. lia.
Qed.

Lemma far_test_table_ok :
  far_test_table (of_Z 100) (offsets 400 50 701) (offsets 300 50 501) = true.
Proof. vm_compute. reflexivity. Qed.

Lemma far_test_table_lookup (hundred : float) (dxs dys : list (Z * float))
      (p q : Z * float) :
  far_test_table hundred dxs dys = true -> In p dxs -> In q dys ->
  far_test_at hundred (snd p) (snd q) = farb (fst p) (fst q).
Proof.
  unfold far_test_table. intros T Ip Iq.
  rewrite forallb_forall in T. specialize (T p Ip).
  rewrite forallb_forall in T. specialize (T q Iq).
  now apply Bool.eqb_prop.
Qed.

Lemma in_offsets (centre a : Z) (n : nat) (z : Z) :
  (a <= z < a + Z.of_nat n)%Z ->
  In (z, (of_Z z - of_Z centre)%py) (offsets centre a n).
Proof.
  intros Hz. unfold offsets. apply in_map_iff.
  exists z. split; trivial. now apply in_range.
Qed.

Lemma far_test_exact (x y : Z) :
  (50 <= x <= 750)%Z -> (50 <= y <= 550)%Z ->
  far_test (F := float) x y = farb x y.
Proof.
  intros Hx Hy.
  apply (@far_test_table_lookup _ _ _
           (x, (of_Z x - of_Z 400)%py) (y, (of_Z y - of_Z 300)%py)
           far_test_table_ok).
  - apply in_offsets. lia.
  - apply in_offsets. lia.
Qed.

Lemma farb_far (x y : Z) : farb x y = true <-> far x y.
Proof. unfold farb, far. apply Z.ltb_lt. Qed.

Lemma candidate_range (g : Random.Rng float) (k : nat) :
  (50 <= fst (candidate g k) <= 750)%Z /\ (50 <= snd (candidate g k) <= 550)%Z.
Proof.
  unfold candidate; cbn [fst snd].
  pose proof (Z.mod_pos_bound (Random.raw_int g (2 * k + Random.drawn g)) 701).
  pose proof (Z.mod_pos_bound (Random.raw_int g (2 * k + 1 + Random.drawn g)) 501).
  lia.
Qed.

Lemma candidate_skip (g : Random.Rng float) (k : nat) :
  candidate (skip 2 g) k = candidate g (S k).
Proof.
  unfold candidate, skip; cbn [Random.raw_int Random.drawn].
  replace (2 * k + (2 + Random.drawn g))%nat
    with (2 * S k + Random.drawn g)%nat by lia.
  replace (2 * k + 1 + (2 + Random.drawn g))%nat
    with (2 * S k + 1 + Random.drawn g)%nat by lia.
  reflexivity.
Qed.

Lemma candidate_test (g : Random.Rng float) (k : nat) :
  far_test (F := float) (fst (candidate g k)) (snd (candidate g k)) = true
  <-> far_point (candidate g k).
Proof.
  destruct (candidate_range g k).
  rewrite far_test_exact by assumption. apply farb_far.
Qed.

(** One turn of the placement loop. *)
Lemma place_asteroid_step {LF : Libm float} (fuel : nat)
      (g : Random.Rng float) :
  Game.place_asteroid (S fuel) Game.new_ship g
  = if far_test (F := float) (fst (candidate g 0)) (snd (candidate g 0))
    then Some (large_asteroid (candidate g 0) (skip 2 g))
    else Game.place_asteroid fuel Game.new_ship (skip 2 g).
Proof. reflexivity. Qed.

(** The loop is rejection sampling: what it returns is built at the first
    drawn point that is far enough. *)
Lemma place_asteroid_some {LF : Libm float} (fuel : nat)
      (g : Random.Rng float) (r : Asteroid.t float * Random.Rng float) :
  Game.place_asteroid fuel Game.new_ship g = Some r ->
  exists j, (j < fuel)%nat /\ far_point (candidate g j) /\
            (forall i, (i < j)%nat -> ~ far_point (candidate g i)) /\
            r = large_asteroid (candidate g j) (skip (2 * j + 2) g).
Proof.
  revert g; induction fuel as [|fuel IH]; intros g E; [discriminate|].
  rewrite place_asteroid_step in E.
  destruct (far_test _ _) eqn:T.
  - exists 0%nat. apply candidate_test in T. injection E as <-.
    repeat split; trivial; lia.
  - apply IH in E. destruct E as (j & Hj & Hfar & Hfirst & ->).
    exists (S j). rewrite candidate_skip in Hfar. rewrite skip_skip.
    repeat split; try lia; trivial.
    + intros [|i] Hi.
      * intros Hc. apply candidate_test in Hc. congruence.
      * rewrite <- candidate_skip. apply Hfirst. lia.
    + rewrite candidate_skip.
      now replace (2 * j + 2 + 2)%nat with (2 * S j + 2)%nat by lia.
Qed.

(** ... and it ends as soon as the fuel covers the first such point. *)
Lemma place_asteroid_enough {LF : Libm float} (k : nat) :
  forall (g : Random.Rng float) (fuel : nat),
    far_point (candidate g k) -> (k < fuel)%nat ->
    exists r, Game.place_asteroid fuel Game.new_ship g = Some r.
Proof.
  induction k as [|k IH]; intros g [|fuel] Hfar Hk; try lia;
    rewrite place_asteroid_step.
  - apply candidate_test in Hfar. rewrite Hfar. eauto.
  - destruct (far_test _ _); [eauto|].
    apply IH; [|lia]. now rewrite candidate_skip.
Qed.

(** More fuel does not change what the loop returns. *)
Lemma place_asteroid_more {LF : Libm float} (fuel fuel' : nat)
      (g : Random.Rng float) (r : Asteroid.t float * Random.Rng float) :
  Game.place_asteroid fuel Game.new_ship g = Some r -> (fuel <= fuel')%nat ->
  Game.place_asteroid fuel' Game.new_ship g = Some r.
Proof.
  revert fuel' g; induction fuel as [|fuel IH]; intros [|fuel'] g E Hle;
    try discriminate; try lia.
  rewrite place_asteroid_step in *.
  destruct (far_test _ _); trivial. apply IH; trivial; lia.
Qed.

Lemma large_asteroid_spec {LF : Libm float} (p : Z * Z)
      (g : Random.Rng float) :
  (50 <= fst p <= 750)%Z -> (50 <= snd p <= 550)%Z -> far_point p ->
  placed_far (fst (large_asteroid p g)) /\
  snd (large_asteroid p g) = skip 11 g.
Proof.
  intros Hx Hy Hfar. split; [|reflexivity].
  unfold placed_far. cbn. repeat split.
  exists (fst p), (snd p). unfold SCREEN_WIDTH, SCREEN_HEIGHT.
  repeat split; trivial; lia.
Qed.

Lemma fair_skip (g : Random.Rng float) (m : nat) : fair g -> fair (skip m g).
Proof. intros Hf n. rewrite skip_skip. apply Hf. Qed.

Lemma place_asteroids_some {LF : Libm float} (fuel n : nat) :
  forall (g : Random.Rng float) (l : list (Asteroid.t float))
         (g' : Random.Rng float),
    Game.place_asteroids fuel n Game.new_ship g = Some (l, g') ->
    length l = n /\ Forall placed_far l /\ exists m, g' = skip m g.
Proof.
  induction n as [|n IH]; intros g l g' E; cbn in E.
  - injection E as <- <-. repeat split; auto. exists 0%nat. now rewrite skip_0.
  - destruct (Game.place_asteroid fuel Game.new_ship g) as [[a g1]|] eqn:Ea;
      [|discriminate].
    destruct (Game.place_asteroids fuel n Game.new_ship g1) as [[l1 g2]|] eqn:El;
      [|discriminate].
    injection E as <- <-.
    apply place_asteroid_some in Ea. destruct Ea as (j & _ & Hfar & _ & Ea).
    destruct (candidate_range g j) as [Hx Hy].
    destruct (large_asteroid_spec (candidate g j) (skip (2 * j + 2) g) Hx Hy Hfar)
      as [Hp Hg].
    rewrite <- Ea in Hp, Hg. cbn [fst snd] in Hp, Hg. subst g1.
    apply IH in El. destruct El as (Hlen & Hall & m & ->).
    repeat split; cbn; auto.
    rewrite !skip_skip. eauto.
Qed.

(** What the loop returns is sampled from the oracle, asteroid by
    asteroid. *)
Lemma place_asteroids_sampled {LF : Libm float} (fuel n : nat) :
  forall (g : Random.Rng float) (l : list (Asteroid.t float))
         (g' : Random.Rng float),
    Game.place_asteroids fuel n Game.new_ship g = Some (l, g') ->
    sampled g l g'.
Proof.
  induction n as [|n IH]; intros g l g' E; cbn in E.
  - injection E as <- <-. constructor.
  - destruct (Game.place_asteroid fuel Game.new_ship g) as [[a g1]|] eqn:Ea;
      [|discriminate].
    destruct (Game.place_asteroids fuel n Game.new_ship g1) as [[l1 g2]|] eqn:El;
      [|discriminate].
    injection E as <- <-.
    apply place_asteroid_some in Ea.
    destruct Ea as (j & _ & Hfar & Hfirst & Ea).
    assert (Ha : a = fst (large_asteroid (candidate g j) (skip (2 * j + 2) g)))
      by now rewrite <- Ea.
    assert (Hg : g1 = skip (2 * j + 13) g).
    { destruct (candidate_range g j) as [Hx Hy].
      destruct (large_asteroid_spec (candidate g j) (skip (2 * j + 2) g)
                  Hx Hy Hfar) as [_ Hg].
      rewrite <- Ea in Hg. cbn [snd] in Hg. rewrite Hg, skip_skip.
      f_equal. lia. }
    apply IH in El. rewrite Hg in El.
    apply (sampled_next g j a l1 g2 Hfar Hfirst); trivial.
    rewrite Ha. reflexivity.
Qed.

Lemma place_asteroids_enough {LF : Libm float} (n : nat) :
  forall g : Random.Rng float, fair g ->
    exists fuel0, forall fuel, (fuel0 <= fuel)%nat ->
      exists r, Game.place_asteroids fuel n Game.new_ship g = Some r.
Proof.
  induction n as [|n IH]; intros g Hf.
  - exists 0%nat. intros; cbn; eauto.
  - destruct (Hf 0%nat) as [k Hk]. rewrite skip_0 in Hk.
    destruct (place_asteroid_enough k g (S k) Hk ltac:(lia)) as [[a g1] Ea].
    assert (Hf1 : fair g1).
    { destruct (place_asteroid_some _ _ _ Ea) as (j & _ & Hfar & _ & Er).
      destruct (candidate_range g j) as [Hx Hy].
      destruct (large_asteroid_spec (candidate g j) (skip (2 * j + 2) g)
                  Hx Hy Hfar) as [_ Hg].
      rewrite <- Er in Hg. cbn in Hg. subst g1. now do 2 apply fair_skip. }
    destruct (IH g1 Hf1) as [fuel1 H1].
    exists (Nat.max (S k) fuel1). intros fuel Hfuel. cbn.
    rewrite (place_asteroid_more _ fuel _ _ Ea) by lia.
    destruct (H1 fuel) as [[l g2] El]; [lia|]. rewrite El. eauto.
Qed.

(** The ship every level and every respawn starts with. *)
Lemma new_ship_spec :
  let s : Ship.t float := Game.new_ship in
  GameObject.position (Ship.obj s) = Vector2.mk 400%float 300%float /\
  GameObject.velocity (Ship.obj s) = Vector2.mk 0%float 0%float /\
  GameObject.active (Ship.obj s) = true /\
  Ship.invulnerable_time s = 2%float /\
  Ship.health s = Ship.max_health s /\ Ship.health s = 3%Z /\
  Ship.hyperspace_cooldown s = 0%float /\
  Ship.fuel s = 1000%float.
Proof. vm_compute. repeat split. Qed.

Lemma start_level_some {LF : Libm float} (fuel : nat) (gm gm' : Game.t float)
      (g g' : Random.Rng float) :
  (-4 <= Game.level gm)%Z ->
  Game.start_level fuel gm g = Some (gm', g') -> level_started gm gm'.
Proof.
  intros Hl E. unfold Game.start_level in E.
  cbn -[Z.add Z.to_nat Game.place_asteroids] in E.
  destruct (Game.place_asteroids _ _ _ g) as [[l g1]|] eqn:El; [|discriminate].
  injection E as <- <-.
  apply place_asteroids_some in El. destruct El as (Hlen & Hall & _).
  unfold level_started; cbn -[Z.add Z.to_nat]. repeat split; trivial.
  rewrite Hlen. lia.
Qed.

Lemma start_level_sampled {LF : Libm float} (fuel : nat)
      (gm gm' : Game.t float) (g g' : Random.Rng float) :
  Game.start_level fuel gm g = Some (gm', g') ->
  sampled g (Game.asteroids gm') g'.
Proof.
  intros E. unfold Game.start_level in E.
  cbn -[Z.add Z.to_nat Game.place_asteroids] in E.
  destruct (Game.place_asteroids _ _ _ g) as [[l g1]|] eqn:El; [|discriminate].
  injection E as <- <-. cbn. now apply place_asteroids_sampled in El.
Qed.

(** Under a fair oracle [start_level] returns, given enough fuel. *)
Lemma start_level_returns {LF : Libm float} (gm : Game.t float)
      (g : Random.Rng float) :
  fair g ->
  exists fuel0, forall fuel, (fuel0 <= fuel)%nat ->
    exists gm' g', Game.start_level fuel gm g = Some (gm', g').
Proof.
  intros Hf.
  destruct (place_asteroids_enough (Z.to_nat (4 + Game.level gm)) g Hf)
    as [fuel0 H0].
  exists fuel0. intros fuel Hfuel. destruct (H0 fuel Hfuel) as [[l g1] El].
  unfold Game.start_level.
  cbn -[Z.add Z.to_nat Game.place_asteroids]. rewrite El. eauto.
Qed.

(** C6.  For a level of at least -4 (it is at least 1 in every game) and an
    oracle under which the placement loop ends, [start_level] returns, given
    enough fuel for the loop; and whenever it returns the ship is the fresh
    ship at the centre (400, 300) with [invulnerable_time] 2.0 and full
    health, the bullets, alien bullets and alien ships are empty, and the
    asteroids are exactly [4 + level] asteroids of size 3, each at a drawn
    point of [[50, 750] x [50, 550]] more than 100 units from the centre.
    The asteroids are placed by rejection sampling on the oracle: each is at
    the first point [(randint(50, 750), randint(50, 550))] drawn, after the
    draws of the asteroid before it, that is more than 100 units from the
    centre, every point drawn before it being within 100 units. *)
Theorem start_level_spec {LF : Libm float} (gm : Game.t float)
        (g : Random.Rng float) :
  (-4 <= Game.level gm)%Z -> fair g ->
  (exists fuel0, forall fuel, (fuel0 <= fuel)%nat ->
     exists gm' g', Game.start_level fuel gm g = Some (gm', g')) /\
  (forall fuel gm' g',
     Game.start_level fuel gm g = Some (gm', g') ->
     level_started gm gm' /\ sampled g (Game.asteroids gm') g') /\
  (GameObject.position (Ship.obj Game.new_ship)
     = Vector2.mk 400%float 300%float /\
   Ship.invulnerable_time Game.new_ship = 2%float /\
   Ship.health (F := float) Game.new_ship
   = Ship.max_health (F := float) Game.new_ship).
Proof.
  intros Hl Hf. split; [|split].
  - now apply start_level_returns.
  - intros fuel gm' g' E. split.
    + now apply (start_level_some fuel gm gm' g g').
    + now apply (start_level_sampled fuel gm gm' g g').
  - pose proof new_ship_spec as N. cbv zeta in N. tauto.
Qed.

Lemma steady_fair : fair DemoLevel.steady.
Proof. intros n. exists 0%nat. unfold far_point, far; cbn. lia. Qed.

Lemma start_level_witness :
  (exists fuel0, forall fuel, (fuel0 <= fuel)%nat ->
     exists gm' g',
       Game.start_level (LF := series_libm) fuel DemoLevel.level2
         DemoLevel.steady = Some (gm', g')) /\
  (forall fuel gm' g',
     Game.start_level (LF := series_libm) fuel DemoLevel.level2
       DemoLevel.steady = Some (gm', g') ->
     level_started DemoLevel.level2 gm' /\
     sampled (LF := series_libm) DemoLevel.steady (Game.asteroids gm') g') /\
  (GameObject.position (Ship.obj Game.new_ship)
     = Vector2.mk 400%float 300%float /\
   Ship.invulnerable_time Game.new_ship = 2%float /\
   Ship.health (F := float) Game.new_ship
   = Ship.max_health (F := float) Game.new_ship).
Proof.
  apply (@start_level_spec series_libm DemoLevel.level2 DemoLevel.steady).
  - cbn. lia.
  - exact steady_fair.
Defined.

(** The scenario of the specification: level 2 starts with 4 + 2 = 6 large
    asteroids.  Under the oracle [central] the first five points drawn,
    (390, 391) to (398, 399), are within 100 units of the centre and are
    rejected; the first asteroid is placed at the sixth, (400, 401). *)
Example start_level_2 :
  match Game.start_level (LF := series_libm) 6 DemoLevel.level2
          DemoLevel.central with
  | Some (gm, g) =>
      map (fun a => (Asteroid.size a, GameObject.position (Asteroid.obj a)))
          (Game.asteroids gm)
      = [(3%Z, Vector2.mk 400 401); (3%Z, Vector2.mk 413 414);
         (3%Z, Vector2.mk 426 427); (3%Z, Vector2.mk 439 440);
         (3%Z, Vector2.mk 452 453); (3%Z, Vector2.mk 465 466)]%float /\
      Random.drawn g = 88%nat
  | None => False
  end.
Proof. vm_compute. split; reflexivity. Qed.

(** ** The ship passes of [check_collisions] *)

Section ShipPasses.
Context {F : Type} {NF : Num F} {LF : Libm F}.

Lemma ship_hit_hit_only (s : Ship.t F) (dty : DamageType) (damage : Z) :
  hit_only s (Game.ship_hit s dty damage).
Proof.
  unfold Game.ship_hit, Ship.take_hit, hit_only.
  destruct (Ship.invulnerable_time s > of_Z 0)%py; cbn.
  - repeat split.
  - destruct (Ship.health s - damage <=? 0)%Z; cbn; repeat split.
Qed.

Lemma ship_exposed_some (gm : Game.t F) (s : Ship.t F) :
  Game.ship_exposed gm = Some s ->
  Game.ship gm = Some s /\ GameObject.active (Ship.obj s) = true /\
  (Ship.invulnerable_time s <= of_Z 0)%py = true.
Proof.
  unfold Game.ship_exposed. destruct (Game.ship gm) as [s0|]; [|discriminate].
  destruct (GameObject.active (Ship.obj s0)) eqn:Ea; cbn; [|discriminate].
  destruct (Ship.invulnerable_time s0 <= of_Z 0)%py eqn:Ei; [|discriminate].
  intros E; injection E as <-. auto.
Qed.

Lemma first_collision_existsb {A} (part : A -> GameObject.t F)
      (o : GameObject.t F) (xs : list A) :
  existsb (fun x => GameObject.collides_with o (part x)) xs
  = match first_collision part o xs with Some _ => true | None => false end.
Proof.
  induction xs as [|a xs IH]; cbn; [reflexivity|].
  destruct (GameObject.collides_with o (part a)); cbn; [reflexivity|].
  rewrite IH. now destruct (first_collision part o xs) as [[j y]|].
Qed.

Lemma ship_vs_asteroids_lists (gm : Game.t F) :
  let gm' := Game.ship_vs_asteroids gm in
  Game.asteroids gm' = Game.asteroids gm /\
  Game.bullets gm' = Game.bullets gm /\
  Game.alien_ships gm' = Game.alien_ships gm /\
  Game.alien_bullets gm' = Game.alien_bullets gm /\
  Game.score gm' = Game.score gm /\
  Game.lives gm' = Game.lives gm /\
  Game.level gm' = Game.level gm /\
  Game.state gm' = Game.state gm /\
  Game.alien_spawn_timer gm' = Game.alien_spawn_timer gm /\
  Game.alien_spawn_interval gm' = Game.alien_spawn_interval gm.
Proof.
  unfold Game.ship_vs_asteroids.
  destruct (Game.ship_exposed gm) as [s|]; [|cbn; repeat split].
  destruct (first_collision _ (Ship.obj s) _) as [[j asteroid]|];
    cbn; repeat split.
Qed.

(** The ship after the pass, field by field. *)
Lemma ship_vs_asteroids_ship (gm : Game.t F) :
  match Game.ship gm with
  | None => Game.ship (Game.ship_vs_asteroids gm) = None
  | Some s =>
      exists s', Game.ship (Game.ship_vs_asteroids gm) = Some s' /\
        hit_only s s' /\
        if (GameObject.active (Ship.obj s)
            && (Ship.invulnerable_time s <= of_Z 0)%py
            && existsb (fun a => GameObject.collides_with (Ship.obj s)
                                   (Asteroid.obj a))
                       (Game.asteroids gm))%bool
        then if (Ship.invulnerable_time s > of_Z 0)%py then s' = s
             else hit_landed s s' ASTEROID 1
        else s' = s
  end.
Proof.
  unfold Game.ship_vs_asteroids, Game.ship_exposed.
  destruct (Game.ship gm) as [s|] eqn:Es; [|now rewrite Es].
  rewrite (first_collision_existsb (@Asteroid.obj F)).
  assert (Hs : hit_only s s) by (unfold hit_only; repeat split).
  destruct (GameObject.active (Ship.obj s)) eqn:Ea; cbn [andb];
    [|exists s; rewrite Es; auto].
  destruct (Ship.invulnerable_time s <= of_Z 0)%py; cbn [andb];
    [|exists s; rewrite Es; auto].
  destruct (first_collision _ _ _) as [[j a]|];
    [|exists s; rewrite Es; auto].
  exists (Game.ship_hit s ASTEROID 1).
  split; [reflexivity|]. split; [apply ship_hit_hit_only|].
  unfold Game.ship_hit, Ship.take_hit.
  destruct (Ship.invulnerable_time s > of_Z 0)%py; [reflexivity|].
  unfold hit_landed. cbn.
  destruct (Ship.health s - 1 <=? 0)%Z; cbn; rewrite ?Ea; repeat split.
Qed.

(** C10.  The pass ship vs asteroids touches nothing but the ship: the list
    of asteroids is the same list afterwards, so the asteroid the ship ran
    into is neither deactivated nor removed nor split, and the score, the
    other lists, the counters and the alien spawn timer and interval are as
    before.  Of the ship, the position, velocity, rotation, radius, thrust
    power, rotation speed, maximal speed, fuel, maximal fuel, hyperspace
    cooldown, maximal health and shape are as before.  When the ship is
    active, its [invulnerable_time] is [<= 0] and it collides with an
    asteroid, [take_hit(ASTEROID, 1)] takes one point of health, sets
    [invulnerable_time] to 2.0, [hit_flash_time] and [flash_intensity] to
    1.0 and [damage_type] to [ASTEROID], and the ship is deactivated if its
    health is then [<= 0]; otherwise the ship is unchanged. *)
Theorem ship_vs_asteroids_frame (gm : Game.t F) :
  let gm' := Game.ship_vs_asteroids gm in
  Game.asteroids gm' = Game.asteroids gm /\
  Game.bullets gm' = Game.bullets gm /\
  Game.alien_ships gm' = Game.alien_ships gm /\
  Game.alien_bullets gm' = Game.alien_bullets gm /\
  Game.score gm' = Game.score gm /\
  Game.lives gm' = Game.lives gm /\
  Game.level gm' = Game.level gm /\
  Game.state gm' = Game.state gm /\
  Game.alien_spawn_timer gm' = Game.alien_spawn_timer gm /\
  match Game.ship_exposed gm with
  | Some s =>
      match first_collision (@Asteroid.obj F) (Ship.obj s)
              (Game.asteroids gm) with
      | Some (j, asteroid) =>
          nth_error (Game.asteroids gm') j = Some asteroid /\
          GameObject.active (Asteroid.obj asteroid) = true /\
          Game.ship gm' = Some (Game.ship_hit s ASTEROID 1) /\
          hit_only s (Game.ship_hit s ASTEROID 1)
      | None => Game.ship gm' = Game.ship gm
      end
  | None => Game.ship gm' = Game.ship gm
  end /\
  Game.alien_spawn_interval gm' = Game.alien_spawn_interval gm /\
  match Game.ship gm with
  | None => Game.ship gm' = None
  | Some s =>
      exists s', Game.ship gm' = Some s' /\
        hit_only s s' /\
        if (GameObject.active (Ship.obj s)
            && (Ship.invulnerable_time s <= of_Z 0)%py
            && existsb (fun a => GameObject.collides_with (Ship.obj s)
                                   (Asteroid.obj a))
                       (Game.asteroids gm))%bool
        then if (Ship.invulnerable_time s > of_Z 0)%py then s' = s
             else hit_landed s s' ASTEROID 1
        else s' = s
  end.
Proof.
  cbv zeta.
  destruct (ship_vs_asteroids_lists gm)
    as (H1 & H2 & H3 & H4 & H5 & H6 & H7 & H8 & H9 & H10).
  cbv zeta in H1.
  repeat (split; [assumption|]).
  split; [|split; [assumption|apply ship_vs_asteroids_ship]].
  rewrite H1. unfold Game.ship_vs_asteroids.
  destruct (Game.ship_exposed gm) as [s|] eqn:Es; [|reflexivity].
  destruct (first_collision _ (Ship.obj s) _) as [[j asteroid]|] eqn:Ec;
    [|reflexivity].
  apply first_collision_some in Ec. destruct Ec as (Hn & Hc & _).
  split; [exact Hn|].
  split; [|split; [reflexivity|apply (ship_hit_hit_only s ASTEROID 1)]].
  unfold GameObject.collides_with in Hc.
  destruct (GameObject.active (Asteroid.obj asteroid)); trivial.
  rewrite andb_false_r in Hc. discriminate.
Qed.

End ShipPasses.

(** In binary64 the guard of the ship passes and the gate of [take_hit]
    agree: a timer that is [<= 0] is not [> 0]. *)
Lemma binary64_le_0_not_gt (t : float) :
  (t <= of_Z 0)%py = true -> (t > of_Z 0)%py = false.
Proof.
  cbn. rewrite leb_spec, ltb_spec.
  change (Prim2SF (B64.of_Z 0)) with (S754_zero false).
  now destruct (Prim2SF t) as [[|]|[|]| |[|] m e].
Qed.

(** So the hit of an exposed ship always lands: one point of damage from an
    asteroid. *)
Lemma exposed_ship_hit_lands (gm : Game.t float) (s : Ship.t float)
      (dty : DamageType) (damage : Z) :
  Game.ship_exposed gm = Some s ->
  Ship.health (Game.ship_hit s dty damage) = (Ship.health s - damage)%Z /\
  Ship.invulnerable_time (Game.ship_hit s dty damage) = 2%float /\
  GameObject.active (Ship.obj (Game.ship_hit s dty damage))
  = negb (Ship.health s - damage <=? 0)%Z.
Proof.
  intros Es. destruct (ship_exposed_some gm s Es) as (_ & Ha & Hi).
  apply binary64_le_0_not_gt in Hi.
  unfold Game.ship_hit, Ship.take_hit. rewrite Hi. cbn.
  destruct (Ship.health s - damage <=? 0)%Z; cbn; auto.
Qed.

(** ** [Ship.hyperspace] *)

Section Hyperspace.
Context {F : Type} {NF : Num F}.

(** C8.  With the cooldown elapsed and the ship invulnerable, on the branch
    [random.random() < 0.1] the call to [take_hit] does nothing: health,
    [invulnerable_time] and the [active] flag are as before; the ship has
    been teleported, stopped and given a 3.0 cooldown; and [hyperspace]
    returns [False]. *)
Theorem hyperspace_while_invulnerable (s : Ship.t F) (g : Random.Rng F) :
  (Ship.hyperspace_cooldown s <= of_Z 0)%py = true ->
  (Ship.invulnerable_time s > of_Z 0)%py = true ->
  (malfunction_draw g < lit 1 10)%py = true ->
  let r := Ship.hyperspace s g in
  let s' := fst (fst r) in
  snd (fst r) = false /\
  Ship.health s' = Ship.health s /\
  GameObject.active (Ship.obj s') = GameObject.active (Ship.obj s) /\
  Ship.invulnerable_time s' = Ship.invulnerable_time s /\
  Ship.damage_type s' = Ship.damage_type s /\
  Ship.hyperspace_cooldown s' = of_Z 3 /\
  GameObject.velocity (Ship.obj s') = Vector2.mk (of_Z 0) (of_Z 0) /\
  GameObject.position (Ship.obj s')
  = Vector2.mk (of_Z (fst (Random.randint 50 750 g)))
               (of_Z (fst (Random.randint 50 550 (skip 1 g)))) /\
  snd r = skip 3 g.
Proof.
  intros Hc Hi Hr. unfold Ship.hyperspace. rewrite Hc.
  unfold malfunction_draw in Hr.
  unfold Random.bind. cbn [Random.randint].
  change (Random.next (Random.next g)) with (skip 2 g).
  destruct (Random.random (skip 2 g)) as [x g3] eqn:Ex. cbn [fst] in Hr.
  rewrite Hr. unfold Ship.take_hit.
  cbn [Ship.invulnerable_time Ship.set_hyperspace_cooldown Ship.set_obj].
  rewrite Hi. cbn.
  assert (Hg : g3 = skip 3 g) by (unfold Random.random in Ex; now injection Ex).
  repeat split; trivial.
Qed.

(** X26.  Off that gate the self-destruct is lethal: with the cooldown
    elapsed and the ship not invulnerable, the same branch takes all the
    health, the ship is deactivated, and [hyperspace] returns [False]. *)
Lemma hyperspace_malfunction (s : Ship.t F) (g : Random.Rng F) :
  (Ship.hyperspace_cooldown s <= of_Z 0)%py = true ->
  (Ship.invulnerable_time s > of_Z 0)%py = false ->
  (malfunction_draw g < lit 1 10)%py = true ->
  let r := Ship.hyperspace s g in
  snd (fst r) = false /\
  Ship.health (fst (fst r)) = 0%Z /\
  GameObject.active (Ship.obj (fst (fst r))) = false.
Proof.
  intros Hc Hi Hr. unfold Ship.hyperspace. rewrite Hc.
  unfold malfunction_draw in Hr.
  unfold Random.bind. cbn [Random.randint].
  change (Random.next (Random.next g)) with (skip 2 g).
  destruct (Random.random (skip 2 g)) as [x g3] eqn:Ex. cbn [fst] in Hr.
  rewrite Hr. unfold Ship.take_hit.
  cbn [Ship.invulnerable_time Ship.set_hyperspace_cooldown Ship.set_obj].
  rewrite Hi. cbn. rewrite Z.sub_diag. cbn. auto.
Qed.

(** With the cooldown running, [hyperspace] does nothing and returns
    [True]. *)
Lemma hyperspace_cooling_down (s : Ship.t F) (g : Random.Rng F) :
  (Ship.hyperspace_cooldown s <= of_Z 0)%py = false ->
  Ship.hyperspace s g = (s, true, g).
Proof. intros Hc. unfold Ship.hyperspace. now rewrite Hc. Qed.

End Hyperspace.

Lemma hyperspace_while_invulnerable_witness :
  let r := Ship.hyperspace (F := float) Game.new_ship DemoLevel.steady in
  let s' := fst (fst r) in
  snd (fst r) = false /\
  Ship.health s' = Ship.health (F := float) Game.new_ship /\
  GameObject.active (Ship.obj s')
  = GameObject.active (Ship.obj (F := float) Game.new_ship) /\
  Ship.invulnerable_time s' = Ship.invulnerable_time Game.new_ship /\
  Ship.damage_type s' = Ship.damage_type (F := float) Game.new_ship /\
  Ship.hyperspace_cooldown s' = of_Z 3 /\
  GameObject.velocity (Ship.obj s') = Vector2.mk (of_Z 0) (of_Z 0) /\
  GameObject.position (Ship.obj s')
  = Vector2.mk (of_Z (fst (Random.randint 50 750 DemoLevel.steady)))
               (of_Z (fst (Random.randint 50 550 (skip 1 DemoLevel.steady)))) /\
  snd r = skip 3 DemoLevel.steady.
Proof.
  apply (@hyperspace_while_invulnerable float binary64
           Game.new_ship DemoLevel.steady); reflexivity.
Defined.

(** ** The countdown timers *)

(** [Ship.update] does not floor the timers.  One update of a fresh ship
    (two seconds of invulnerability) with [dt] = 3 leaves
    [invulnerable_time] at -1; at 60 frames a second, [dt] = 0.017, the 118th
    update takes it from a positive value below [dt] to a negative one.  The
    same happens to [hyperspace_cooldown] after a jump. *)
Lemma ship_update_timer_negative :
  Ship.invulnerable_time (Ship.update (F := float) Game.new_ship 3%float)
  = (-1)%float /\
  (let t := Ship.invulnerable_time
              (ship_ticks (F := float) 117 (lit 17 1000) Game.new_ship) in
   (t > of_Z 0)%py = true /\ (t < lit 17 1000)%py = true) /\
  (let t := Ship.invulnerable_time
              (ship_ticks (F := float) 118 (lit 17 1000) Game.new_ship) in
   (t >= of_Z 0)%py = false /\ (t < of_Z 0)%py = true) /\
  (let jumped := fst (fst (Ship.hyperspace (F := float) Game.new_ship
                             DemoLevel.steady)) in
   Ship.hyperspace_cooldown jumped = 3%float /\
   Ship.hyperspace_cooldown (Ship.update jumped 4%float) = (-1)%float).
Proof. vm_compute. repeat split. Qed.

(** The two timers after [Ship.update]. *)
Lemma ship_update_timers {F} {NF : Num F} (s : Ship.t F) (dt : F) :
  Ship.invulnerable_time (Ship.update s dt)
  = (if (Ship.invulnerable_time s > of_Z 0)%py
     then (Ship.invulnerable_time s - dt)%py else Ship.invulnerable_time s) /\
  Ship.hyperspace_cooldown (Ship.update s dt)
  = (if (Ship.hyperspace_cooldown s > of_Z 0)%py
     then (Ship.hyperspace_cooldown s - dt)%py else Ship.hyperspace_cooldown s).
Proof.
  unfold Ship.update. cbn.
  destruct (Ship.invulnerable_time s > of_Z 0)%py; cbn;
    destruct (Ship.hyperspace_cooldown s > of_Z 0)%py; cbn;
    destruct (Ship.hit_flash_time s > of_Z 0)%py; cbn; split; reflexivity.
Qed.

(** What [take_hit] and [hyperspace] do to the two timers, in any number
    format: each is left as it is or set to its constant. *)
Lemma timers_set_or_kept {F} {NF : Num F} (s : Ship.t F) (dty : DamageType)
      (damage : Z) (g : Random.Rng F) :
  (let s' := fst (Ship.take_hit s dty damage) in
   (Ship.invulnerable_time s' = Ship.invulnerable_time s \/
    Ship.invulnerable_time s' = of_Z 2) /\
   Ship.hyperspace_cooldown s' = Ship.hyperspace_cooldown s) /\
  (let s' := fst (fst (Ship.hyperspace s g)) in
   (Ship.invulnerable_time s' = Ship.invulnerable_time s \/
    Ship.invulnerable_time s' = of_Z 2) /\
   (Ship.hyperspace_cooldown s' = Ship.hyperspace_cooldown s \/
    Ship.hyperspace_cooldown s' = of_Z 3)).
Proof.
  split.
  - unfold Ship.take_hit.
    destruct (Ship.invulnerable_time s > of_Z 0)%py; cbn; auto.
  - unfold Ship.hyperspace.
    destruct (Ship.hyperspace_cooldown s <= of_Z 0)%py; [|cbn; auto].
    unfold Random.bind. cbn [Random.randint].
    destruct (Random.random _) as [x g3].
    destruct (x < lit 1 10)%py; [|cbn; auto].
    unfold Ship.take_hit.
    cbn [Ship.invulnerable_time Ship.set_hyperspace_cooldown Ship.set_obj].
    destruct (Ship.invulnerable_time s > of_Z 0)%py; cbn; auto.
    destruct (_ <=? 0)%Z; cbn; auto.
Qed.

(** C9, as the code has it.  [take_hit] and [hyperspace] keep a timer that
    is [>= 0] at [>= 0]: they leave [invulnerable_time] as it is or set it
    to 2.0, and [hyperspace_cooldown] as it is or to 3.0.  [Ship.update(dt)]
    stores [timer - dt] in a timer that is [> 0] and leaves any other timer
    as it is: there is no floor at 0. *)
Theorem timers_spec (s : Ship.t float) (dt : float) (dty : DamageType)
        (damage : Z) (g : Random.Rng float) :
  (let s' := fst (Ship.take_hit s dty damage) in
   (not_negative (Ship.invulnerable_time s) ->
    not_negative (Ship.invulnerable_time s')) /\
   Ship.hyperspace_cooldown s' = Ship.hyperspace_cooldown s) /\
  (let s' := fst (fst (Ship.hyperspace s g)) in
   (not_negative (Ship.invulnerable_time s) ->
    not_negative (Ship.invulnerable_time s')) /\
   (not_negative (Ship.hyperspace_cooldown s) ->
    not_negative (Ship.hyperspace_cooldown s'))) /\
  (let s' := Ship.update s dt in
   Ship.invulnerable_time s'
   = (if (Ship.invulnerable_time s > of_Z 0)%py
      then (Ship.invulnerable_time s - dt)%py
      else Ship.invulnerable_time s) /\
   Ship.hyperspace_cooldown s'
   = (if (Ship.hyperspace_cooldown s > of_Z 0)%py
      then (Ship.hyperspace_cooldown s - dt)%py
      else Ship.hyperspace_cooldown s)).
Proof.
  destruct (timers_set_or_kept s dty damage g)
    as [[Hti Htc] [Hhi Hhc]].
  assert (N2 : not_negative (of_Z (F := float) 2))
    by (vm_compute; reflexivity).
  assert (N3 : not_negative (of_Z (F := float) 3))
    by (vm_compute; reflexivity).
  cbv zeta in *. repeat split.
  - destruct Hti as [-> | ->]; trivial.
  - exact Htc.
  - destruct Hhi as [-> | ->]; trivial.
  - destruct Hhc as [-> | ->]; trivial.
  - apply ship_update_timers.
  - apply ship_update_timers.
Qed.

(** ** The tick and the level *)

Section Tick.
Context {F : Type} {NF : Num F} {LF : Libm F}.

Lemma advances_ret {A} (a : A) : advances (Random.ret (F := F) a).
Proof. intros g. exists 0%nat. cbn. now rewrite skip_0. Qed.

Lemma advances_bind {A B} (m : Random.Rand F A) (k : A -> Random.Rand F B) :
  advances m -> (forall a, advances (k a)) -> advances (Random.bind m k).
Proof.
  intros Hm Hk g. unfold Random.bind. destruct (Hm g) as [n Hn].
  destruct (m g) as [a g1]. cbn in Hn. subst g1.
  destruct (Hk a (skip n g)) as [n' Hn']. exists (n' + n)%nat.
  now rewrite Hn', skip_skip.
Qed.

Lemma advances_randint (a b : Z) :
  advances (Random.randint (F := F) a b).
Proof. intros g. now exists 1%nat. Qed.

Lemma advances_uniform (a b : F) : advances (Random.uniform a b).
Proof. intros g. now exists 1%nat. Qed.

Lemma advances_random : advances Random.random.
Proof. intros g. now exists 1%nat. Qed.

Lemma advances_for_each {A B} (f : A -> Random.Rand F B) (l : list A) :
  (forall x, advances (f x)) -> advances (for_each f l).
Proof.
  intros Hf. induction l as [|x l IH]; cbn.
  - apply advances_ret.
  - apply advances_bind; [apply Hf|]. intros b.
    apply advances_bind; [apply IH|]. intros bs. apply advances_ret.
Qed.

Lemma advances_if {A} (b : bool) (m1 m2 : Random.Rand F A) :
  advances m1 -> advances m2 -> advances (if b then m1 else m2).
Proof. now destruct b. Qed.

Ltac advance :=
  repeat first
    [ apply advances_ret | apply advances_randint | apply advances_uniform
    | apply advances_random | apply advances_if
    | apply advances_bind; [|intros ?]
    | match goal with |- advances (match ?p with (_, _) => _ end) =>
        destruct p end ].

Lemma advances_asteroid_init (x y : F) (size : Z) :
  advances (Asteroid.init x y size).
Proof. intros g. now exists 11%nat. Qed.

Lemma advances_split (a : Asteroid.t F) : advances (Asteroid.split a).
Proof.
  unfold Asteroid.split. apply advances_if; [apply advances_ret|].
  apply advances_bind; [apply advances_randint|]. intros n.
  apply advances_for_each. intros _ g. exists 13%nat.
  apply split_one_spec.
Qed.

Lemma advances_alien_init (x y : F) : advances (AlienShip.init x y).
Proof. intros g. now exists 4%nat. Qed.

Lemma advances_alien_update (a : AlienShip.t F) (dt : F) :
  advances (AlienShip.update a dt).
Proof. unfold AlienShip.update. advance. Qed.

Lemma advances_should_shoot (a : AlienShip.t F) :
  advances (AlienShip.should_shoot a).
Proof. unfold AlienShip.should_shoot. advance. Qed.

Lemma advances_get_shoot_angle (a : AlienShip.t F) (p : Vector2.t F) :
  advances (AlienShip.get_shoot_angle a p).
Proof. unfold AlienShip.get_shoot_angle. advance. Qed.

Lemma advances_asteroid_hit (i j : nat) (b : Bullet.t F) (a : Asteroid.t F)
      (gm : Game.t F) : advances (Game.asteroid_hit i j b a gm).
Proof.
  unfold Game.asteroid_hit.
  apply advances_bind; [apply advances_split|]. intros l. apply advances_ret.
Qed.

Lemma advances_bullet_vs_asteroids (b : Bullet.t F) (i : nat) (gm : Game.t F) :
  advances (Game.bullet_vs_asteroids b i gm).
Proof.
  unfold Game.bullet_vs_asteroids.
  destruct (first_collision _ _ _) as [[j a]|]; [|apply advances_ret].
  apply advances_bind; [apply advances_asteroid_hit|].
  intros [[gm' b'] a']. apply advances_ret.
Qed.

Lemma advances_bullets_vs_asteroids (todo : list (Bullet.t F)) :
  forall (i : nat) (gm : Game.t F),
    advances (Game.bullets_vs_asteroids todo i gm).
Proof.
  induction todo as [|b todo IH]; intros i gm; cbn; [apply advances_ret|].
  apply advances_bind; [apply advances_bullet_vs_asteroids|].
  intros [gm' i']. apply IH.
Qed.

Lemma advances_check_collisions (gm : Game.t F) :
  advances (Game.check_collisions gm).
Proof.
  unfold Game.check_collisions.
  apply advances_bind; [apply advances_bullets_vs_asteroids|].
  intros gm'. apply advances_ret.
Qed.

Lemma advances_spawn_alien (gm : Game.t F) : advances (Game.spawn_alien gm).
Proof.
  unfold Game.spawn_alien.
  apply advances_bind; [apply advances_randint|]. intros side.
  apply advances_bind.
  - repeat apply advances_if;
      (apply advances_bind; [apply advances_randint|]; intros ?;
       apply advances_ret).
  - intros [x y]. apply advances_bind; [apply advances_alien_init|].
    intros a. apply advances_ret.
Qed.

Lemma advances_spawn_aliens (gm : Game.t F) (dt : F) :
  advances (Game.spawn_aliens gm dt).
Proof.
  unfold Game.spawn_aliens. apply advances_if; [|apply advances_ret].
  apply advances_bind; [apply advances_spawn_alien|].
  intros gm'. apply advances_ret.
Qed.

Lemma advances_update_aliens (todo : list (AlienShip.t F)) (dt : F) :
  forall (i : nat) (gm : Game.t F),
    advances (Game.update_aliens todo i dt gm).
Proof.
  induction todo as [|a todo IH]; intros i gm; cbn; [apply advances_ret|].
  apply advances_bind; [apply advances_alien_update|]. intros a'.
  apply advances_if; [apply IH|].
  apply advances_bind; [apply advances_should_shoot|]. intros [a'' shoot].
  destruct (if shoot then _ else _) as [s|]; [|apply IH].
  apply advances_if; [|apply IH].
  apply advances_bind; [apply advances_get_shoot_angle|]. intros angle.
  apply IH.
Qed.

Lemma advances_update_and_collide (dt : F) (gm : Game.t F) :
  advances (Game.update_and_collide dt gm).
Proof.
  unfold Game.update_and_collide.
  apply advances_bind; [apply advances_update_aliens|]. intros gm1.
  apply advances_bind; [apply advances_spawn_aliens|]. intros gm2.
  apply advances_check_collisions.
Qed.

(** Entity updates and collisions leave the counters alone. *)
Lemma counters_bullet_vs_asteroids (b : Bullet.t F) (i : nat) (gm : Game.t F)
      (g : Random.Rng F) :
  counters (fst (fst (Game.bullet_vs_asteroids b i gm g))) = counters gm.
Proof.
  unfold Game.bullet_vs_asteroids.
  destruct (first_collision _ _ _) as [[j a]|]; [|reflexivity].
  unfold Game.asteroid_hit, Random.bind.
  now destruct (Asteroid.split _ g).
Qed.

Lemma counters_bullets_vs_asteroids (todo : list (Bullet.t F)) :
  forall (i : nat) (gm : Game.t F) (g : Random.Rng F),
    counters (fst (Game.bullets_vs_asteroids todo i gm g)) = counters gm.
Proof.
  induction todo as [|b todo IH]; intros i gm g; cbn; [reflexivity|].
  unfold Random.bind.
  pose proof (counters_bullet_vs_asteroids b i gm g) as Hb.
  destruct (Game.bullet_vs_asteroids b i gm g) as [[gm' i'] g'].
  cbn in Hb. now rewrite IH.
Qed.

Lemma counters_bullets_vs_aliens (todo : list (Bullet.t F)) :
  forall (i : nat) (gm : Game.t F),
    counters (Game.bullets_vs_aliens todo i gm) = counters gm.
Proof.
  induction todo as [|b todo IH]; intros i gm; cbn; [reflexivity|].
  unfold Game.bullet_vs_aliens.
  destruct (first_collision _ _ _) as [[j a]|]; cbn; now rewrite IH.
Qed.

Lemma counters_ship_vs_asteroids (gm : Game.t F) :
  counters (Game.ship_vs_asteroids gm) = counters gm.
Proof.
  unfold Game.ship_vs_asteroids.
  destruct (Game.ship_exposed gm); trivial.
  now destruct (first_collision _ _ _).
Qed.

Lemma counters_ship_vs_aliens (gm : Game.t F) :
  counters (Game.ship_vs_aliens gm) = counters gm.
Proof.
  unfold Game.ship_vs_aliens.
  destruct (Game.ship_exposed gm); trivial.
  now destruct (first_collision _ _ _) as [[j a]|].
Qed.

Lemma counters_ship_vs_alien_bullets (gm : Game.t F) :
  counters (Game.ship_vs_alien_bullets gm) = counters gm.
Proof.
  unfold Game.ship_vs_alien_bullets.
  destruct (Game.ship_exposed gm); trivial.
  now destruct (first_collision _ _ _) as [[j a]|].
Qed.

Lemma counters_check_collisions (gm : Game.t F) (g : Random.Rng F) :
  counters (fst (Game.check_collisions gm g)) = counters gm.
Proof.
  unfold Game.check_collisions, Random.bind.
  pose proof (counters_bullets_vs_asteroids (Game.bullets gm) 0 gm g) as H1.
  destruct (Game.bullets_vs_asteroids _ _ gm g) as [gm1 g1]. cbn in *.
  now rewrite counters_ship_vs_alien_bullets, counters_ship_vs_aliens,
    counters_ship_vs_asteroids, counters_bullets_vs_aliens.
Qed.

Lemma counters_update_aliens (todo : list (AlienShip.t F)) (dt : F) :
  forall (i : nat) (gm : Game.t F) (g : Random.Rng F),
    counters (fst (Game.update_aliens todo i dt gm g)) = counters gm.
Proof.
  induction todo as [|a todo IH]; intros i gm g; cbn; [reflexivity|].
  unfold Random.bind.
  destruct (AlienShip.update a dt g) as [a1 g1].
  destruct (negb _); [now rewrite IH|].
  destruct (AlienShip.should_shoot a1 g1) as [[a2 shoot] g2].
  destruct shoot; cbn; [|now rewrite IH].
  destruct (Game.ship gm) as [s|]; [|now rewrite IH].
  destruct (GameObject.active (Ship.obj s)); [|now rewrite IH].
  now rewrite IH.
Qed.

Lemma counters_spawn_aliens (gm : Game.t F) (dt : F) (g : Random.Rng F) :
  counters (fst (Game.spawn_aliens gm dt g)) = counters gm.
Proof.
  unfold Game.spawn_aliens.
  destruct (_ >= _)%py; [|reflexivity].
  unfold Random.bind, Game.spawn_alien, Random.bind.
  destruct (Random.randint 0 3 g) as [side g1].
  destruct (if (side =? 0)%Z then _ else _) as [[x y] g2].
  now destruct (AlienShip.init _ _ g2).
Qed.

Lemma counters_update_and_collide (dt : F) (gm : Game.t F)
      (g : Random.Rng F) :
  counters (fst (Game.update_and_collide dt gm g)) = counters gm.
Proof.
  unfold Game.update_and_collide, Random.bind.
  match goal with |- context [Game.update_aliens ?l ?i dt ?gm0 g] =>
    pose proof (counters_update_aliens l dt i gm0 g) as H1;
    destruct (Game.update_aliens l i dt gm0 g) as [gm1 g1];
    assert (H0 : counters gm0 = counters gm)
  end.
  { unfold Game.update_ship. now destruct (Game.ship gm). }
  match goal with |- context [Game.spawn_aliens ?gm0 dt g1] =>
    pose proof (counters_spawn_aliens gm0 dt g1) as H2;
    destruct (Game.spawn_aliens gm0 dt g1) as [gm2 g2]
  end.
  rewrite counters_check_collisions. unfold counters in *. cbn in *.
  congruence.
Qed.

End Tick.

Section LevelCheck.
Context {F : Type} {NF : Num F} {LF : Libm F}.

Lemma level_complete_true (gm : Game.t F) :
  Game.level_complete gm = true <->
  Game.asteroids gm = [] /\ Game.alien_ships gm = [].
Proof.
  unfold Game.level_complete.
  destruct (Game.asteroids gm), (Game.alien_ships gm); split; intros E;
    try discriminate; try (destruct E; discriminate); auto.
Qed.

Lemma level_complete_false (gm : Game.t F) :
  Game.level_complete gm = false <-> enemies_remain gm.
Proof.
  unfold Game.level_complete, enemies_remain.
  destruct (Game.asteroids gm), (Game.alien_ships gm); split; intros E;
    try discriminate; trivial; try (destruct E; congruence);
    try (left; discriminate); right; discriminate.
Qed.

Lemma check_game_over_level (gm : Game.t F) :
  Game.level (Game.check_game_over gm) = Game.level gm.
Proof.
  unfold Game.check_game_over. destruct (Game.ship gm) as [s|]; trivial.
  destruct (negb _); trivial. cbn. now destruct (_ <=? 0)%Z.
Qed.

Lemma start_level_level (fuel : nat) (gm gm' : Game.t F)
      (g g' : Random.Rng F) :
  Game.start_level fuel gm g = Some (gm', g') ->
  Game.level gm' = Game.level gm.
Proof.
  unfold Game.start_level.
  destruct (Game.place_asteroids _ _ _ g) as [[l g1]|]; [|discriminate].
  now intros E; injection E as <- <-.
Qed.

(** The tick, once collisions are resolved. *)
Lemma update_playing (fuel : nat) (dt : F) (gm : Game.t F)
      (g : Random.Rng F) :
  Game.state gm = PLAYING ->
  Game.update fuel dt gm g
  = let gm1 := fst (Game.update_and_collide dt gm g) in
    let g1 := snd (Game.update_and_collide dt gm g) in
    if Game.level_complete gm1 then
      match Game.start_level fuel
              (Game.set_level gm1 (Game.level gm1 + 1)) g1 with
      | Some (gm2, g2) => Some (Game.check_game_over gm2, g2)
      | None => None
      end
    else Some (Game.check_game_over gm1, g1).
Proof.
  intros Hs. unfold Game.update, Game.check_level_completion. rewrite Hs. cbn.
  destruct (Game.update_and_collide dt gm g) as [gm1 g1]. cbn.
  destruct (Game.level_complete gm1); trivial.
Qed.

Lemma update_not_playing (fuel : nat) (dt : F) (gm : Game.t F)
      (g : Random.Rng F) :
  Game.state gm <> PLAYING -> Game.update fuel dt gm g = Some (gm, g).
Proof.
  intros Hs. unfold Game.update. destruct (Game.state gm); trivial.
  congruence.
Qed.

Lemma update_and_collide_level (dt : F) (gm : Game.t F) (g : Random.Rng F) :
  Game.level (fst (Game.update_and_collide dt gm g)) = Game.level gm.
Proof.
  pose proof (counters_update_and_collide dt gm g) as H.
  unfold counters in H. congruence.
Qed.

End LevelCheck.

(** C5.  In a tick of the Playing state, let [gm1] be the game once
    collisions are resolved.  If asteroids or alien ships are left in [gm1],
    the tick returns with the level it started with.  If both lists are
    empty, the level is incremented and [start_level] runs on the
    incremented level (it returns under an oracle that lets the placement
    loop end).  The test is made once, between [check_collisions] and the
    game-over check. *)
Theorem level_advance_spec {LF : Libm float} (dt : float)
        (gm : Game.t float) (g : Random.Rng float) :
  Game.state gm = PLAYING -> fair g ->
  let gm1 := fst (Game.update_and_collide dt gm g) in
  let g1 := snd (Game.update_and_collide dt gm g) in
  (enemies_remain gm1 ->
   forall fuel,
     Game.update fuel dt gm g = Some (Game.check_game_over gm1, g1) /\
     Game.level (Game.check_game_over gm1) = Game.level gm) /\
  (Game.asteroids gm1 = [] /\ Game.alien_ships gm1 = [] ->
   exists fuel0, forall fuel, (fuel0 <= fuel)%nat ->
     exists gm2 g2,
       Game.start_level fuel (Game.set_level gm1 (Game.level gm + 1)) g1
       = Some (gm2, g2) /\
       Game.update fuel dt gm g = Some (Game.check_game_over gm2, g2) /\
       Game.level (Game.check_game_over gm2) = (Game.level gm + 1)%Z) /\
  (forall fuel gm' g',
     Game.update fuel dt gm g = Some (gm', g') ->
     Game.level gm'
     = if Game.level_complete gm1 then (Game.level gm + 1)%Z
       else Game.level gm).
Proof.
  intros Hs Hf gm1 g1.
  assert (Hl : Game.level gm1 = Game.level gm)
    by apply update_and_collide_level.
  assert (Hg : fair g1).
  { destruct (advances_update_and_collide dt gm g) as [n Hn].
    subst g1. rewrite Hn. now apply fair_skip. }
  split; [|split].
  - intros He fuel. apply level_complete_false in He.
    rewrite update_playing by assumption. cbv zeta. fold gm1 g1.
    rewrite He. split; trivial. now rewrite check_game_over_level.
  - intros He. apply level_complete_true in He.
    destruct (start_level_returns (Game.set_level gm1 (Game.level gm + 1)) g1 Hg)
      as [fuel0 H0].
    exists fuel0. intros fuel Hfuel. destruct (H0 fuel Hfuel) as (gm2 & g2 & E).
    exists gm2, g2. split; trivial.
    rewrite update_playing by assumption. cbv zeta. fold gm1 g1.
    rewrite He, Hl, E. split; trivial.
    rewrite check_game_over_level. now apply start_level_level in E.
  - intros fuel gm' g' E.
    rewrite update_playing in E by assumption. cbv zeta in E. fold gm1 g1 in E.
    destruct (Game.level_complete gm1).
    + rewrite Hl in E.
      destruct (Game.start_level _ _ g1) as [[gm2 g2]|] eqn:E2; [|discriminate].
      injection E as <- <-. rewrite check_game_over_level.
      now apply start_level_level in E2.
    + injection E as <- <-. now rewrite check_game_over_level.
Qed.

Lemma level_advance_witness :
  let gm1 := fst (Game.update_and_collide (LF := series_libm)
                    (lit 16 1000) Demo.scene DemoLevel.steady) in
  let g1 := snd (Game.update_and_collide (LF := series_libm)
                   (lit 16 1000) Demo.scene DemoLevel.steady) in
  (enemies_remain gm1 ->
   forall fuel,
     Game.update fuel (lit 16 1000) Demo.scene DemoLevel.steady
     = Some (Game.check_game_over gm1, g1) /\
     Game.level (Game.check_game_over gm1) = Game.level Demo.scene) /\
  (Game.asteroids gm1 = [] /\ Game.alien_ships gm1 = [] ->
   exists fuel0, forall fuel, (fuel0 <= fuel)%nat ->
     exists gm2 g2,
       Game.start_level fuel
         (Game.set_level gm1 (Game.level Demo.scene + 1)) g1
       = Some (gm2, g2) /\
       Game.update fuel (lit 16 1000) Demo.scene DemoLevel.steady
       = Some (Game.check_game_over gm2, g2) /\
       Game.level (Game.check_game_over gm2) = (Game.level Demo.scene + 1)%Z) /\
  (forall fuel gm' g',
     Game.update fuel (lit 16 1000) Demo.scene DemoLevel.steady
     = Some (gm', g') ->
     Game.level gm'
     = if Game.level_complete gm1 then (Game.level Demo.scene + 1)%Z
       else Game.level Demo.scene).
Proof.
  apply (@level_advance_spec series_libm (lit 16 1000) Demo.scene
           DemoLevel.steady).
  - reflexivity.
  - exact steady_fair.
Defined.

(** ** Life loss *)

Section LifeLoss.
Context {F : Type} {NF : Num F} {LF : Libm F}.

(** The game-over check on an inactive ship: one life less; at no lives
    left the state is [GAME_OVER] (and the wreck stays), otherwise a fresh
    ship takes its place; lists, score and level are untouched. *)
Lemma check_game_over_inactive (gm : Game.t F) (s : Ship.t F) :
  Game.ship gm = Some s -> GameObject.active (Ship.obj s) = false ->
  let gm' := Game.check_game_over gm in
  Game.lives gm' = (Game.lives gm - 1)%Z /\
  (if (Game.lives gm - 1 <=? 0)%Z
   then Game.state gm' = GAME_OVER /\ Game.ship gm' = Some s
   else Game.state gm' = Game.state gm /\ Game.ship gm' = Some Game.new_ship) /\
  life_loss_frame gm gm'.
Proof.
  intros Hs Ha. unfold Game.check_game_over, life_loss_frame.
  rewrite Hs, Ha. cbn.
  destruct (Game.lives gm - 1 <=? 0)%Z; cbn; repeat split; trivial.
Qed.

(** On an active ship, or with no ship, the check does nothing. *)
Lemma check_game_over_active (gm : Game.t F) :
  match Game.ship gm with
  | Some s => GameObject.active (Ship.obj s) = true
  | None => True
  end ->
  Game.check_game_over gm = gm.
Proof.
  unfold Game.check_game_over. destruct (Game.ship gm) as [s|]; trivial.
  now intros ->.
Qed.

(** X28.  A tick in which the ship is deactivated while asteroids or alien
    ships are left costs exactly one life: the game is over if that was the
    last one, and otherwise a new ship is spawned; the life-loss handling
    touches neither the lists nor the score nor the level. *)
Lemma life_lost_in_tick (fuel : nat) (dt : F) (gm : Game.t F)
      (g : Random.Rng F) (s : Ship.t F) :
  Game.state gm = PLAYING ->
  let gm1 := fst (Game.update_and_collide dt gm g) in
  Game.ship gm1 = Some s -> GameObject.active (Ship.obj s) = false ->
  enemies_remain gm1 ->
  exists gm',
    Game.update fuel dt gm g
    = Some (gm', snd (Game.update_and_collide dt gm g)) /\
    Game.lives gm' = (Game.lives gm - 1)%Z /\
    (if (Game.lives gm - 1 <=? 0)%Z
     then Game.state gm' = GAME_OVER
     else Game.state gm' = PLAYING /\ Game.ship gm' = Some Game.new_ship) /\
    life_loss_frame gm1 gm'.
Proof.
  intros Hp gm1 Hs Ha He. exists (Game.check_game_over gm1).
  rewrite update_playing by assumption. cbv zeta. fold gm1.
  apply level_complete_false in He. rewrite He.
  destruct (check_game_over_inactive gm1 s Hs Ha) as (Hl & Hst & Hfr).
  pose proof (counters_update_and_collide dt gm g) as Hc.
  fold gm1 in Hc. unfold counters in Hc. injection Hc as Hc1 Hc2 Hc3.
  rewrite Hc2 in Hl, Hst. rewrite Hc1 in Hst.
  repeat split; trivial; try apply Hfr.
  destruct (Game.lives gm - 1 <=? 0)%Z; [tauto|]. now rewrite <- Hp.
Qed.

End LifeLoss.

(** *** A ship lost on the tick that clears the level *)

(** C7, where the code departs from it.  In the scene [Wreck.scene] the
    ship has one point of health, an alien bullet is on it, and a player
    bullet is on the last asteroid.  In one tick the bullet destroys the
    asteroid, the alien bullet destroys the ship, and the level check, which
    comes before the game-over check, starts level 2 with a fresh ship: the
    game-over check finds an active ship and the lives stay at 3. *)
Theorem ship_lost_while_level_clears :
  let dt : float := lit 16 1000 in
  let gm1 := fst (Game.update_and_collide dt Wreck.scene Demo.oracle) in
  (* the ship is destroyed during the tick *)
  match Game.ship gm1 with
  | Some s => GameObject.active (Ship.obj s) = false /\ Ship.health s = 0%Z
  | None => False
  end /\
  Game.asteroids gm1 = [] /\ Game.alien_ships gm1 = [] /\
  (* and no life is taken *)
  match Game.update 10 dt Wreck.scene Demo.oracle with
  | Some (gm', _) =>
      Game.lives gm' = Game.lives Wreck.scene /\ Game.lives gm' = 3%Z /\
      Game.state gm' = PLAYING /\ Game.level gm' = 2%Z /\
      Game.score gm' = 100%Z /\
      Game.ship gm' = Some Game.new_ship /\
      length (Game.asteroids gm') = 6%nat
  | None => False
  end.
Proof. vm_compute. repeat split. Qed.


(** * Further properties

    Bullets, alien ships, the books of a tick, the input and the main
    loop.  The properties hold at every instance of [Num] unless they are
    stated for binary64. *)


(** ** The life of a bullet *)

Lemma bullet_update_cases {F} {NF : Num F} {LF : Libm F} (b : Bullet.t F)
      (dt : F) :
  let b' := Bullet.update b dt in
  Bullet.lifetime b' = (Bullet.lifetime b - dt)%py /\
  GameObject.active (Bullet.obj b')
  = (GameObject.active (Bullet.obj b)
     && negb (Bullet.lifetime b - dt <= of_Z 0)%py)%bool.
Proof.
  unfold Bullet.update. cbn.
  destruct (Bullet.lifetime b - dt <= of_Z 0)%py; cbn; split; trivial.
  - symmetry. apply andb_false_r.
  - symmetry. apply andb_true_r.
Qed.

(** X6.  After the bullet loop of a tick every bullet left in the list is
    active and has lifetime left, the list is no longer than before, and
    each bullet left is the update of a bullet that was there. *)
Theorem update_bullets_in_flight {F} {NF : Num F} {LF : Libm F}
        (l : list (Bullet.t F)) (dt : F) :
  Forall in_flight (Game.update_bullets l dt) /\
  (length (Game.update_bullets l dt) <= length l)%nat /\
  forall b', In b' (Game.update_bullets l dt) ->
             exists b, In b l /\ b' = Bullet.update b dt.
Proof.
  unfold Game.update_bullets. repeat split.
  - apply Forall_forall. intros b' Hin.
    apply filter_In in Hin. destruct Hin as [Hin Hact].
    apply in_map_iff in Hin. destruct Hin as [b [E _]]. subst b'.
    split; [exact Hact|].
    destruct (bullet_update_cases b dt) as [El Ea].
    rewrite Ea in Hact. apply andb_true_iff in Hact. destruct Hact as [_ Hl].
    rewrite El. destruct (Bullet.lifetime b - dt <= of_Z 0)%py; [discriminate|reflexivity].
  - rewrite <- (length_map (fun b => Bullet.update b dt) l).
    apply filter_length_le.
  - intros b' Hin. apply filter_In in Hin. destruct Hin as [Hin _].
    apply in_map_iff in Hin. destruct Hin as [b [E Hb]]. exists b; auto.
Qed.


(** ** The books of [check_collisions] *)

Section Accounts.
Context {F : Type} {NF : Num F} {LF : Libm F}.

Lemma for_each_length {A B} (f : A -> Random.Rand F B) (l : list A) :
  forall g, length (fst (for_each f l g)) = length l.
Proof.
  induction l as [|x l IH]; intros g; cbn; [reflexivity|].
  unfold Random.bind. destruct (f x g) as [b g1].
  specialize (IH g1). destruct (for_each f l g1) as [bs g2].
  cbn in *. now rewrite IH.
Qed.

Lemma split_length (a : Asteroid.t F) (g : Random.Rng F) :
  (length (fst (Asteroid.split a g)) <= 3)%nat.
Proof.
  unfold Asteroid.split. destruct (Asteroid.size a <=? 1)%Z; [cbn; lia|].
  unfold Random.bind.
  destruct (randint_range (F := F) 2 3 g ltac:(lia)) as [Hr _].
  destruct (Random.randint 2 3 g) as [n g1]. cbn in Hr.
  rewrite for_each_length, length_seq. lia.
Qed.

Lemma score_values_range (size : Z) :
  (20 <= Game.score_values size <= 100)%Z.
Proof.
  unfold Game.score_values.
  destruct (size =? 1)%Z; [lia|]. destruct (size =? 2)%Z; [lia|].
  destruct (size =? 3)%Z; lia.
Qed.

(** The books of the asteroid loop, by the number of bullets it removes. *)
Lemma asteroid_pass_count (bullets kept : list (Bullet.t F))
      (rocks rocks' : list (Asteroid.t F)) (score score' : Z)
      (g g' : Random.Rng F) :
  asteroid_pass bullets rocks score g kept rocks' score' g' ->
  (length kept <= length bullets)%nat /\
  (score + 20 * Z.of_nat (length bullets - length kept) <= score'
   <= score + 100 * Z.of_nat (length bullets - length kept))%Z /\
  (length rocks <= length rocks' + (length bullets - length kept)
   <= length rocks + 3 * (length bullets - length kept))%nat.
Proof.
  induction 1 as [rocks score g
                 |bullet bullets rocks score g kept rocks' score' g' Hm H IH
                 |bullet bullets rocks score g before rock after points
                    kept rocks' score' g' Hf Hp H IH].
  - cbn. lia.
  - destruct IH as (I1 & I2 & I3). cbn [length].
    replace (S (length bullets) - S (length kept))%nat
      with (length bullets - length kept)%nat by lia.
    repeat split; lia.
  - destruct IH as (I1 & I2 & I3). cbn [length].
    replace (S (length bullets) - length kept)%nat
      with (S (length bullets - length kept)) by lia.
    pose proof (split_length (Asteroid.set_active rock false) g) as Hs.
    destruct Hf as (-> & _).
    assert (Hp' : (20 <= points <= 100)%Z).
    { unfold points_for in Hp. lia. }
    rewrite !length_app in *. cbn [length] in *.
    repeat split; lia.
Qed.

(** The books of the alien loop. *)
Lemma alien_pass_count (bullets kept : list (Bullet.t F))
      (aliens aliens' : list (AlienShip.t F)) (score score' : Z) :
  alien_pass bullets aliens score kept aliens' score' ->
  (length kept <= length bullets)%nat /\
  score' = (score + 500 * Z.of_nat (length bullets - length kept))%Z /\
  (length aliens' + (length bullets - length kept) = length aliens)%nat.
Proof.
  induction 1 as [aliens score
                 |bullet bullets aliens score kept aliens' score' Hm H IH
                 |bullet bullets aliens score before alien after
                    kept aliens' score' Hf H IH].
  - cbn. lia.
  - destruct IH as (I1 & I2 & I3). cbn [length].
    replace (S (length bullets) - S (length kept))%nat
      with (length bullets - length kept)%nat by lia.
    repeat split; lia.
  - destruct IH as (I1 & I2 & I3). cbn [length].
    replace (S (length bullets) - length kept)%nat
      with (S (length bullets - length kept)) by lia.
    destruct Hf as (-> & _).
    rewrite !length_app in *. cbn [length] in *.
    repeat split; lia.
Qed.

Lemma check_collisions_counts (gm : Game.t F) (g : Random.Rng F) :
  let gm' := fst (Game.check_collisions gm g) in
  exists kept : list (Bullet.t F),
    (exists rocks score aliens,
       asteroid_pass (Game.bullets gm) (Game.asteroids gm) (Game.score gm) g
                     kept rocks score (snd (Game.check_collisions gm g)) /\
       alien_pass kept (Game.alien_ships gm) score
                  (Game.bullets gm') aliens (Game.score gm')) /\
    (length (Game.bullets gm') <= length kept <= length (Game.bullets gm))%nat /\
    hits_account gm gm'
      (length (Game.bullets gm) - length kept)
      (length kept - length (Game.bullets gm')).
Proof.
  cbv zeta.
  destruct (check_collisions_loops gm g)
    as (kept & rocks & score & aliens & Hp1 & Hp2 & Hr & Hal).
  exists kept. split; [exists rocks, score, aliens; auto|].
  destruct (asteroid_pass_count _ _ _ _ _ _ _ _ Hp1) as (A1 & A2 & A3).
  destruct (alien_pass_count _ _ _ _ _ _ Hp2) as (B1 & B2 & B3).
  apply Forall2_length in Hal.
  unfold hits_account. rewrite Hr, <- Hal.
  repeat split; lia.
Qed.

Lemma check_collisions_books (gm : Game.t F) (g : Random.Rng F) :
  exists k1 k2 : nat,
    hits_account gm (fst (Game.check_collisions gm g)) k1 k2.
Proof.
  destruct (check_collisions_counts gm g) as (kept & _ & _ & H).
  eauto.
Qed.

(** X9.  The books of one call of [check_collisions].  The asteroid loop
    keeps the bullets [kept] and removes the others, each together with the
    first asteroid it collides with; the alien loop removes from [kept] the
    bullets that collide with an alien ship, each together with the first
    such ship.  With [k1] the number of bullets the first loop removes and
    [k2] the number the second removes, [k1 + k2] player bullets leave the
    list, the score grows by 500 for each of the [k2] and by between 20 and
    100 for each of the [k1], [k2] alien ships leave their list, and the
    asteroids lose [k1] members and gain at most three children for each.
    The counts are those of the state [check_collisions] returns, after the
    ship passes. *)
Theorem check_collisions_account (gm : Game.t F) (g : Random.Rng F) :
  let gm' := fst (Game.check_collisions gm g) in
  exists kept : list (Bullet.t F),
    (exists rocks score aliens,
       asteroid_pass (Game.bullets gm) (Game.asteroids gm) (Game.score gm) g
                     kept rocks score (snd (Game.check_collisions gm g)) /\
       alien_pass kept (Game.alien_ships gm) score
                  (Game.bullets gm') aliens (Game.score gm')) /\
    (length (Game.bullets gm') <= length kept <= length (Game.bullets gm))%nat /\
    hits_account gm gm'
      (length (Game.bullets gm) - length kept)
      (length kept - length (Game.bullets gm')).
Proof. apply check_collisions_counts. Qed.

End Accounts.


(** ** One hit per frame *)

Lemma bullet_passes_ship {F} {NF : Num F} {LF : Libm F}
      (todo : list (Bullet.t F)) :
  forall (i : nat) (gm : Game.t F) (g : Random.Rng F),
    Game.ship (fst (Game.bullets_vs_asteroids todo i gm g)) = Game.ship gm /\
    Game.ship (Game.bullets_vs_aliens todo i gm) = Game.ship gm.
Proof.
  induction todo as [|b todo IH]; intros i gm g; cbn; [auto|].
  unfold Random.bind, Game.bullet_vs_asteroids, Game.bullet_vs_aliens. split.
  - destruct (first_collision _ _ (Game.asteroids gm)) as [[j a]|].
    + unfold Game.asteroid_hit, Random.bind.
      destruct (Asteroid.split _ g) as [children g1]. cbn.
      now rewrite (proj1 (IH _ _ _)).
    + cbn. now rewrite (proj1 (IH _ _ _)).
  - destruct (first_collision _ _ (Game.alien_ships gm)) as [[j a]|]; cbn;
      now rewrite (proj2 (IH _ _ g)).
Qed.

Lemma ship_exposed_ship {F} {NF : Num F} (gm gm' : Game.t F) :
  Game.ship gm' = Game.ship gm -> Game.ship_exposed gm' = Game.ship_exposed gm.
Proof. unfold Game.ship_exposed. now intros ->. Qed.

Lemma hit_ship_not_exposed (gm gm' : Game.t float) (s : Ship.t float)
      (dty : DamageType) (damage : Z) :
  Game.ship_exposed gm = Some s ->
  Game.ship gm' = Some (Game.ship_hit s dty damage) ->
  Game.ship_exposed gm' = None.
Proof.
  intros Es E. destruct (exposed_ship_hit_lands gm s dty damage Es) as (_ & Hi & _).
  unfold Game.ship_exposed. rewrite E, Hi.
  now destruct (GameObject.active _).
Qed.

Lemma ship_passes_unexposed {F} {NF : Num F} {LF : Libm F} (gm : Game.t F) :
  Game.ship_exposed gm = None ->
  Game.ship_vs_asteroids gm = gm /\ Game.ship_vs_aliens gm = gm /\
  Game.ship_vs_alien_bullets gm = gm.
Proof.
  intros E. unfold Game.ship_vs_asteroids, Game.ship_vs_aliens,
    Game.ship_vs_alien_bullets. now rewrite E.
Qed.

(** X10.  In binary64 the ship is hit at most once in a call of
    [check_collisions]: either it is as before, or it was exposed (active,
    [invulnerable_time <= 0]) and took exactly one of the three kinds of
    damage (asteroid 1, alien ship 2, alien bullet 1), which leaves it
    invulnerable for 2 seconds so that the later passes skip it. *)
Theorem ship_hit_once {LF : Libm float} (gm : Game.t float)
        (g : Random.Rng float) (s : Ship.t float) :
  Game.ship gm = Some s ->
  let gm' := fst (Game.check_collisions gm g) in
  Game.ship gm' = Some s \/
  exists (dty : DamageType) (damage : Z),
    In (dty, damage) ship_damage /\
    Game.ship_exposed gm = Some s /\
    Game.ship gm' = Some (Game.ship_hit s dty damage) /\
    Ship.health (Game.ship_hit s dty damage) = (Ship.health s - damage)%Z /\
    Ship.invulnerable_time (Game.ship_hit s dty damage) = 2%float.
Proof.
  intros Hs. unfold Game.check_collisions, Random.bind.
  pose proof (proj1 (bullet_passes_ship (Game.bullets gm) 0 gm g)) as H1.
  destruct (Game.bullets_vs_asteroids (Game.bullets gm) 0 gm g) as [gm1 g1].
  cbn in H1. cbn.
  pose proof (proj2 (bullet_passes_ship (Game.bullets gm1) 0 gm1 g)) as H2.
  set (gm2 := Game.bullets_vs_aliens (Game.bullets gm1) 0 gm1) in *.
  assert (Hs2 : Game.ship gm2 = Some s) by congruence.
  assert (He2 : Game.ship_exposed gm2 = Game.ship_exposed gm)
    by (apply ship_exposed_ship; congruence).
  clearbody gm2. clear H1 H2.
  destruct (Game.ship_exposed gm2) as [s0|] eqn:Ee.
  2:{ left. destruct (ship_passes_unexposed gm2 Ee) as (-> & -> & ->).
      exact Hs2. }
  assert (s0 = s).
  { unfold Game.ship_exposed in Ee. rewrite Hs2 in Ee.
    destruct (_ && _)%bool in Ee; congruence. }
  subst s0.
  assert (Hland : forall dty damage,
    Ship.health (Game.ship_hit s dty damage) = (Ship.health s - damage)%Z /\
    Ship.invulnerable_time (Game.ship_hit s dty damage) = 2%float).
  { intros dty damage.
    destruct (exposed_ship_hit_lands gm2 s dty damage Ee) as (A & B & _).
    auto. }
  (* ship vs asteroids *)
  unfold Game.ship_vs_asteroids. rewrite Ee.
  destruct (first_collision _ (Ship.obj s) (Game.asteroids gm2)) as [[j a]|].
  { right. exists ASTEROID, 1%Z.
    set (gm3 := Game.set_ship gm2 (Some (Game.ship_hit s ASTEROID 1))).
    assert (E3 : Game.ship_exposed gm3 = None)
      by (eapply hit_ship_not_exposed; [exact Ee|reflexivity]).
    destruct (ship_passes_unexposed gm3 E3) as (_ & -> & ->).
    destruct (Hland ASTEROID 1%Z).
    repeat split; trivial; [cbn; auto|congruence]. }
  (* ship vs aliens *)
  unfold Game.ship_vs_aliens. rewrite Ee.
  destruct (first_collision _ (Ship.obj s) (Game.alien_ships gm2)) as [[j a]|].
  { right. exists ALIEN_SHIP, 2%Z.
    match goal with |- context [Game.ship_vs_alien_bullets ?x] =>
      set (gm4 := x) end.
    assert (E4 : Game.ship_exposed gm4 = None)
      by (eapply hit_ship_not_exposed; [exact Ee|reflexivity]).
    destruct (ship_passes_unexposed gm4 E4) as (_ & _ & ->).
    destruct (Hland ALIEN_SHIP 2%Z).
    repeat split; trivial; [cbn; auto|congruence]. }
  (* ship vs alien bullets *)
  unfold Game.ship_vs_alien_bullets. rewrite Ee.
  destruct (first_collision _ (Ship.obj s) (Game.alien_bullets gm2)) as [[j a]|].
  { right. exists ALIEN_BULLET, 1%Z.
    destruct (Hland ALIEN_BULLET 1%Z).
    repeat split; trivial; [cbn; auto|congruence]. }
  left. exact Hs2.
Qed.

Lemma ship_hit_once_witness :
  let gm' := fst (Game.check_collisions (LF := series_libm)
                    Wreck.scene Demo.oracle) in
  Game.ship gm' = Some Wreck.ship \/
  exists (dty : DamageType) (damage : Z),
    In (dty, damage) ship_damage /\
    Game.ship_exposed Wreck.scene = Some Wreck.ship /\
    Game.ship gm' = Some (Game.ship_hit Wreck.ship dty damage) /\
    Ship.health (Game.ship_hit Wreck.ship dty damage)
    = (Ship.health Wreck.ship - damage)%Z /\
    Ship.invulnerable_time (Game.ship_hit Wreck.ship dty damage) = 2%float.
Proof.
  apply (@ship_hit_once series_libm Wreck.scene Demo.oracle Wreck.ship).
  reflexivity.
Defined.


(** ** Alien ships: spawning and the alien loop *)

Section Aliens.
Context {F : Type} {NF : Num F} {LF : Libm F}.

Lemma alien_init_fresh (x y : Z) (g : Random.Rng F) :
  fresh_alien x y (fst (AlienShip.init (of_Z x) (of_Z y) g)).
Proof. unfold fresh_alien. cbn. repeat split. Qed.

Lemma spawn_alien_spec (gm : Game.t F) (g : Random.Rng F) :
  let gm' := fst (Game.spawn_alien gm g) in
  alien_frame gm gm' /\
  Game.alien_bullets gm' = Game.alien_bullets gm /\
  Game.alien_spawn_timer gm' = Game.alien_spawn_timer gm /\
  exists (x y : Z) (alien : AlienShip.t F),
    Game.alien_ships gm' = Game.alien_ships gm ++ [alien] /\
    on_edge x y /\ fresh_alien x y alien.
Proof.
  unfold Game.spawn_alien, Random.bind.
  destruct (Random.randint 0 3 g) as [side g1].
  assert (Hw : forall g0, (0 <= fst (Random.randint (F := F) 0 SCREEN_WIDTH g0)
                           <= SCREEN_WIDTH)%Z)
    by (intros g0; apply randint_range; unfold SCREEN_WIDTH; lia).
  assert (Hh : forall g0, (0 <= fst (Random.randint (F := F) 0 SCREEN_HEIGHT g0)
                           <= SCREEN_HEIGHT)%Z)
    by (intros g0; apply randint_range; unfold SCREEN_HEIGHT; lia).
  assert (H0w : (0 <= SCREEN_WIDTH)%Z) by (unfold SCREEN_WIDTH; lia).
  assert (H0h : (0 <= SCREEN_HEIGHT)%Z) by (unfold SCREEN_HEIGHT; lia).
  destruct (side =? 0)%Z; [|destruct (side =? 1)%Z; [|destruct (side =? 2)%Z]].
  - specialize (Hw g1). destruct (Random.randint 0 SCREEN_WIDTH g1) as [x g2].
    cbn -[AlienShip.init SCREEN_WIDTH SCREEN_HEIGHT] in *.
    pose proof (alien_init_fresh x 0 g2) as Hf.
    destruct (AlienShip.init (of_Z x) (of_Z 0) g2) as [alien g3].
    cbn -[SCREEN_WIDTH SCREEN_HEIGHT] in *.
    split; [repeat split|]. do 2 (split; [reflexivity|]).
    exists x, 0%Z, alien. split; [reflexivity|]. split; [|exact Hf].
    unfold on_edge. repeat split; auto; lia.
  - specialize (Hh g1). destruct (Random.randint 0 SCREEN_HEIGHT g1) as [y g2].
    cbn -[AlienShip.init SCREEN_WIDTH SCREEN_HEIGHT] in *.
    pose proof (alien_init_fresh SCREEN_WIDTH y g2) as Hf.
    destruct (AlienShip.init (of_Z SCREEN_WIDTH) (of_Z y) g2) as [alien g3].
    cbn -[SCREEN_WIDTH SCREEN_HEIGHT] in *.
    split; [repeat split|]. do 2 (split; [reflexivity|]).
    exists SCREEN_WIDTH, y, alien. split; [reflexivity|]. split; [|exact Hf].
    unfold on_edge. repeat split; auto; lia.
  - specialize (Hw g1). destruct (Random.randint 0 SCREEN_WIDTH g1) as [x g2].
    cbn -[AlienShip.init SCREEN_WIDTH SCREEN_HEIGHT] in *.
    pose proof (alien_init_fresh x SCREEN_HEIGHT g2) as Hf.
    destruct (AlienShip.init (of_Z x) (of_Z SCREEN_HEIGHT) g2) as [alien g3].
    cbn -[SCREEN_WIDTH SCREEN_HEIGHT] in *.
    split; [repeat split|]. do 2 (split; [reflexivity|]).
    exists x, SCREEN_HEIGHT, alien. split; [reflexivity|]. split; [|exact Hf].
    unfold on_edge. repeat split; auto; lia.
  - specialize (Hh g1). destruct (Random.randint 0 SCREEN_HEIGHT g1) as [y g2].
    cbn -[AlienShip.init SCREEN_WIDTH SCREEN_HEIGHT] in *.
    pose proof (alien_init_fresh 0 y g2) as Hf.
    destruct (AlienShip.init (of_Z 0) (of_Z y) g2) as [alien g3].
    cbn -[SCREEN_WIDTH SCREEN_HEIGHT] in *.
    split; [repeat split|]. do 2 (split; [reflexivity|]).
    exists 0%Z, y, alien. split; [reflexivity|]. split; [|exact Hf].
    unfold on_edge. repeat split; auto; lia.
Qed.

(** X11.  The spawn phase of a tick adds [dt] to the spawn timer; when the
    timer has reached the interval, exactly one alien ship is appended, at
    a point with integer coordinates on the border of the screen (the
    edges [x = 800] and [y = 600] included), active, with radius 12 and
    fresh timers, and the spawn timer is reset to 0; otherwise nothing
    else changes and no random number is drawn. *)
Theorem spawn_aliens_spec (gm : Game.t F) (dt : F) (g : Random.Rng F) :
  let gm' := fst (Game.spawn_aliens gm dt g) in
  let t := (Game.alien_spawn_timer gm + dt)%py in
  alien_frame gm gm' /\
  Game.alien_bullets gm' = Game.alien_bullets gm /\
  if (t >= Game.alien_spawn_interval gm)%py then
    Game.alien_spawn_timer gm' = of_Z 0 /\
    exists (x y : Z) (alien : AlienShip.t F),
      Game.alien_ships gm' = Game.alien_ships gm ++ [alien] /\
      on_edge x y /\ fresh_alien x y alien
  else
    Game.spawn_aliens gm dt g
    = (Game.set_alien_spawn_timer gm t, g).
Proof.
  cbv zeta. unfold Game.spawn_aliens.
  cbn [Game.alien_spawn_timer Game.alien_spawn_interval Game.set_alien_spawn_timer].
  destruct (_ >= _)%py.
  - unfold Random.bind.
    match goal with |- context [Game.spawn_alien ?gm0 g] =>
      pose proof (spawn_alien_spec gm0 g) as H;
      destruct (Game.spawn_alien gm0 g) as [gm1 g1]
    end.
    cbn in H. destruct H as (Hfr & Hab & _ & x & y & alien & Hal & He & Hf).
    cbn. unfold alien_frame in *. cbn.
    split; [tauto|]. split; [exact Hab|]. split; [reflexivity|].
    exists x, y, alien. auto.
  - cbn. unfold alien_frame. cbn. repeat split.
Qed.

End Aliens.


Section AlienLoop.
Context {F : Type} {NF : Num F} {LF : Libm F}.

Lemma remove_at_middle {A} (l1 : list A) (a : A) (l2 : list A) :
  remove_at (length l1) (l1 ++ a :: l2) = l1 ++ l2.
Proof. induction l1 as [|b l1 IH]; cbn; [reflexivity|]. now rewrite IH. Qed.

Lemma replace_at_middle {A} (l1 : list A) (a v : A) (l2 : list A) :
  replace_at (length l1) v (l1 ++ a :: l2) = l1 ++ v :: l2.
Proof. induction l1 as [|b l1 IH]; cbn; [reflexivity|]. now rewrite IH. Qed.

Lemma alien_update_active (a : AlienShip.t F) (dt : F) (g : Random.Rng F) :
  GameObject.active (AlienShip.obj (fst (AlienShip.update a dt g)))
  = GameObject.active (AlienShip.obj a).
Proof.
  unfold AlienShip.update, Random.bind.
  destruct (_ >= _)%py; reflexivity.
Qed.

Lemma should_shoot_obj (a : AlienShip.t F) (g : Random.Rng F) :
  AlienShip.obj (fst (fst (AlienShip.should_shoot a g))) = AlienShip.obj a.
Proof.
  unfold AlienShip.should_shoot, Random.bind.
  destruct (_ >= _)%py; reflexivity.
Qed.

Lemma bullet_init_fresh (x y rotation : F) :
  fresh_bullet (Bullet.init x y rotation).
Proof. unfold fresh_bullet. cbn. auto. Qed.

Lemma update_aliens_loop (todo : list (AlienShip.t F)) (dt : F) :
  forall (done : list (AlienShip.t F)) (gm : Game.t F) (g : Random.Rng F),
    Game.alien_ships gm = done ++ todo ->
    Forall (fun a => GameObject.active (AlienShip.obj a) = true) done ->
    let gm' := fst (Game.update_aliens todo (length done) dt gm g) in
    alien_frame gm gm' /\
    Game.alien_spawn_timer gm' = Game.alien_spawn_timer gm /\
    Forall (fun a => GameObject.active (AlienShip.obj a) = true)
           (Game.alien_ships gm') /\
    (exists kept, Game.alien_ships gm' = done ++ kept /\
                  (length kept <= length todo)%nat /\
                  exists fired,
                    Game.alien_bullets gm' = Game.alien_bullets gm ++ fired /\
                    (length fired <= length kept)%nat /\
                    Forall fresh_bullet fired /\
                    (ship_active gm = false -> fired = [])).
Proof.
  induction todo as [|a todo IH]; intros done gm g E Hd; cbn.
  - unfold alien_frame. repeat split; trivial.
    + rewrite E, app_nil_r. exact Hd.
    + exists []. split; [exact E|]. split; [cbn; lia|].
      exists []. rewrite app_nil_r. repeat split; auto.
  - unfold Random.bind.
    pose proof (alien_update_active a dt g) as Ha.
    destruct (AlienShip.update a dt g) as [a1 g1]. cbn in Ha.
    destruct (GameObject.active (AlienShip.obj a1)) eqn:Ea1; cbn [negb].
    + (* the alien stays *)
      pose proof (should_shoot_obj a1 g1) as Ho.
      destruct (AlienShip.should_shoot a1 g1) as [[a2 shoot] g2]. cbn in Ho.
      assert (Ea2 : GameObject.active (AlienShip.obj a2) = true)
        by (rewrite Ho; exact Ea1).
      assert (Hd' : Forall (fun a => GameObject.active (AlienShip.obj a) = true)
                           (done ++ [a2])).
      { apply Forall_app. split; [exact Hd|]. constructor; [exact Ea2|constructor]. }
      assert (El : length (done ++ [a2]) = S (length done))
        by (rewrite length_app; cbn; lia).
      set (gm1 := Game.set_alien_ships gm
                    (replace_at (length done) a2 (Game.alien_ships gm))).
      assert (E1 : Game.alien_ships gm1 = (done ++ [a2]) ++ todo).
      { unfold gm1. cbn. rewrite E, replace_at_middle, <- app_assoc.
        reflexivity. }
      assert (Hstep : forall (gmx : Game.t F) (gx : Random.Rng F) (new : list (Bullet.t F)),
        Game.alien_ships gmx = (done ++ [a2]) ++ todo ->
        alien_frame gm gmx ->
        Game.alien_spawn_timer gmx = Game.alien_spawn_timer gm ->
        Game.alien_bullets gmx = Game.alien_bullets gm ++ new ->
        (length new <= 1)%nat -> Forall fresh_bullet new ->
        (ship_active gm = false -> new = []) ->
        let gm' := fst (Game.update_aliens todo (S (length done)) dt gmx gx) in
        alien_frame gm gm' /\
        Game.alien_spawn_timer gm' = Game.alien_spawn_timer gm /\
        Forall (fun a => GameObject.active (AlienShip.obj a) = true)
               (Game.alien_ships gm') /\
        (exists kept, Game.alien_ships gm' = done ++ kept /\
                      (length kept <= S (length todo))%nat /\
                      exists fired,
                        Game.alien_bullets gm' = Game.alien_bullets gm ++ fired /\
                        (length fired <= length kept)%nat /\
                        Forall fresh_bullet fired /\
                        (ship_active gm = false -> fired = []))).
      { intros gmx gx new Ex Hfr Ht Hb Hn Hfb Hna.
        rewrite <- El.
        destruct (IH (done ++ [a2]) gmx gx Ex Hd')
          as (Hfr' & Ht' & Hall & kept & Ek & Hk & fired & Ef & Hfl & Hff & Hfa).
        cbv zeta.
        split.
        { unfold alien_frame in *. intuition congruence. }
        split; [congruence|]. split; [exact Hall|].
        exists (a2 :: kept). split; [rewrite Ek, <- app_assoc; reflexivity|].
        split; [cbn; lia|].
        exists (new ++ fired). split; [rewrite Ef, Hb, <- app_assoc; reflexivity|].
        split; [rewrite length_app; cbn; lia|].
        split; [apply Forall_app; auto|].
        intros Hsa. rewrite (Hna Hsa). cbn. apply Hfa.
        unfold ship_active in *. destruct Hfr as (_ & _ & _ & _ & Hs & _).
        rewrite Hs. exact Hsa. }
      assert (Hfr1 : alien_frame gm gm1) by (unfold alien_frame; cbn; repeat split).
      fold gm1.
      assert (Hquiet :
        let gm' := fst (Game.update_aliens todo (S (length done)) dt gm1 g2) in
        alien_frame gm gm' /\
        Game.alien_spawn_timer gm' = Game.alien_spawn_timer gm /\
        Forall (fun a => GameObject.active (AlienShip.obj a) = true)
               (Game.alien_ships gm') /\
        (exists kept, Game.alien_ships gm' = done ++ kept /\
                      (length kept <= S (length todo))%nat /\
                      exists fired,
                        Game.alien_bullets gm' = Game.alien_bullets gm ++ fired /\
                        (length fired <= length kept)%nat /\
                        Forall fresh_bullet fired /\
                        (ship_active gm = false -> fired = []))).
      { apply (Hstep gm1 g2 []);
          [exact E1|exact Hfr1|reflexivity|cbn; now rewrite app_nil_r
          |cbn; lia|constructor|reflexivity]. }
      destruct shoot.
      * change (Game.ship gm1) with (Game.ship gm).
        destruct (Game.ship gm) as [s|] eqn:Es.
        -- destruct (GameObject.active (Ship.obj s)) eqn:Eact.
           ++ destruct (AlienShip.get_shoot_angle a2 _ g2) as [angle g3].
              match goal with
              | |- context [Game.set_alien_bullets gm1 (_ ++ [?b])] =>
                  apply (Hstep (Game.set_alien_bullets gm1
                                  (Game.alien_bullets gm1 ++ [b])) g3 [b])
              end.
              ** exact E1.
              ** unfold alien_frame. cbn. repeat split.
              ** reflexivity.
              ** reflexivity.
              ** cbn. lia.
              ** constructor; [apply bullet_init_fresh|constructor].
              ** unfold ship_active. rewrite Es, Eact. discriminate.
           ++ exact Hquiet.
        -- exact Hquiet.
      * exact Hquiet.
    + (* the alien was deactivated: it leaves the list *)
      set (gm1 := Game.set_alien_ships gm
                    (remove_at (length done) (Game.alien_ships gm))).
      assert (E1 : Game.alien_ships gm1 = done ++ todo).
      { unfold gm1. cbn. rewrite E. apply remove_at_middle. }
      destruct (IH done gm1 g1 E1 Hd)
        as (Hfr' & Ht' & Hall & kept & Ek & Hk & fired & Ef & Hfl & Hff & Hfa).
      split; [exact Hfr'|]. split; [exact Ht'|]. split; [exact Hall|].
      exists kept. split; [exact Ek|]. split; [lia|].
      exists fired. auto.
Qed.

(** X12.  After the alien loop of a tick every alien ship in the list is
    active (an alien deactivated by a collision with the ship is removed
    here, on the tick after the collision), no alien is added, the alien
    bullets are the old ones followed by at most one new bullet per alien,
    each with lifetime 2 and radius 2, and no alien fires unless the
    player's ship is there and active. *)
Theorem update_aliens_sweep (gm : Game.t F) (dt : F) (g : Random.Rng F) :
  let gm' := fst (Game.update_aliens (Game.alien_ships gm) 0 dt gm g) in
  Forall (fun a => GameObject.active (AlienShip.obj a) = true)
         (Game.alien_ships gm') /\
  (length (Game.alien_ships gm') <= length (Game.alien_ships gm))%nat /\
  alien_frame gm gm' /\
  exists fired,
    Game.alien_bullets gm' = Game.alien_bullets gm ++ fired /\
    (length fired <= length (Game.alien_ships gm'))%nat /\
    Forall fresh_bullet fired /\
    (ship_active gm = false -> fired = []).
Proof.
  destruct (update_aliens_loop (Game.alien_ships gm) dt [] gm g eq_refl
              ltac:(constructor))
    as (Hfr & _ & Hall & kept & Ek & Hk & fired & Ef & Hfl & Hff & Hfa).
  cbn [length] in *. cbv zeta.
  split; [exact Hall|]. split; [rewrite Ek; cbn; exact Hk|].
  split; [exact Hfr|].
  exists fired. rewrite Ek. cbn. auto.
Qed.

End AlienLoop.


(** ** The counters over a tick *)

Section TickCounters.
Context {F : Type} {NF : Num F} {LF : Libm F}.

Lemma start_level_frame (fuel : nat) (gm gm' : Game.t F)
      (g g' : Random.Rng F) :
  Game.start_level fuel gm g = Some (gm', g') ->
  Game.state gm' = Game.state gm /\ Game.score gm' = Game.score gm /\
  Game.lives gm' = Game.lives gm /\ Game.level gm' = Game.level gm /\
  Game.ship gm' = Some Game.new_ship.
Proof.
  unfold Game.start_level.
  destruct (Game.place_asteroids _ _ _ _) as [[l g1]|]; [|discriminate].
  intros E; injection E as <- <-. cbn. auto.
Qed.

Lemma spawn_aliens_frame (gm : Game.t F) (dt : F) (g : Random.Rng F) :
  alien_frame gm (fst (Game.spawn_aliens gm dt g)).
Proof.
  unfold Game.spawn_aliens.
  destruct (_ >= _)%py; [|unfold alien_frame; cbn; repeat split].
  unfold Random.bind.
  match goal with |- context [Game.spawn_alien ?gm0 g] =>
    pose proof (spawn_alien_spec gm0 g) as H;
    destruct (Game.spawn_alien gm0 g) as [gm1 g1]
  end.
  cbn in H. destruct H as (Hfr & _). unfold alien_frame in *. cbn in *.
  tauto.
Qed.

Lemma update_and_collide_score (dt : F) (gm : Game.t F) (g : Random.Rng F) :
  (Game.score gm <= Game.score (fst (Game.update_and_collide dt gm g)))%Z.
Proof.
  unfold Game.update_and_collide, Random.bind.
  match goal with |- context [Game.update_aliens ?l ?i dt ?gm0 g] =>
    assert (H0 : Game.score gm0 = Game.score gm)
      by (unfold Game.update_ship; now destruct (Game.ship gm));
    pose proof (update_aliens_loop l dt [] gm0 g eq_refl ltac:(constructor))
      as H1;
    cbn [length] in H1; cbv zeta in H1; destruct H1 as (H1 & _);
    destruct (Game.update_aliens l i dt gm0 g) as [gm1 g1]
  end.
  cbn [fst] in H1.
  match goal with |- context [Game.spawn_aliens ?gm0 dt g1] =>
    pose proof (spawn_aliens_frame gm0 dt g1) as H2;
    destruct (Game.spawn_aliens gm0 dt g1) as [gm2 g2]
  end.
  unfold alien_frame in H1, H2. cbn in H1, H2.
  destruct H1 as (_ & H1 & _). destruct H2 as (_ & H2 & _).
  destruct (check_collisions_books gm2 g2) as (k1 & k2 & _ & Hs & _).
  cbn in H0. lia.
Qed.

Lemma check_game_over_counters (gm : Game.t F) :
  let gm' := Game.check_game_over gm in
  Game.score gm' = Game.score gm /\ Game.level gm' = Game.level gm /\
  ((Game.state gm' = Game.state gm /\ Game.lives gm' = Game.lives gm) \/
   (Game.lives gm' = (Game.lives gm - 1)%Z /\
    ((Game.lives gm - 1 <= 0)%Z /\ Game.state gm' = GAME_OVER \/
     (0 < Game.lives gm - 1)%Z /\ Game.state gm' = Game.state gm))).
Proof.
  unfold Game.check_game_over.
  destruct (Game.ship gm) as [s|]; [|cbn; auto].
  destruct (negb _); [|cbn; auto].
  cbn. destruct (Game.lives gm - 1 <=? 0)%Z eqn:E; cbn.
  - apply Z.leb_le in E.
    split; [reflexivity|]. split; [reflexivity|]. right.
    split; [reflexivity|]. left. split; [exact E|reflexivity].
  - apply Z.leb_gt in E.
    split; [reflexivity|]. split; [reflexivity|]. right.
    split; [reflexivity|]. right. split; [exact E|reflexivity].
Qed.

Lemma update_tick_counters (fuel : nat) (dt : F) (gm gm' : Game.t F)
      (g g' : Random.Rng F) :
  Game.update fuel dt gm g = Some (gm', g') -> tick_counters gm gm'.
Proof.
  intros E. destruct (Game.state gm) eqn:Est;
    try (rewrite update_not_playing in E by congruence;
         injection E as <- <-; unfold tick_counters; repeat split; auto; lia).
  rewrite update_playing in E by exact Est. cbv zeta in E.
  pose proof (update_and_collide_score dt gm g) as Hsc.
  pose proof (counters_update_and_collide dt gm g) as Hc.
  unfold counters in Hc. injection Hc as Hst Hli Hle.
  set (gm1 := fst (Game.update_and_collide dt gm g)) in *.
  assert (Hfin : forall gm2 : Game.t F,
    Game.state gm2 = PLAYING -> Game.lives gm2 = Game.lives gm ->
    (Game.score gm <= Game.score gm2)%Z ->
    (Game.level gm2 = Game.level gm \/ Game.level gm2 = (Game.level gm + 1)%Z) ->
    tick_counters gm (Game.check_game_over gm2)).
  { intros gm2 Hs2 Hl2 Hsc2 Hle2.
    destruct (check_game_over_counters gm2) as (A & B & C).
    unfold tick_counters. rewrite A, B, Est.
    split; [exact Hsc2|]. split; [exact Hle2|].
    destruct C as [[C1 C2]|[C1 [[C2 C3]|[C2 C3]]]].
    - left. split; congruence.
    - right. split; [reflexivity|]. split; [congruence|].
      rewrite <- Hl2. apply Z.leb_le in C2. rewrite C2. exact C3.
    - right. split; [reflexivity|]. split; [congruence|].
      rewrite <- Hl2. apply Z.leb_gt in C2. rewrite C2. congruence. }
  destruct (Game.level_complete gm1).
  - destruct (Game.start_level fuel _ _) as [[gm2 g2]|] eqn:Esl; [|discriminate].
    injection E as <- <-.
    destruct (start_level_frame _ _ _ _ _ Esl) as (A & B & C & D & _).
    cbn in A, B, C, D.
    apply Hfin; try congruence. right. congruence.
  - injection E as <- <-. apply Hfin; try congruence. left. congruence.
Qed.

End TickCounters.

(** X14.  Over a tick the score never goes down, the level is kept or
    raised by one, and the lives and the state are kept unless one life is
    lost while playing; the game is over after the tick exactly when that
    life was the last.  A tick never sets the state to the menu or to
    paused. *)
Theorem update_counters {F} {NF : Num F} {LF : Libm F} (fuel : nat) (dt : F)
        (gm gm' : Game.t F) (g g' : Random.Rng F) :
  Game.update fuel dt gm g = Some (gm', g') -> tick_counters gm gm'.
Proof. apply update_tick_counters. Qed.

Lemma update_counters_witness :
  exists gm' g',
    Game.update (LF := series_libm) 10 (lit 16 1000) Wreck.scene Demo.oracle
    = Some (gm', g') /\
    tick_counters Wreck.scene gm'.
Proof.
  destruct (Game.update (LF := series_libm) 10 (lit 16 1000) Wreck.scene
              Demo.oracle) as [[gm' g']|] eqn:E.
  - exists gm', g'. split; [reflexivity|].
    apply (@update_counters float binary64 series_libm 10 (lit 16 1000)
             Wreck.scene gm' Demo.oracle g' E).
  - exfalso. vm_compute in E. discriminate.
Defined.


(** ** The sizes of the asteroids *)

Section Sizes.
Context {F : Type} {NF : Num F} {LF : Libm F}.

Lemma for_each_Forall {A B} (P : B -> Prop) (f : A -> Random.Rand F B)
      (l : list A) :
  (forall x g, P (fst (f x g))) ->
  forall g, Forall P (fst (for_each f l g)).
Proof.
  intros Hf. induction l as [|x l IH]; intros g; cbn; [constructor|].
  unfold Random.bind. pose proof (Hf x g) as Hx.
  destruct (f x g) as [b g1]. specialize (IH g1).
  destruct (for_each f l g1) as [bs g2]. cbn in *. now constructor.
Qed.

Lemma asteroid_init_size (x y : F) (size : Z) (g : Random.Rng F) :
  Asteroid.size (fst (Asteroid.init x y size g)) = size /\
  GameObject.radius (Asteroid.obj (fst (Asteroid.init x y size g)))
  = (10 + size * 8)%Z.
Proof.
  unfold Asteroid.init, Random.bind.
  destruct (Random.uniform _ _ g) as [r g1].
  destruct (Random.uniform _ _ g1) as [s g2].
  destruct (Random.uniform _ _ g2) as [a g3].
  destruct (for_each _ _ g3) as [sh g4]. cbn. auto.
Qed.

Lemma split_well_sized (a : Asteroid.t F) (g : Random.Rng F) :
  well_sized a -> Forall well_sized (fst (Asteroid.split a g)).
Proof.
  intros [Hs Hr]. unfold Asteroid.split.
  destruct (Asteroid.size a <=? 1)%Z eqn:E; [constructor|].
  apply Z.leb_gt in E. unfold Random.bind.
  destruct (Random.randint 2 3 g) as [n g1].
  apply for_each_Forall. intros _ g0.
  unfold Asteroid.split_one, Random.bind.
  match goal with |- context [Asteroid.init ?x ?y ?s g0] =>
    destruct (asteroid_init_size x y s g0) as [A B];
    destruct (Asteroid.init x y s g0) as [c g2]
  end.
  destruct (Random.uniform _ _ g2) as [sp g3].
  destruct (Random.uniform _ _ g3) as [an g4].
  cbn in *. unfold well_sized. cbn. rewrite A, B. split; [lia|reflexivity].
Qed.

Lemma remove_at_Forall {A} (P : A -> Prop) (i : nat) (l : list A) :
  Forall P l -> Forall P (remove_at i l).
Proof.
  intros H. revert i. induction H as [|a l Ha Hl IH]; intros [|i]; cbn;
    auto.
Qed.

Lemma bullets_vs_asteroids_sizes (todo : list (Bullet.t F)) :
  forall (i : nat) (gm : Game.t F) (g : Random.Rng F),
    Forall well_sized (Game.asteroids gm) ->
    Forall well_sized
      (Game.asteroids (fst (Game.bullets_vs_asteroids todo i gm g))).
Proof.
  induction todo as [|b todo IH]; intros i gm g H; cbn; [exact H|].
  unfold Random.bind, Game.bullet_vs_asteroids.
  destruct (first_collision _ _ _) as [[j a]|] eqn:E; [|now apply IH].
  apply first_collision_some in E. destruct E as (Hn & _).
  apply nth_error_In in Hn.
  assert (Ha : well_sized a) by (eapply Forall_forall; eauto).
  unfold Game.asteroid_hit, Random.bind.
  pose proof (split_well_sized (Asteroid.set_active a false) g Ha) as Hc.
  destruct (Asteroid.split _ g) as [children g1]. cbn in Hc. cbn.
  apply IH. cbn. apply remove_at_Forall, Forall_app. auto.
Qed.

Lemma bullets_vs_aliens_asteroids (todo : list (Bullet.t F)) :
  forall (i : nat) (gm : Game.t F),
    Game.asteroids (Game.bullets_vs_aliens todo i gm) = Game.asteroids gm.
Proof.
  induction todo as [|b todo IH]; intros i gm; cbn; [reflexivity|].
  unfold Game.bullet_vs_aliens.
  destruct (first_collision _ _ _) as [[j a]|]; cbn; now rewrite IH.
Qed.

Lemma check_collisions_sizes (gm : Game.t F) (g : Random.Rng F) :
  Forall well_sized (Game.asteroids gm) ->
  Forall well_sized (Game.asteroids (fst (Game.check_collisions gm g))).
Proof.
  intros H. unfold Game.check_collisions, Random.bind.
  pose proof (bullets_vs_asteroids_sizes (Game.bullets gm) 0 gm g H) as H1.
  destruct (Game.bullets_vs_asteroids _ _ gm g) as [gm1 g1]. cbn in *.
  destruct (ship_passes_frame
              (Game.bullets_vs_aliens (Game.bullets gm1) 0 gm1))
    as (_ & B & _).
  cbv zeta in B. rewrite B, bullets_vs_aliens_asteroids. exact H1.
Qed.

Lemma update_and_collide_sizes (dt : F) (gm : Game.t F) (g : Random.Rng F) :
  Forall well_sized (Game.asteroids gm) ->
  Forall well_sized (Game.asteroids (fst (Game.update_and_collide dt gm g))).
Proof.
  intros H. unfold Game.update_and_collide, Random.bind.
  match goal with |- context [Game.update_aliens ?l ?i dt ?gm0 g] =>
    assert (H0 : Forall well_sized (Game.asteroids gm0));
    [|pose proof (update_aliens_loop l dt [] gm0 g eq_refl ltac:(constructor))
        as H1;
      cbn [length] in H1; cbv zeta in H1; destruct H1 as (H1 & _);
      destruct (Game.update_aliens l i dt gm0 g) as [gm1 g1]]
  end.
  { cbn. unfold Game.update_asteroids. apply Forall_map.
    replace (Game.asteroids (Game.update_ship gm dt)) with (Game.asteroids gm)
      by (unfold Game.update_ship; now destruct (Game.ship gm)).
    eapply Forall_impl; [|exact H]. intros a [Hs Hr]. split; assumption. }
  cbn [fst] in H1.
  match goal with |- context [Game.spawn_aliens ?gm0 dt g1] =>
    pose proof (spawn_aliens_frame gm0 dt g1) as H2;
    destruct (Game.spawn_aliens gm0 dt g1) as [gm2 g2]
  end.
  apply check_collisions_sizes.
  unfold alien_frame in H1, H2. cbn [fst] in H2.
  destruct H1 as (_ & _ & _ & _ & _ & _ & H1 & _).
  destruct H2 as (_ & _ & _ & _ & _ & _ & H2 & _).
  rewrite H2. cbn. rewrite H1. exact H0.
Qed.

Lemma place_asteroid_size (fuel : nat) (ship : Ship.t F) :
  forall (g g' : Random.Rng F) (a : Asteroid.t F),
    Game.place_asteroid fuel ship g = Some (a, g') -> well_sized a.
Proof.
  induction fuel as [|fuel IH]; intros g g' a; cbn [Game.place_asteroid];
    [discriminate|].
  destruct (Random.randint _ _ g) as [x g1].
  destruct (Random.randint _ _ g1) as [y g2].
  destruct (_ > _)%py; [|apply IH].
  destruct (asteroid_init_size (of_Z x) (of_Z y) 3 g2) as [A B].
  destruct (Asteroid.init (of_Z x) (of_Z y) 3 g2) as [a0 g3].
  cbn [fst] in A, B.
  intros E; injection E as <- <-. unfold well_sized. rewrite A, B.
  split; [lia|reflexivity].
Qed.

Lemma place_asteroids_sizes (fuel n : nat) (ship : Ship.t F) :
  forall (g g' : Random.Rng F) (l : list (Asteroid.t F)),
    Game.place_asteroids fuel n ship g = Some (l, g') -> Forall well_sized l.
Proof.
  induction n as [|n IH]; intros g g' l; cbn.
  - intros E; injection E as <- <-. constructor.
  - destruct (Game.place_asteroid fuel ship g) as [[a g1]|] eqn:Ea;
      [|discriminate].
    destruct (Game.place_asteroids fuel n ship g1) as [[l1 g2]|] eqn:El;
      [|discriminate].
    intros E; injection E as <- <-. constructor.
    + eapply place_asteroid_size; eauto.
    + eapply IH; eauto.
Qed.

Lemma start_level_sizes (fuel : nat) (gm gm' : Game.t F)
      (g g' : Random.Rng F) :
  Game.start_level fuel gm g = Some (gm', g') ->
  Forall well_sized (Game.asteroids gm').
Proof.
  unfold Game.start_level.
  destruct (Game.place_asteroids _ _ _ _) as [[l g1]|] eqn:E; [|discriminate].
  intros E'; injection E' as <- <-. cbn.
  eapply place_asteroids_sizes; eauto.
Qed.

Lemma check_game_over_asteroids (gm : Game.t F) :
  Game.asteroids (Game.check_game_over gm) = Game.asteroids gm.
Proof.
  unfold Game.check_game_over.
  destruct (Game.ship gm) as [s|]; [|reflexivity].
  destruct (negb _); [|reflexivity].
  cbn. now destruct (_ <=? _)%Z.
Qed.

(** X15.  The sizes of the asteroids are an invariant of the tick: if every
    asteroid has size 1, 2 or 3 and the radius [10 + 8 * size] of its size
    before [Game.update], so has every asteroid after it, the children of
    the asteroids shot and the asteroids of a new level included. *)
Theorem update_keeps_sizes (fuel : nat) (dt : F) (gm gm' : Game.t F)
        (g g' : Random.Rng F) :
  Forall well_sized (Game.asteroids gm) ->
  Game.update fuel dt gm g = Some (gm', g') ->
  Forall well_sized (Game.asteroids gm').
Proof.
  intros H E. destruct (Game.state gm) eqn:Est;
    try (rewrite update_not_playing in E by congruence;
         injection E as <- <-; exact H).
  rewrite update_playing in E by exact Est. cbv zeta in E.
  pose proof (update_and_collide_sizes dt gm g H) as H1.
  destruct (Game.level_complete _).
  - destruct (Game.start_level fuel _ _) as [[gm2 g2]|] eqn:Esl; [|discriminate].
    injection E as <- <-. rewrite check_game_over_asteroids.
    eapply start_level_sizes; eauto.
  - injection E as <- <-. now rewrite check_game_over_asteroids.
Qed.

End Sizes.

Lemma update_keeps_sizes_witness :
  exists gm' g',
    Game.update (LF := series_libm) 10 (lit 16 1000) Demo.scene Demo.oracle
    = Some (gm', g') /\
    Forall well_sized (Game.asteroids gm').
Proof.
  destruct (Game.update (LF := series_libm) 10 (lit 16 1000) Demo.scene
              Demo.oracle) as [[gm' g']|] eqn:E.
  - exists gm', g'. split; [reflexivity|].
    apply (@update_keeps_sizes float binary64 series_libm 10 (lit 16 1000)
             Demo.scene gm' Demo.oracle g'); [|exact E].
    assert (Hr : forall x y size, (1 <= size <= 3)%Z ->
                                  well_sized (Demo.rock x y size)).
    { intros x y size Hs. unfold Demo.rock.
      destruct (asteroid_init_size (LF := series_libm) x y size Demo.oracle)
        as [A B].
      unfold well_sized. rewrite A, B. auto. }
    unfold Demo.scene. cbn [Game.asteroids].
    repeat (constructor; [apply Hr; lia|]). constructor.
  - exfalso. vm_compute in E. discriminate.
Defined.


(** ** Input *)

Section Input.
Context {F : Type} {NF : Num F} {LF : Libm F}.

Lemma session_eta (a : Game.session F) :
  Game.mkSession (Game.game a) (Game.keys_pressed a) = a.
Proof. now destruct a. Qed.

Lemma handle_input_idle (keys : Key -> bool) (t : Z) (a : Game.session F)
      (g : Random.Rng F) :
  input_live a = false -> Game.handle_input keys t a g = (a, g).
Proof.
  unfold input_live, ship_active, Game.handle_input.
  destruct (Game.is_playing _); cbn; [|reflexivity].
  destruct (Game.ship (Game.game a)) as [s|]; [|reflexivity].
  now intros ->.
Qed.

(** The ship after the rotation and thrust keys of [handle_input]. *)
Lemma steering_frame (keys : Key -> bool) (dt : F) (s : Ship.t F) :
  let s1 := if (keys K_LEFT || keys K_a)%bool then Ship.rotate s (-1) dt else s in
  let s2 := if (keys K_RIGHT || keys K_d)%bool then Ship.rotate s1 1 dt else s1 in
  let s3 := if (keys K_UP || keys K_w)%bool then Ship.thrust s2 dt else s2 in
  GameObject.position (Ship.obj s3) = GameObject.position (Ship.obj s) /\
  GameObject.active (Ship.obj s3) = GameObject.active (Ship.obj s) /\
  Ship.health s3 = Ship.health s /\
  Ship.invulnerable_time s3 = Ship.invulnerable_time s /\
  Ship.hyperspace_cooldown s3 = Ship.hyperspace_cooldown s.
Proof.
  assert (Hr : forall (s : Ship.t F) d,
    GameObject.position (Ship.obj (Ship.rotate s d dt))
    = GameObject.position (Ship.obj s) /\
    GameObject.active (Ship.obj (Ship.rotate s d dt))
    = GameObject.active (Ship.obj s) /\
    Ship.health (Ship.rotate s d dt) = Ship.health s /\
    Ship.invulnerable_time (Ship.rotate s d dt) = Ship.invulnerable_time s /\
    Ship.hyperspace_cooldown (Ship.rotate s d dt) = Ship.hyperspace_cooldown s).
  { intros s0 d. unfold Ship.rotate. cbn. auto. }
  assert (Ht : forall s : Ship.t F,
    GameObject.position (Ship.obj (Ship.thrust s dt))
    = GameObject.position (Ship.obj s) /\
    GameObject.active (Ship.obj (Ship.thrust s dt))
    = GameObject.active (Ship.obj s) /\
    Ship.health (Ship.thrust s dt) = Ship.health s /\
    Ship.invulnerable_time (Ship.thrust s dt) = Ship.invulnerable_time s /\
    Ship.hyperspace_cooldown (Ship.thrust s dt) = Ship.hyperspace_cooldown s).
  { intros s0. unfold Ship.thrust.
    destruct (Ship.fuel s0 <= of_Z 0)%py; [auto|]. cbv zeta.
    match goal with |- context [if ?c then Ship.set_fuel _ _ else _] =>
      destruct c end; cbn; auto. }
  cbv zeta.
  destruct (keys K_LEFT || keys K_a)%bool, (keys K_RIGHT || keys K_d)%bool,
    (keys K_UP || keys K_w)%bool;
    repeat match goal with
      | |- context [Ship.thrust ?x dt] =>
          destruct (Ht x) as (-> & -> & -> & -> & ->)
      | |- context [Ship.rotate ?x ?d dt] =>
          destruct (Hr x d) as (-> & -> & -> & -> & ->)
      end; auto.
Qed.

Lemma press_hyperspace_frame (s : Ship.t F) (gm : Game.t F)
      (g : Random.Rng F) :
  let gm' := fst (Game.press_hyperspace s gm g) in
  Game.bullets gm' = Game.bullets gm /\
  ((Game.state gm' = Game.state gm /\ Game.lives gm' = Game.lives gm) \/
   (Game.lives gm' = (Game.lives gm - 1)%Z /\
    ((Game.lives gm - 1 <= 0)%Z /\ Game.state gm' = GAME_OVER \/
     (0 < Game.lives gm - 1)%Z /\ Game.state gm' = Game.state gm))).
Proof.
  unfold Game.press_hyperspace, Random.bind.
  destruct (Ship.hyperspace s g) as [[s' arrived] g1].
  destruct arrived; cbn; [auto|].
  destruct (Game.lives gm - 1 <=? 0)%Z eqn:E; cbn.
  - apply Z.leb_le in E. split; [reflexivity|]. right.
    split; [reflexivity|]. left. auto.
  - apply Z.leb_gt in E. split; [reflexivity|]. right.
    split; [reflexivity|]. right. auto.
Qed.

(** X16.  Shooting is edge-triggered.  When the input is live (state
    [PLAYING], ship active), SPACE is held and SPACE was not recorded as
    pressed, [handle_input] appends one bullet to the list, a fresh one
    (lifetime 2, radius 2) at the ship's position; in every other case the
    bullets are as before.  Whenever the input is live the call records
    whether SPACE is held, so holding the key over consecutive frames fires
    once. *)
Theorem space_edge_triggered (keys : Key -> bool) (t : Z)
        (a : Game.session F) (g : Random.Rng F) :
  let a' := fst (Game.handle_input keys t a g) in
  (if (input_live a && keys K_SPACE
       && negb (has_SPACE (Game.keys_pressed a)))%bool
   then exists b,
          Game.bullets (Game.game a') = Game.bullets (Game.game a) ++ [b] /\
          fresh_bullet b /\
          Some (GameObject.position (Bullet.obj b))
          = option_map (fun s => GameObject.position (Ship.obj s))
                       (Game.ship (Game.game a))
   else Game.bullets (Game.game a') = Game.bullets (Game.game a)) /\
  has_SPACE (Game.keys_pressed a')
  = if input_live a then keys K_SPACE else has_SPACE (Game.keys_pressed a).
Proof.
  cbv zeta. destruct (input_live a) eqn:El.
  2:{ rewrite handle_input_idle by exact El. cbn. auto. }
  cbn [andb].
  unfold input_live, ship_active in El. apply andb_true_iff in El.
  destruct El as [Ep Es].
  unfold Game.handle_input. rewrite Ep.
  destruct (Game.ship (Game.game a)) as [s|] eqn:Eship; [|discriminate].
  rewrite Es. cbv zeta.
  pose proof (steering_frame keys (of_Z t / of_Z 1000)%py s) as Hst.
  cbv zeta in Hst.
  match type of Hst with
  | GameObject.position (Ship.obj ?x) = _ /\ _ => set (s3 := x) in *
  end.
  destruct Hst as (Hpos & Hact & _).
  unfold Random.bind.
  cbn [has_SPACE has_h].
  set (gm1 := Game.set_ship (Game.game a) (Some s3)).
  match goal with
  | |- context [if (keys K_h && _)%bool then _ else _] =>
      set (shot := if (keys K_SPACE && negb (has_SPACE (Game.keys_pressed a)))%bool
                   then Game.shoot_bullet gm1 else gm1)
  end.
  assert (Hh : forall gm0 : Game.t F,
    Game.bullets
      (fst ((if (keys K_h && negb (has_h (Game.keys_pressed a)))%bool
             then Game.press_hyperspace s3 gm0 else Random.ret gm0) g))
    = Game.bullets gm0).
  { intros gm0. destruct (keys K_h && _)%bool; [|reflexivity].
    apply press_hyperspace_frame. }
  specialize (Hh shot).
  destruct ((if (keys K_h && negb (has_h (Game.keys_pressed a)))%bool
             then Game.press_hyperspace s3 shot else Random.ret shot) g)
    as [gm2 g2].
  unfold Random.ret.
  cbn [fst Game.game Game.keys_pressed has_SPACE] in *.
  split; [|reflexivity]. rewrite Hh. unfold shot.
  destruct (keys K_SPACE) eqn:Ek; cbn [andb]; [|reflexivity].
  destruct (has_SPACE (Game.keys_pressed a)) eqn:Eh; cbn [negb];
    [reflexivity|].
  unfold Game.shoot_bullet, gm1. cbn [Game.ship Game.set_ship].
  rewrite Hact, Es.
  eexists. split; [reflexivity|]. split; [apply bullet_init_fresh|].
  cbn. rewrite <- Hpos. now destruct (GameObject.position (Ship.obj s3)).
Qed.

End Input.


Section HyperspaceKey.
Context {F : Type} {NF : Num F} {LF : Libm F}.

Lemma hyperspace_shielded (s : Ship.t F) (g : Random.Rng F) :
  (Ship.hyperspace_cooldown s <= of_Z 0)%py = true ->
  (Ship.invulnerable_time s > of_Z 0)%py = true ->
  (malfunction_draw g < lit 1 10)%py = true ->
  let r := Ship.hyperspace s g in
  snd (fst r) = false /\
  Ship.health (fst (fst r)) = Ship.health s /\
  GameObject.active (Ship.obj (fst (fst r))) = GameObject.active (Ship.obj s).
Proof.
  intros Hc Hi Hr. unfold Ship.hyperspace. rewrite Hc.
  unfold malfunction_draw in Hr.
  unfold Random.bind. cbn [Random.randint].
  change (Random.next (Random.next g)) with (skip 2 g).
  destruct (Random.random (skip 2 g)) as [x g3] eqn:Ex. cbn [fst] in Hr.
  rewrite Hr. unfold Ship.take_hit.
  cbn [Ship.invulnerable_time Ship.set_hyperspace_cooldown Ship.set_obj].
  rewrite Hi. cbn. auto.
Qed.

(** X17.  Pressing H costs a life whenever [hyperspace] returns [False],
    also when the ship was not destroyed: with the input live, the
    cooldown elapsed and the ship still invulnerable, on the malfunction
    draw ([random.random() < 0.1]) the jump leaves the ship's health and
    [active] flag as they were, and yet [handle_input] takes one life and
    replaces the ship by a new one, or ends the game if that life was the
    last. *)
Theorem hyperspace_charges_life (t : Z) (a : Game.session F)
        (g : Random.Rng F) (s : Ship.t F) :
  Game.state (Game.game a) = PLAYING ->
  Game.ship (Game.game a) = Some s ->
  GameObject.active (Ship.obj s) = true ->
  has_h (Game.keys_pressed a) = false ->
  (Ship.hyperspace_cooldown s <= of_Z 0)%py = true ->
  (Ship.invulnerable_time s > of_Z 0)%py = true ->
  (malfunction_draw g < lit 1 10)%py = true ->
  let a' := fst (Game.handle_input (only_key K_h) t a g) in
  let s' := fst (fst (Ship.hyperspace s g)) in
  (Ship.health s' = Ship.health s /\ GameObject.active (Ship.obj s') = true) /\
  Game.lives (Game.game a') = (Game.lives (Game.game a) - 1)%Z /\
  (if (Game.lives (Game.game a) - 1 <=? 0)%Z
   then Game.state (Game.game a') = GAME_OVER /\
        Game.ship (Game.game a') = Some s'
   else Game.state (Game.game a') = PLAYING /\
        Game.ship (Game.game a') = Some Game.new_ship) /\
  has_h (Game.keys_pressed a') = true.
Proof.
  intros Hp Hs Ha Hk Hc Hi Hr.
  destruct (hyperspace_shielded s g Hc Hi Hr) as (Hret & Hh & Hact).
  cbv zeta. split; [split; [exact Hh|congruence]|].
  unfold Game.handle_input. rewrite Hp, Hs. cbn [Game.is_playing].
  rewrite Ha. cbv zeta. cbn [only_key orb andb has_h has_SPACE].
  rewrite Hk. cbn [negb]. unfold Random.bind, Game.press_hyperspace.
  unfold Random.bind.
  destruct (Ship.hyperspace s g) as [[s' arrived] g1].
  cbn [fst snd] in *. subst arrived. cbn [negb].
  cbn [Game.lives Game.set_lives Game.set_ship].
  destruct (Game.lives (Game.game a) - 1 <=? 0)%Z; cbn; rewrite ?Hp; auto.
Qed.

End HyperspaceKey.

Lemma hyperspace_charges_life_witness :
  let a := DemoInput.alone in
  let s : Ship.t float := Game.new_ship in
  let a' := fst (Game.handle_input (LF := series_libm) (only_key K_h) 16 a
                   DemoLevel.steady) in
  let s' := fst (fst (Ship.hyperspace s DemoLevel.steady)) in
  (Ship.health s' = Ship.health s /\ GameObject.active (Ship.obj s') = true) /\
  Game.lives (Game.game a') = (Game.lives (Game.game a) - 1)%Z /\
  (if (Game.lives (Game.game a) - 1 <=? 0)%Z
   then Game.state (Game.game a') = GAME_OVER /\
        Game.ship (Game.game a') = Some s'
   else Game.state (Game.game a') = PLAYING /\
        Game.ship (Game.game a') = Some Game.new_ship) /\
  has_h (Game.keys_pressed a') = true.
Proof.
  apply (@hyperspace_charges_life float binary64 series_libm 16
           DemoInput.alone DemoLevel.steady Game.new_ship);
    vm_compute; reflexivity.
Defined.


(** X18.  [hyperspace] on every branch: with the cooldown running it does
    nothing and returns [True]; with the cooldown elapsed it moves the ship
    to a point with integer coordinates in [[50, 750] x [50, 550]], stops
    it, sets the cooldown to 3, keeps the heading and the fuel, draws
    exactly three random numbers, and returns [False] exactly on the
    malfunction draw ([random.random() < 0.1]). *)
Theorem hyperspace_teleports {F} {NF : Num F} (s : Ship.t F)
        (g : Random.Rng F) :
  let r := Ship.hyperspace s g in
  let s' := fst (fst r) in
  if (Ship.hyperspace_cooldown s <= of_Z 0)%py then
    (exists x y : Z,
       (50 <= x <= SCREEN_WIDTH - 50)%Z /\ (50 <= y <= SCREEN_HEIGHT - 50)%Z /\
       GameObject.position (Ship.obj s') = Vector2.mk (of_Z x) (of_Z y)) /\
    GameObject.velocity (Ship.obj s') = Vector2.mk (of_Z 0) (of_Z 0) /\
    Ship.hyperspace_cooldown s' = of_Z 3 /\
    GameObject.rotation (Ship.obj s') = GameObject.rotation (Ship.obj s) /\
    Ship.fuel s' = Ship.fuel s /\
    snd (fst r) = negb (malfunction_draw g < lit 1 10)%py /\
    snd r = skip 3 g
  else r = (s, true, g).
Proof.
  cbv zeta. unfold Ship.hyperspace.
  destruct (Ship.hyperspace_cooldown s <= of_Z 0)%py; [|reflexivity].
  unfold Random.bind.
  destruct (randint_range (F := F) 50 (SCREEN_WIDTH - 50) g
              ltac:(unfold SCREEN_WIDTH; lia)) as [Hx Egx].
  destruct (Random.randint 50 (SCREEN_WIDTH - 50) g) as [x g1].
  cbn [fst snd] in Hx, Egx. subst g1.
  destruct (randint_range (F := F) 50 (SCREEN_HEIGHT - 50) (skip 1 g)
              ltac:(unfold SCREEN_HEIGHT; lia)) as [Hy Egy].
  destruct (Random.randint 50 (SCREEN_HEIGHT - 50) (skip 1 g)) as [y g2].
  cbn [fst snd] in Hy, Egy. subst g2. rewrite skip_skip in *.
  unfold malfunction_draw. cbn [Nat.add].
  assert (Eg : snd (Random.random (skip 2 g)) = skip 3 g) by reflexivity.
  destruct (Random.random (skip 2 g)) as [d g3]. cbn [fst snd] in *. subst g3.
  destruct (d < lit 1 10)%py; cbn [negb].
  - unfold Ship.take_hit.
    cbn [Ship.invulnerable_time Ship.set_hyperspace_cooldown Ship.set_obj].
    destruct (Ship.invulnerable_time s > of_Z 0)%py.
    + cbn. split; [exists x, y; auto|]. auto 7.
    + cbn [fst snd].
      match goal with |- context [if ?c then Ship.set_active _ _ else _] =>
        destruct c end; cbn; (split; [exists x, y; auto|]); auto 7.
  - cbn. split; [exists x, y; auto|]. auto 7.
Qed.


(** ** The main loop *)

Section MainLoop.
Context {F : Type} {NF : Num F} {LF : Libm F}.

Lemma input_live_playing (a : Game.session F) :
  Game.is_playing (Game.state (Game.game a)) = false -> input_live a = false.
Proof. unfold input_live. now intros ->. Qed.

Lemma update_idle (fuel : nat) (dt : F) (gm : Game.t F) (g : Random.Rng F) :
  Game.is_playing (Game.state gm) = false ->
  Game.update fuel dt gm g = Some (gm, g).
Proof. unfold Game.update. now intros ->. Qed.

Lemma frame_idle (fuel : nat) (ms : Z) (keys : Key -> bool)
      (a : Game.session F) (g : Random.Rng F) :
  Game.is_playing (Game.state (Game.game a)) = false ->
  Game.frame fuel ms [] keys a g = Some (a, true, g).
Proof.
  intros H. unfold Game.frame. cbn [Game.handle_events].
  rewrite session_eta, handle_input_idle by (now apply input_live_playing).
  rewrite update_idle by exact H. now rewrite session_eta.
Qed.

Lemma run_idle (fuel : nat) (quiet : list (Z * (Key -> bool)))
      (rest : list (Z * list Event * (Key -> bool))) (a : Game.session F)
      (g : Random.Rng F) :
  Game.is_playing (Game.state (Game.game a)) = false ->
  Game.run fuel (map quiet_frame quiet ++ rest) a g = Game.run fuel rest a g.
Proof.
  intros H. induction quiet as [|[ms keys] quiet IH]; [reflexivity|].
  cbn [map app quiet_frame fst snd Game.run].
  now rewrite frame_idle by exact H.
Qed.

Lemma pause_resume (gm : Game.t F) :
  Game.state gm = PLAYING ->
  Game.set_state (Game.set_state gm PAUSED) PLAYING = gm.
Proof. destruct gm; cbn. now intros ->. Qed.

(** X19.  Pausing skips frames: from a game in state [PLAYING], a frame
    in which P is pressed, any number of frames without events, and a
    frame in which P is pressed again leave exactly what the last of these
    frames alone, without its key press, would have left.  Nothing moves,
    no key held is acted on or recorded and no random number is drawn
    while the game is paused. *)
Theorem pause_skips_frames (fuel : nat) (a : Game.session F)
        (g : Random.Rng F) (ms0 ms1 : Z) (keys0 keys1 : Key -> bool)
        (quiet : list (Z * (Key -> bool))) :
  Game.state (Game.game a) = PLAYING ->
  Game.run fuel ((ms0, [KEYDOWN K_p], keys0)
                 :: map quiet_frame quiet ++ [(ms1, [KEYDOWN K_p], keys1)]) a g
  = Game.run fuel [(ms1, [], keys1)] a g.
Proof.
  intros Hp.
  set (paused := Game.mkSession (Game.set_state (Game.game a) PAUSED)
                                (Game.keys_pressed a)).
  assert (Hi : Game.is_playing (Game.state (Game.game paused)) = false)
    by reflexivity.
  assert (E0 : Game.frame fuel ms0 [KEYDOWN K_p] keys0 a g
               = Some (paused, true, g)).
  { unfold Game.frame. cbn [Game.handle_events Game.handle_event].
    rewrite Hp. fold paused.
    rewrite handle_input_idle by (now apply input_live_playing).
    now rewrite update_idle by exact Hi. }
  cbn [Game.run]. rewrite E0. rewrite run_idle by exact Hi.
  cbn [Game.run]. unfold Game.frame.
  cbn [Game.handle_events Game.handle_event Game.game Game.keys_pressed paused
       Game.state Game.set_state].
  fold (Game.set_state (Game.game a) PAUSED).
  change (Game.mk PLAYING _ _ _ _ _ _ _ _ _ _)
    with (Game.set_state (Game.set_state (Game.game a) PAUSED) PLAYING).
  rewrite pause_resume by exact Hp. reflexivity.
Qed.

End MainLoop.

Lemma pause_skips_frames_witness :
  Game.run (LF := series_libm) 10
    ((16, [KEYDOWN K_p], only_key K_SPACE)
     :: map quiet_frame [(16, only_key K_UP); (17, only_key K_h)]
        ++ [(16, [KEYDOWN K_p], only_key K_LEFT)])%Z
    DemoInput.session Demo.oracle
  = Game.run 10 [(16, [], only_key K_LEFT)]%Z DemoInput.session Demo.oracle.
Proof.
  apply (@pause_skips_frames float binary64 series_libm 10 DemoInput.session
           Demo.oracle 16 16 (only_key K_SPACE) (only_key K_LEFT)
           [(16, only_key K_UP); (17, only_key K_h)]%Z).
  reflexivity.
Defined.


Section LivesInvariant.
Context {F : Type} {NF : Num F} {LF : Libm F}.

Lemma handle_event_lives_ok (fuel : nat) (e : Event) (gm gm' : Game.t F)
      (running running' : bool) (g g' : Random.Rng F) :
  lives_ok gm ->
  Game.handle_event fuel e gm running g = Some (gm', running', g') ->
  lives_ok gm'.
Proof.
  intros H E.
  assert (Hreset : forall gm1 g1,
    Game.reset_game fuel gm g = Some (gm1, g1) ->
    lives_ok (Game.set_state gm1 PLAYING)).
  { intros gm1 g1 Er. unfold Game.reset_game in Er.
    apply start_level_frame in Er. destruct Er as (_ & _ & El & _).
    unfold lives_ok. cbn in *. lia. }
  unfold Game.handle_event in E.
  destruct e as [|k|]; try (injection E as <- <- <-; exact H).
  destruct k; try (injection E as <- <- <-; exact H).
  - (* RETURN *)
    destruct (Game.state gm) eqn:Es; try (injection E as <- <- <-; exact H);
      destruct (Game.reset_game fuel gm g) as [[gm1 g1]|] eqn:Er;
      try discriminate; injection E as <- <- <-; eapply Hreset; eauto.
  - (* P *)
    unfold lives_ok in *.
    destruct (Game.state gm) eqn:Es; injection E as <- <- <-; cbn;
      rewrite ?Es; exact H.
Qed.

Lemma handle_events_lives_ok (fuel : nat) (events : list Event) :
  forall (gm gm' : Game.t F) (running running' : bool) (g g' : Random.Rng F),
    lives_ok gm ->
    Game.handle_events fuel events gm running g = Some (gm', running', g') ->
    lives_ok gm'.
Proof.
  induction events as [|e events IH]; intros gm gm' r r' g g' H E; cbn in E.
  - injection E as <- <- <-. exact H.
  - destruct (Game.handle_event fuel e gm r g) as [[[gm1 r1] g1]|] eqn:Ee;
      [|discriminate].
    eapply IH; [|exact E]. eapply handle_event_lives_ok; eauto.
Qed.

Lemma counters_lives_ok (gm gm' : Game.t F) :
  lives_ok gm ->
  (Game.state gm' = Game.state gm /\ Game.lives gm' = Game.lives gm) \/
  (Game.state gm = PLAYING /\ Game.lives gm' = (Game.lives gm - 1)%Z /\
   ((Game.lives gm - 1 <= 0)%Z /\ Game.state gm' = GAME_OVER \/
    (0 < Game.lives gm - 1)%Z /\ Game.state gm' = PLAYING)) ->
  lives_ok gm'.
Proof.
  unfold lives_ok. intros H [[-> ->]|(Hp & -> & [[Hl ->]|[Hl ->]])];
    trivial; lia.
Qed.

Lemma handle_input_lives_ok (keys : Key -> bool) (t : Z)
      (a : Game.session F) (g : Random.Rng F) :
  lives_ok (Game.game a) ->
  lives_ok (Game.game (fst (Game.handle_input keys t a g))).
Proof.
  intros H. destruct (input_live a) eqn:El.
  2:{ now rewrite handle_input_idle by exact El. }
  unfold input_live, ship_active in El. apply andb_true_iff in El.
  destruct El as [Ep Es].
  assert (Hp : Game.state (Game.game a) = PLAYING)
    by (destruct (Game.state (Game.game a)); try discriminate; reflexivity).
  unfold Game.handle_input. rewrite Ep.
  destruct (Game.ship (Game.game a)) as [s|]; [|discriminate].
  rewrite Es. cbv zeta. unfold Random.bind.
  match goal with
  | |- context [(if (keys K_h && ?c)%bool
                 then Game.press_hyperspace ?s3 ?shot else _) g] =>
      assert (Hshot : Game.state shot = Game.state (Game.game a) /\
                      Game.lives shot = Game.lives (Game.game a));
      [|pose proof (press_hyperspace_frame s3 shot g) as Hh;
        destruct (keys K_h && c)%bool;
        [destruct (Game.press_hyperspace s3 shot g) as [gm2 g2]|]]
  end.
  - destruct (keys K_SPACE && _)%bool; [|cbn; auto].
    unfold Game.shoot_bullet. cbn [Game.ship Game.set_ship].
    match goal with |- context [if ?c then _ else _] => destruct c end;
      cbn; auto.
  - cbn [fst] in Hh. destruct Hh as (_ & Hh). destruct Hshot as [E1 E2].
    unfold Random.ret. cbn [fst Game.game].
    apply (counters_lives_ok (Game.game a)); [exact H|].
    rewrite E1, E2 in Hh.
    destruct Hh as [Hh|(Hl & [[Hle Hst]|[Hlt Hst]])]; [left; exact Hh| |].
    + right. split; [exact Hp|]. split; [exact Hl|]. left. auto.
    + right. split; [exact Hp|]. split; [exact Hl|]. right. split; congruence.
  - unfold Random.ret. cbn [fst Game.game].
    apply (counters_lives_ok (Game.game a)); [exact H|]. left. exact Hshot.
Qed.

Lemma update_lives_ok (fuel : nat) (dt : F) (gm gm' : Game.t F)
      (g g' : Random.Rng F) :
  lives_ok gm -> Game.update fuel dt gm g = Some (gm', g') -> lives_ok gm'.
Proof.
  intros H E. apply update_tick_counters in E.
  destruct E as (_ & _ & E).
  apply (counters_lives_ok gm); [exact H|].
  destruct E as [E|(Hp & Hl & Hs)]; [left; exact E|].
  right. split; [exact Hp|]. split; [exact Hl|].
  destruct (Game.lives gm - 1 <=? 0)%Z eqn:El.
  - apply Z.leb_le in El. left. auto.
  - apply Z.leb_gt in El. right. auto.
Qed.

Lemma frame_lives_ok (fuel : nat) (ms : Z) (events : list Event)
      (keys : Key -> bool) (a a' : Game.session F) (running : bool)
      (g g' : Random.Rng F) :
  lives_ok (Game.game a) ->
  Game.frame fuel ms events keys a g = Some (a', running, g') ->
  lives_ok (Game.game a').
Proof.
  intros H E. unfold Game.frame in E.
  destruct (Game.handle_events fuel events (Game.game a) true g)
    as [[[gm1 r1] g1]|] eqn:Ee; [|discriminate].
  apply handle_events_lives_ok in Ee; [|exact H].
  pose proof (handle_input_lives_ok keys ms
                (Game.mkSession gm1 (Game.keys_pressed a)) g1 Ee) as Hi.
  destruct (Game.handle_input keys ms _ g1) as [a1 g2]. cbn [fst] in Hi.
  destruct (Game.update fuel _ (Game.game a1) g2) as [[gm2 g3]|] eqn:Eu;
    [|discriminate].
  injection E as <- <- <-. cbn. eapply update_lives_ok; eauto.
Qed.

(** X20.  The lives agree with the state along every run of the main loop:
    if the game has at least one life while [PLAYING] or [PAUSED] and none
    while [GAME_OVER], the same holds after any sequence of frames,
    whatever the events, the keys held and the random draws.  The game is
    never played with no life left, and it is over only with none. *)
Theorem run_keeps_lives_ok (fuel : nat)
        (script : list (Z * list Event * (Key -> bool))) :
  forall (a a' : Game.session F) (g g' : Random.Rng F),
    lives_ok (Game.game a) ->
    Game.run fuel script a g = Some (a', g') ->
    lives_ok (Game.game a').
Proof.
  induction script as [|[[ms events] keys] script IH]; intros a a' g g' H E;
    cbn [Game.run] in E.
  - injection E as <- <-. exact H.
  - destruct (Game.frame fuel ms events keys a g) as [[[a1 r] g1]|] eqn:Ef;
      [|discriminate].
    apply frame_lives_ok in Ef; [|exact H].
    destruct r; [eapply IH; eauto|].
    injection E as <- <-. exact Ef.
Qed.

End LivesInvariant.

Lemma run_keeps_lives_ok_witness :
  exists a' g',
    Game.run (LF := series_libm) 10
      [(16, [], only_key K_SPACE); (16, [KEYDOWN K_p], only_key K_SPACE)]%Z
      DemoInput.session Demo.oracle = Some (a', g') /\
    lives_ok (Game.game a').
Proof.
  destruct (Game.run (LF := series_libm) 10
              [(16, [], only_key K_SPACE); (16, [KEYDOWN K_p], only_key K_SPACE)]%Z
              DemoInput.session Demo.oracle) as [[a' g']|] eqn:E.
  - exists a', g'. split; [reflexivity|].
    apply (@run_keeps_lives_ok float binary64 series_libm 10
             [(16, [], only_key K_SPACE); (16, [KEYDOWN K_p], only_key K_SPACE)]%Z
             DemoInput.session a' Demo.oracle g'); [|exact E].
    unfold lives_ok. cbn. lia.
  - exfalso. vm_compute in E. discriminate.
Defined.

(** X21.  RETURN starts a new game from the menu and from game over: under
    a fair oracle the key press returns, and it leaves the state
    [PLAYING], score 0, 3 lives, level 1, a new ship, no bullets and no
    aliens, and 5 large asteroids placed far from the ship. *)
Theorem return_starts_game {LF : Libm float} (gm : Game.t float)
        (g : Random.Rng float) :
  Game.state gm = MENU \/ Game.state gm = GAME_OVER ->
  fair g ->
  exists fuel0, forall fuel, (fuel0 <= fuel)%nat ->
    exists gm' g',
      Game.handle_event fuel (KEYDOWN K_RETURN) gm true g
      = Some (gm', true, g') /\
      Game.state gm' = PLAYING /\ Game.score gm' = 0%Z /\
      Game.lives gm' = 3%Z /\ Game.level gm' = 1%Z /\
      Game.ship gm' = Some Game.new_ship /\
      Game.bullets gm' = [] /\ Game.alien_ships gm' = [] /\
      Game.alien_bullets gm' = [] /\
      length (Game.asteroids gm') = 5%nat /\
      Forall placed_far (Game.asteroids gm').
Proof.
  intros Hs Hfair.
  set (gm0 := Game.set_level (Game.set_lives (Game.set_score gm 0) 3) 1).
  destruct (start_level_returns gm0 g Hfair) as [fuel0 Hret].
  exists fuel0. intros fuel Hf.
  destruct (Hret fuel Hf) as (gm1 & g1 & E).
  pose proof (start_level_some fuel gm0 gm1 g g1 ltac:(cbn; lia) E) as Hl.
  destruct Hl as (A1 & A2 & A3 & A4 & A5 & A6 & _ & A8 & A9 & A10 & _).
  exists (Game.set_state gm1 PLAYING), g1.
  split.
  { unfold Game.handle_event, Game.reset_game. fold gm0. rewrite E.
    destruct Hs as [-> | ->]; reflexivity. }
  cbn in *. repeat split; trivial. lia.
Qed.

Lemma return_starts_game_witness :
  exists fuel0, forall fuel, (fuel0 <= fuel)%nat ->
    exists gm' g',
      Game.handle_event (LF := series_libm) fuel (KEYDOWN K_RETURN)
        Game.init true DemoLevel.steady
      = Some (gm', true, g') /\
      Game.state gm' = PLAYING /\ Game.score gm' = 0%Z /\
      Game.lives gm' = 3%Z /\ Game.level gm' = 1%Z /\
      Game.ship gm' = Some Game.new_ship /\
      Game.bullets gm' = [] /\ Game.alien_ships gm' = [] /\
      Game.alien_bullets gm' = [] /\
      length (Game.asteroids gm') = 5%nat /\
      Forall placed_far (Game.asteroids gm').
Proof.
  apply (@return_starts_game series_libm Game.init DemoLevel.steady).
  - left. reflexivity.
  - exact steady_fair.
Defined.


Section Quit.
Context {F : Type} {NF : Num F} {LF : Libm F}.

Lemma handle_event_running (fuel : nat) (e : Event) (gm gm' : Game.t F)
      (running running' : bool) (g g' : Random.Rng F) :
  Game.handle_event fuel e gm running g = Some (gm', running', g') ->
  running' = match e with
             | QUIT | KEYDOWN K_ESCAPE => false
             | _ => running
             end.
Proof.
  unfold Game.handle_event.
  destruct e as [|k|]; [| |]; try (intros E; now injection E as <- <- <-).
  destruct k; try (intros E; now injection E as <- <- <-).
  - destruct (Game.state gm);
      try (intros E; now injection E as <- <- <-);
      destruct (Game.reset_game fuel gm g) as [[gm1 g1]|]; try discriminate;
      intros E; now injection E as <- <- <-.
  - destruct (Game.state gm); intros E; now injection E as <- <- <-.
Qed.

Lemma handle_events_stopped (fuel : nat) (events : list Event) :
  forall (gm gm' : Game.t F) (running' : bool) (g g' : Random.Rng F),
    Game.handle_events fuel events gm false g = Some (gm', running', g') ->
    running' = false.
Proof.
  induction events as [|e events IH]; intros gm gm' r' g g' E; cbn in E.
  - now injection E as <- <- <-.
  - destruct (Game.handle_event fuel e gm false g) as [[[gm1 r1] g1]|] eqn:Ee;
      [|discriminate].
    apply handle_event_running in Ee.
    assert (H : r1 = false)
      by (rewrite Ee; destruct e as [|[]|]; reflexivity).
    clear Ee. subst r1. exact (IH _ _ _ _ _ E).
Qed.

Lemma handle_events_quit (fuel : nat) (events : list Event) :
  forall (gm gm' : Game.t F) (running running' : bool) (g g' : Random.Rng F),
    In QUIT events \/ In (KEYDOWN K_ESCAPE) events ->
    Game.handle_events fuel events gm running g = Some (gm', running', g') ->
    running' = false.
Proof.
  induction events as [|e events IH]; intros gm gm' r r' g g' Hin E;
    [destruct Hin as [[]|[]]|].
  cbn in E.
  destruct (Game.handle_event fuel e gm r g) as [[[gm1 r1] g1]|] eqn:Ee;
    [|discriminate].
  apply handle_event_running in Ee.
  destruct Hin as [[->|Hin]|[->|Hin]].
  - subst r1. exact (handle_events_stopped _ _ _ _ _ _ _ E).
  - exact (IH _ _ _ _ _ _ (or_introl Hin) E).
  - subst r1. exact (handle_events_stopped _ _ _ _ _ _ _ E).
  - exact (IH _ _ _ _ _ _ (or_intror Hin) E).
Qed.

(** X25.  QUIT and ESCAPE end the main loop at the end of the frame in
    which they arrive: the events behind them in the queue, the keys held
    and the tick of that frame are still processed, and no later frame
    is. *)
Theorem quit_ends_run (fuel : nat) (ms : Z) (events : list Event)
        (keys : Key -> bool) (rest : list (Z * list Event * (Key -> bool)))
        (a : Game.session F) (g : Random.Rng F) :
  In QUIT events \/ In (KEYDOWN K_ESCAPE) events ->
  Game.run fuel ((ms, events, keys) :: rest) a g
  = match Game.frame fuel ms events keys a g with
    | Some (a', _, g') => Some (a', g')
    | None => None
    end.
Proof.
  intros Hin. cbn [Game.run].
  destruct (Game.frame fuel ms events keys a g) as [[[a1 r] g1]|] eqn:Ef;
    [|reflexivity].
  assert (r = false); [|now subst r].
  unfold Game.frame in Ef.
  destruct (Game.handle_events fuel events (Game.game a) true g)
    as [[[gm1 r1] g2]|] eqn:Ee; [|discriminate].
  apply handle_events_quit in Ee; [|exact Hin]. subst r1.
  destruct (Game.handle_input keys ms _ g2) as [a2 g3].
  destruct (Game.update fuel _ (Game.game a2) g3) as [[gm2 g4]|];
    [|discriminate].
  now injection Ef as <- <- <-.
Qed.

End Quit.

Lemma quit_ends_run_witness :
  Game.run (LF := series_libm) 10
    ((16, [KEYDOWN K_p; QUIT; KEYDOWN K_p], only_key K_SPACE)
     :: [(16, [], only_key K_SPACE)])%Z
    DemoInput.session Demo.oracle
  = match Game.frame 10 16 [KEYDOWN K_p; QUIT; KEYDOWN K_p]
            (only_key K_SPACE) DemoInput.session Demo.oracle with
    | Some (a', _, g') => Some (a', g')
    | None => None
    end.
Proof.
  apply (@quit_ends_run float binary64 series_libm 10 16
           [KEYDOWN K_p; QUIT; KEYDOWN K_p] (only_key K_SPACE)
           [(16, [], only_key K_SPACE)]%Z DemoInput.session Demo.oracle).
  left. cbn. auto.
Defined.


(** ** The properties above on concrete scenes *)

Lemma hyperspace_malfunction_witness :
  let r := Ship.hyperspace Wreck.ship DemoLevel.steady in
  snd (fst r) = false /\
  Ship.health (fst (fst r)) = 0%Z /\
  GameObject.active (Ship.obj (fst (fst r))) = false.
Proof.
  apply (@hyperspace_malfunction float binary64 Wreck.ship DemoLevel.steady);
    vm_compute; reflexivity.
Defined.

Lemma life_lost_in_tick_witness :
  exists gm',
    Game.update (LF := series_libm) 10 (lit 16 1000) Crash.scene Demo.oracle
    = Some (gm', snd (Game.update_and_collide (lit 16 1000) Crash.scene
                        Demo.oracle)) /\
    Game.lives gm' = (Game.lives Crash.scene - 1)%Z /\
    (if (Game.lives Crash.scene - 1 <=? 0)%Z
     then Game.state gm' = GAME_OVER
     else Game.state gm' = PLAYING /\ Game.ship gm' = Some Game.new_ship) /\
    life_loss_frame
      (fst (Game.update_and_collide (lit 16 1000) Crash.scene Demo.oracle))
      gm'.
Proof.
  apply (@life_lost_in_tick float binary64 series_libm 10 (lit 16 1000)
           Crash.scene Demo.oracle Crash.wreck).
  - reflexivity.
  - vm_compute. reflexivity.
  - vm_compute. reflexivity.
  - left. intros H. vm_compute in H. discriminate.
Defined.
